(** * Collections-C hash table ([src/hashtable.c]): model and properties

    The table is a separate-chaining hash table over untyped pointers
    ([void *] keys and values) whose hashing and key comparison are
    function pointers stored in the table.  The model follows the C
    code function by function:

    - a pointer is an [option]: [None] is [NULL];
    - a [TableEntry *] is the chain that starts at that node, so a chain
      is a [list TableEntry] and [NULL] is the empty list;
    - [size_t] values are [Z] with the wrap-around written out ([wrap]);
    - the [float] load factor is an IEEE-754 binary32 value ([Float32]);
    - every function that may run into undefined behaviour (a strategy
      called on a pointer it cannot dereference, an array read out of
      bounds, a [float] to [size_t] conversion out of range) returns an
      [option] whose [None] is "undefined";
    - the allocators are an oracle: the list of the outcomes of the
      allocation requests still to come; there is no heap, so
      [mem_free] has no counterpart: an unlinked entry is dropped from
      its list;
    - a loop over the bucket indices is a traversal of the list of
      buckets; its counter is an [int] compared with a [size_t], so
      the loop is undefined when the counter would have to pass
      [INT_MAX]. *)

From Stdlib Require Import ZArith Lia Bool String Ascii.
From Stdlib Require Import Floats.SpecFloat.
From stdpp Require Import base tactics option list relations.

Local Open Scope Z_scope.

(** ** Build-time configuration *)

(** [ARCH_64] is the macro tested by [#ifdef ARCH_64]; [MAX_POW_TWO] is a
    constant of a header that is not part of [hashtable.c]; whether
    [char] is signed is the compiler's choice. *)
Class Platform := {
  ARCH_64 : bool;
  MAX_POW_TWO : Z;
  CHAR_SIGNED : bool
}.

Section SizeT.
Context `{Platform}.

Definition size_bits : Z := if ARCH_64 then 64 else 32.

(** Reduction of an arithmetic result to [size_t]. *)
Definition wrap (x : Z) : Z := x mod 2 ^ size_bits.
End SizeT.

(** The largest [int]: 32 bits on both targets.  An increment of an
    [int] counter that holds [INT_MAX] is undefined. *)
Definition INT_MAX : Z := 2 ^ 31 - 1.

(** ** binary32 arithmetic used for the threshold *)

Module Float32.
Definition prec : Z := 24.
Definition emax : Z := 128.

Definition float := spec_float.

(** [(float) n] for an unsigned integer [n]: round to nearest even. *)
Definition of_size_t (n : Z) : float := binary_normalize prec emax n 0 false.

Definition mul (x y : float) : float := SFmul prec emax x y.

(** The integral part of the magnitude [m * 2^e]. *)
Definition trunc_mag (m : positive) (e : Z) : Z :=
  match e with
  | Zneg p => Z.shiftr (Zpos m) (Zpos p)
  | _ => Z.shiftl (Zpos m) e
  end.

(** [(size_t) x]: the value is truncated toward zero; the conversion is
    undefined when the truncated value does not fit. *)
Definition to_size_t (bits : Z) (x : float) : option Z :=
  match x with
  | S754_zero _ => Some 0
  | S754_finite s m e =>
      let q := trunc_mag m e in
      if s then (if q =? 0 then Some 0 else None)
      else if q <? 2 ^ bits then Some q else None
  | _ => None
  end.

(** [0.75f] *)
Definition f0_75 : float := S754_finite false 12582912 (-24).
End Float32.

(** ** The allocators *)

(** Outcomes of the allocation requests to come, in order; once the
    list is used up every request succeeds. *)
Definition Allocs := list bool.

(** No request to come fails. *)
Definition all_succeed (o : Allocs) : Prop := ∀ b : bool, b ∈ o → b = true.

Definition alloc (o : Allocs) : bool * Allocs :=
  match o with
  | [] => (true, [])
  | b :: o' => (b, o')
  end.

(** A left fold whose step may be undefined. *)
Fixpoint fold_ub {A B : Type} (f : A → B → option A) (a : A) (l : list B) : option A :=
  match l with
  | [] => Some a
  | b :: l' => a' ← f a b; fold_ub f a' l'
  end.

Section Table.
Context `{Platform} {K V : Type}.

(** ** Data *)

(** [struct TableEntry]; the [next] field is the tail of the list the
    entry heads. *)
Record TableEntry := {
  e_key : option K;
  e_value : option V;
  e_hash : Z
}.

(** [struct hashtable_s] without its allocators (see [Allocs]). *)
Record HashTable := {
  capacity : Z;
  size : Z;
  threshold : Z;
  hash_seed : Z;
  key_len : Z;
  load_factor : Float32.float;
  buckets : option (list (list TableEntry));
  hash : option K → Z → Z → option Z;
  key_cmp : option K → option K → option bool
}.

(** [HashTableConf] without its allocators. *)
Record HashTableConf := {
  conf_load_factor : Float32.float;
  conf_initial_capacity : Z;
  conf_key_length : Z;
  conf_hash_seed : Z;
  conf_hash : option K → Z → Z → option Z;
  conf_key_compare : option K → option K → option bool
}.

(** [HashTableIter]. *)
Record HashTableIter := {
  table : HashTable;
  bucket_index : Z;
  next_entry : list TableEntry;
  prev_entry : list TableEntry
}.

Definition set_buckets (t : HashTable) (bs : list (list TableEntry)) : HashTable :=
  {| capacity := capacity t; size := size t; threshold := threshold t;
     hash_seed := hash_seed t; key_len := key_len t;
     load_factor := load_factor t; buckets := Some bs;
     hash := hash t; key_cmp := key_cmp t |}.

Definition set_size (t : HashTable) (n : Z) : HashTable :=
  {| capacity := capacity t; size := n; threshold := threshold t;
     hash_seed := hash_seed t; key_len := key_len t;
     load_factor := load_factor t; buckets := buckets t;
     hash := hash t; key_cmp := key_cmp t |}.

Definition set_value (e : TableEntry) (val : option V) : TableEntry :=
  {| e_key := e_key e; e_value := val; e_hash := e_hash e |}.

(** [!key] *)
Definition is_null (key : option K) : bool :=
  match key with None => true | Some _ => false end.

(** ** Capacity and threshold *)

Definition round_pow_two (n : Z) : Z :=
  if MAX_POW_TWO <=? n then MAX_POW_TWO
  else if n =? 0 then 2
  else
    let n := wrap (n - 1) in
    let n := Z.lor n (Z.shiftr n 1) in
    let n := Z.lor n (Z.shiftr n 2) in
    let n := Z.lor n (Z.shiftr n 4) in
    let n := Z.lor n (Z.shiftr n 8) in
    let n := Z.lor n (Z.shiftr n 16) in
    wrap (n + 1).

(** [capacity * load_factor] stored into a [size_t]. *)
Definition threshold_of (cap : Z) (lf : Float32.float) : option Z :=
  Float32.to_size_t size_bits (Float32.mul (Float32.of_size_t cap) lf).

(** [hash & (capacity - 1)] *)
Definition bucket_of (h cap : Z) : Z := Z.land h (wrap (cap - 1)).

(** ** Creation *)

Definition hashtable_new_conf (conf : HashTableConf) (o : Allocs)
  : option (option HashTable * Allocs) :=
  let '(got_table, o) := alloc o in
  if negb got_table then Some (None, o)
  else
    let cap := round_pow_two (conf_initial_capacity conf) in
    let '(got_buckets, o) := alloc o in
    th ← threshold_of cap (conf_load_factor conf);
    Some (Some {| capacity := cap; size := 0; threshold := th;
                  hash_seed := conf_hash_seed conf;
                  key_len := conf_key_length conf;
                  load_factor := conf_load_factor conf;
                  buckets := if got_buckets
                             then Some (replicate (Z.to_nat cap) [])
                             else None;
                  hash := conf_hash conf;
                  key_cmp := conf_key_compare conf |}, o).

(** ** Chains *)

(** The loop of [hashtable_add] and [add_null_key]: the value of the
    first entry whose key passes the test is overwritten. *)
Fixpoint chain_replace (same : option K → option bool) (val : option V)
    (c : list TableEntry) : option (option (list TableEntry)) :=
  match c with
  | [] => Some None
  | e :: c' =>
      b ← same (e_key e);
      if b : bool then Some (Some (set_value e val :: c'))
      else r ← chain_replace same val c'; Some (fmap (M:=option) (cons e) r)
  end.

(** The loop of [hashtable_get] and [get_null_key]. *)
Fixpoint chain_get (same : option K → option bool) (c : list TableEntry)
  : option (option V) :=
  match c with
  | [] => Some None
  | e :: c' =>
      b ← same (e_key e);
      if b : bool then Some (e_value e) else chain_get same c'
  end.

(** The loop of [hashtable_remove] and [remove_null_key]: the first
    entry that passes the test is unlinked. *)
Fixpoint chain_remove (same : option K → option bool) (c : list TableEntry)
  : option (option (option V * list TableEntry)) :=
  match c with
  | [] => Some None
  | e :: c' =>
      b ← same (e_key e);
      if b : bool then Some (Some (e_value e, c'))
      else r ← chain_remove same c';
           Some (fmap (M:=option)
                   (λ vc : option V * list TableEntry, (vc.1, e :: vc.2)) r)
  end.

(** The loop of [hashtable_contains_key]. *)
Fixpoint chain_contains (same : option K → option bool) (c : list TableEntry)
  : option bool :=
  match c with
  | [] => Some false
  | e :: c' =>
      b ← same (e_key e);
      if b : bool then Some true else chain_contains same c'
  end.

(** ** Growth *)

(** One turn of the inner loop of [move_entries]. *)
Definition move_entry (dest_size : Z) (dest : list (list TableEntry))
    (entry : TableEntry) : option (list (list TableEntry)) :=
  let index := Z.to_nat (bucket_of (e_hash entry) dest_size) in
  c ← dest !! index;
  Some (<[index := entry :: c]> dest).

(** [for (i = 0; i < src_size; i++)] with [int i]: the counter ends at
    [src_size], which it cannot do above [INT_MAX]. *)
Definition move_entries (src_bucket dest_bucket : list (list TableEntry))
    (src_size dest_size : Z) : option (list (list TableEntry)) :=
  if INT_MAX <? src_size then None
  else if (length src_bucket <? Z.to_nat src_size)%nat then None
  else fold_ub (fold_ub (move_entry dest_size)) dest_bucket
               (take (Z.to_nat src_size) src_bucket).

Definition resize (t : HashTable) (new_capacity : Z) (o : Allocs)
  : option (bool * HashTable * Allocs) :=
  if capacity t =? MAX_POW_TWO then Some (false, t, o)
  else
    let '(got, o) := alloc o in
    if negb got then Some (false, t, o)
    else
      old_buckets ← buckets t;
      new_buckets ← move_entries old_buckets
                       (replicate (Z.to_nat new_capacity) [])
                       (capacity t) new_capacity;
      th ← Float32.to_size_t size_bits
             (Float32.mul (load_factor t) (Float32.of_size_t new_capacity));
      Some (true,
            {| capacity := new_capacity; size := size t; threshold := th;
               hash_seed := hash_seed t; key_len := key_len t;
               load_factor := load_factor t; buckets := Some new_buckets;
               hash := hash t; key_cmp := key_cmp t |}, o).

(** ** Insertion *)

(** The part of [hashtable_add] and of [add_null_key] after the bucket
    [i] is known: replace in place, or allocate and prepend. *)
Definition add_at (t : HashTable) (i : Z) (same : option K → option bool)
    (key : option K) (val : option V) (h : Z) (o : Allocs)
  : option (bool * HashTable * Allocs) :=
  bs ← buckets t;
  c ← bs !! Z.to_nat i;
  r ← chain_replace same val c;
  match r with
  | Some c' => Some (true, set_buckets t (<[Z.to_nat i := c']> bs), o)
  | None =>
      let '(got, o) := alloc o in
      if negb got then Some (false, t, o)
      else
        let new_entry := {| e_key := key; e_value := val; e_hash := h |} in
        Some (true,
              set_size (set_buckets t (<[Z.to_nat i := new_entry :: c]> bs))
                       (wrap (size t + 1)), o)
  end.

Definition add_null_key (t : HashTable) (val : option V) (o : Allocs)
  : option (bool * HashTable * Allocs) :=
  add_at t 0 (λ k, Some (is_null k)) None val 0 o.

(** The first statement of [hashtable_add]:
    [if (size >= threshold) resize(table, capacity << 1);]
    the result of [resize] is not looked at. *)
Definition grow_if_full (t : HashTable) (o : Allocs) : option (HashTable * Allocs) :=
  if threshold t <=? size t
  then r ← resize t (wrap (Z.shiftl (capacity t) 1)) o; Some (r.1.2, r.2)
  else Some (t, o).

Definition hashtable_add (t : HashTable) (key : option K) (val : option V)
    (o : Allocs) : option (bool * HashTable * Allocs) :=
  '(t, o) ← grow_if_full t o;
  if is_null key then add_null_key t val o
  else
    h ← hash t key (key_len t) (hash_seed t);
    add_at t (bucket_of h (capacity t)) (λ k, key_cmp t k key) key val h o.

(** ** Lookup *)

Definition get_table_index (t : HashTable) (key : option K) : option Z :=
  h ← hash t key (key_len t) (hash_seed t);
  Some (bucket_of h (capacity t)).

Definition get_null_key (t : HashTable) : option (option V) :=
  bs ← buckets t;
  c ← bs !! 0%nat;
  chain_get (λ k, Some (is_null k)) c.

Definition hashtable_get (t : HashTable) (key : option K) : option (option V) :=
  if is_null key then get_null_key t
  else
    index ← get_table_index t key;
    bs ← buckets t;
    c ← bs !! Z.to_nat index;
    chain_get (λ k, key_cmp t k key) c.

Definition hashtable_contains_key (t : HashTable) (key : option K) : option bool :=
  index ← get_table_index t key;
  bs ← buckets t;
  c ← bs !! Z.to_nat index;
  chain_contains (λ k, key_cmp t key k) c.

Definition hashtable_size (t : HashTable) : Z := size t.

Definition hashtable_capacity (t : HashTable) : Z := capacity t.

(** ** Removal *)

(** The part of [hashtable_remove] and of [remove_null_key] after the
    bucket [i] is known. *)
Definition remove_at (t : HashTable) (i : Z) (same : option K → option bool)
  : option (option V * HashTable) :=
  bs ← buckets t;
  c ← bs !! Z.to_nat i;
  r ← chain_remove same c;
  match r with
  | Some (value, c') =>
      Some (value, set_size (set_buckets t (<[Z.to_nat i := c']> bs))
                            (wrap (size t - 1)))
  | None => Some (None, t)
  end.

Definition remove_null_key (t : HashTable) : option (option V * HashTable) :=
  remove_at t 0 (λ k, Some (is_null k)).

Definition hashtable_remove (t : HashTable) (key : option K)
  : option (option V * HashTable) :=
  if is_null key then remove_null_key t
  else
    i ← get_table_index t key;
    remove_at t i (λ k, key_cmp t key k).

(** The loops of [hashtable_remove_all]: every entry of the first
    [capacity] buckets is freed and counted down, every such bucket is
    reset; the [int] counter of the outer loop ends at [capacity]. *)
Definition hashtable_remove_all (t : HashTable) : option HashTable :=
  bs ← buckets t;
  let n := Z.to_nat (capacity t) in
  if INT_MAX <? capacity t then None
  else if (length bs <? n)%nat then None
  else
    Some (set_size
            (set_buckets t (((λ _, []) <$> take n bs) ++ drop n bs))
            (foldl (λ sz c, foldl (λ sz _, wrap (sz - 1)) sz c)
                   (size t) (take n bs))).

(** ** Iterator *)

(** The first non-empty chain at or after index [i]. *)
Fixpoint first_chain (bs : list (list TableEntry)) (i : Z)
  : option (Z * list TableEntry) :=
  match bs with
  | [] => None
  | [] :: bs' => first_chain bs' (i + 1)
  | c :: _ => Some (i, c)
  end.

(** [iter] is the content of the structure before the call.  The
    [int] counter of the loop reaches the index of the first chain, or
    [capacity] when there is none. *)
Definition hashtable_iter_init (iter : HashTableIter) (t : HashTable)
  : option HashTableIter :=
  bs ← buckets t;
  let n := Z.to_nat (capacity t) in
  match first_chain (take n bs) 0 with
  | Some (i, e) =>
      if INT_MAX <? i then None
      else
        Some {| table := t; bucket_index := i; next_entry := e; prev_entry := [] |}
  | None =>
      if INT_MAX <? capacity t then None
      else if (length bs <? n)%nat then None
      else Some {| table := t; bucket_index := bucket_index iter;
                   next_entry := next_entry iter;
                   prev_entry := prev_entry iter |}
  end.

Definition hashtable_iter_has_next (iter : HashTableIter) : bool :=
  match next_entry iter with [] => false | _ :: _ => true end.

End Table.

Arguments TableEntry : clear implicits.
Arguments HashTable : clear implicits.
Arguments HashTableConf : clear implicits.
Arguments HashTableIter : clear implicits.

(** ** The bundled string strategies and the default configuration *)

Section Strings.
Context `{Platform}.

Definition byte_of (c : ascii) : Z := Z.of_N (N_of_ascii c).

(** The byte [*str]: the terminator once the characters are used up. *)
Definition peek (str : string) : ascii :=
  match str with
  | EmptyString => zero
  | String c _ => c
  end.

Definition advance (str : string) : string :=
  match str with
  | EmptyString => EmptyString
  | String _ str' => str'
  end.

(** The characters before the first terminator. *)
Fixpoint c_str (s : string) : string :=
  match s with
  | EmptyString => EmptyString
  | String c s' => if (c =? zero)%char then EmptyString else String c (c_str s')
  end.

(** [*str] as the right operand of [^] against a [size_t]: promoted to
    [int], then converted. *)
Definition char_to_size_t (c : ascii) : Z :=
  if CHAR_SIGNED && (128 <=? byte_of c) then wrap (byte_of c - 256)
  else byte_of c.

(** [while ( *str++ ) hash = ((hash << 5) + hash) ^ *str;]
    The test reads the byte under [str] and steps over it; the body
    reads the byte [str] points to after the step. *)
Fixpoint hash_string_loop (str : string) (hash : Z) : Z :=
  match str with
  | EmptyString => hash
  | String c str' =>
      if (c =? zero)%char then hash
      else hash_string_loop str'
             (Z.lxor (wrap (wrap (Z.shiftl hash 5) + hash))
                     (char_to_size_t (peek str')))
  end.

Definition hashtable_hash_string (key : option string) (len seed : Z) : option Z :=
  str ← key; Some (hash_string_loop str 5381).

(** [strcmp] of the C library: the difference of the first two bytes
    that differ, [0] when both strings end together. *)
Fixpoint strcmp (s1 s2 : string) : Z :=
  match s1 with
  | EmptyString => 0 - byte_of (peek s2)
  | String c1 s1' =>
      if (c1 =? peek s2)%char
      then (if (c1 =? zero)%char then 0 else strcmp s1' (advance s2))
      else byte_of c1 - byte_of (peek s2)
  end.

Definition hashtable_string_key_cmp (key1 key2 : option string) : option bool :=
  s1 ← key1; s2 ← key2; Some (strcmp s1 s2 =? 0).

Definition hashtable_pointer_key_cmp (key1 key2 : option Z) : option bool :=
  Some (bool_decide (key1 = key2)).

Definition DEFAULT_CAPACITY : Z := 16.
Definition DEFAULT_LOAD_FACTOR : Float32.float := Float32.f0_75.

(** Modelled from the spec: the header that defines [KEY_LENGTH_VARIABLE]
    is missing; the spec calls it "a sentinel meaning variable-length",
    which no hash of this file reads for string keys. *)
Definition KEY_LENGTH_VARIABLE : Z := -1.

Definition hashtable_conf_init : HashTableConf string :=
  {| conf_hash := hashtable_hash_string;
     conf_key_compare := hashtable_string_key_cmp;
     conf_initial_capacity := DEFAULT_CAPACITY;
     conf_load_factor := DEFAULT_LOAD_FACTOR;
     conf_key_length := KEY_LENGTH_VARIABLE;
     conf_hash_seed := 0 |}.

(** The default configuration with another capacity hint. *)
Definition conf_with_capacity (n : Z) : HashTableConf string :=
  {| conf_hash := hashtable_hash_string;
     conf_key_compare := hashtable_string_key_cmp;
     conf_initial_capacity := n;
     conf_load_factor := DEFAULT_LOAD_FACTOR;
     conf_key_length := KEY_LENGTH_VARIABLE;
     conf_hash_seed := 0 |}.

Definition hashtable_new {V : Type} (o : Allocs)
  : option (option (HashTable string V) * Allocs) :=
  hashtable_new_conf hashtable_conf_init o.

(** The table that [hashtable_new] returns when both allocations
    succeed. *)
Definition default_table {V : Type} : HashTable string V :=
  {| capacity := 16; size := 0; threshold := 12; hash_seed := 0;
     key_len := KEY_LENGTH_VARIABLE; load_factor := DEFAULT_LOAD_FACTOR;
     buckets := Some (replicate 16 []);
     hash := hashtable_hash_string;
     key_cmp := hashtable_string_key_cmp |}.

(** The table of [hashtable_new] after [hashtable_add] of the [NULL]
    key with the value [x]: the entry is the chain of bucket 0. *)
Definition null_key_table {V : Type} (x : option V) : HashTable string V :=
  {| capacity := 16; size := 1; threshold := 12; hash_seed := 0;
     key_len := KEY_LENGTH_VARIABLE; load_factor := DEFAULT_LOAD_FACTOR;
     buckets := Some ([{| e_key := None; e_value := x; e_hash := 0 |}]
                      :: replicate 15 []);
     hash := hashtable_hash_string;
     key_cmp := hashtable_string_key_cmp |}.

(** *** MurmurHash3 on the pointer itself *)

Definition u32 (x : Z) : Z := x mod 2 ^ 32.
Definition u64 (x : Z) : Z := x mod 2 ^ 64.

Definition rotl32 (x r : Z) : Z :=
  u32 (Z.lor (Z.shiftl x r) (Z.shiftr x (32 - r))).

Definition rotl64 (x r : Z) : Z :=
  u64 (Z.lor (Z.shiftl x r) (Z.shiftr x (64 - r))).

Definition fmix64 (k : Z) : Z :=
  let k := Z.lxor k (Z.shiftr k 33) in
  let k := u64 (k * 0xff51afd7ed558ccd) in
  let k := Z.lxor k (Z.shiftr k 33) in
  let k := u64 (k * 0xc4ceb9fe1a85ec53) in
  Z.lxor k (Z.shiftr k 33).

Definition fmix32 (h : Z) : Z :=
  let h := Z.lxor h (Z.shiftr h 16) in
  let h := u32 (h * 0x85ebca6b) in
  let h := Z.lxor h (Z.shiftr h 13) in
  let h := u32 (h * 0xc2b2ae35) in
  Z.lxor h (Z.shiftr h 16).

(** One turn of the loop of the 64-bit [hashtable_hash_ptr]; [key] is
    the pointer as an integer. *)
Definition hash_ptr_round64 (key : Z) (hs : Z * Z) (i : nat) : Z * Z :=
  let c1 := 0x87c37b91114253d5 in
  let c2 := 0x4cf5ad432745937f in
  let k1 := Z.land (Z.shiftr key (2 * Z.of_nat i)) 0xff in
  let k2 := rotl64 k1 13 in
  let k1 := u64 (k1 * c1) in
  let k1 := rotl64 k1 31 in
  let k1 := u64 (k1 * c2) in
  let h1 := Z.lxor hs.1 k1 in
  let h1 := rotl64 h1 27 in
  let h1 := u64 (h1 + hs.2) in
  let h1 := u64 (h1 * 5 + 0x52dce729) in
  let k2 := u64 (k2 * c2) in
  let k2 := rotl64 k2 33 in
  let k2 := u64 (k2 * c1) in
  let h2 := Z.lxor hs.2 k2 in
  let h2 := rotl64 h2 31 in
  let h2 := u64 (h2 + h1) in
  let h2 := u64 (h2 * 5 + 0x38495ab5) in
  (h1, h2).

Definition hash_ptr64 (key len seed : Z) : Z :=
  let nblocks := Z.quot len 4 in
  let '(h1, h2) :=
    foldl (hash_ptr_round64 key) (seed, seed) (seq 0 (Z.to_nat nblocks)) in
  let h1 := Z.lxor h1 (u64 len) in
  let h2 := Z.lxor h2 (u64 len) in
  let h1 := u64 (h1 + h2) in
  let h2 := u64 (h2 + h1) in
  let h1 := fmix64 h1 in
  let h2 := fmix64 h2 in
  let h1 := u64 (h1 + h2) in
  h1.

(** One turn of the loop of the 32-bit [hashtable_hash_ptr]. *)
Definition hash_ptr_round32 (key : Z) (h1 : Z) (i : nat) : Z :=
  let c1 := 0xcc9e2d51 in
  let c2 := 0x1b873593 in
  let k1 := Z.land (Z.shiftr key (2 * Z.of_nat i)) 0xff in
  let k1 := u32 (k1 * c1) in
  let k1 := rotl32 k1 15 in
  let k1 := u32 (k1 * c2) in
  let h1 := Z.lxor h1 k1 in
  let h1 := rotl32 h1 13 in
  u32 (h1 * 5 + 0xe6546b64).

Definition hash_ptr32 (key len seed : Z) : Z :=
  let nblocks := Z.quot len 4 in
  let h1 := foldl (hash_ptr_round32 key) seed (seq 0 (Z.to_nat nblocks)) in
  let h1 := Z.lxor h1 (u32 len) in
  fmix32 h1.

(** The integer value of a pointer: [NULL] is 0. *)
Definition address (key : option Z) : Z :=
  match key with
  | None => 0
  | Some a => a
  end.

Definition hashtable_hash_ptr (key : option Z) (len seed : Z) : option Z :=
  Some (if ARCH_64 then hash_ptr64 (address key) len seed
        else hash_ptr32 (address key) len seed).

(** A configuration for keys compared by identity, with the default
    capacity and load factor; the key length is the size of a
    pointer. *)
Definition pointer_conf : HashTableConf Z :=
  {| conf_hash := hashtable_hash_ptr;
     conf_key_compare := hashtable_pointer_key_cmp;
     conf_initial_capacity := DEFAULT_CAPACITY;
     conf_load_factor := DEFAULT_LOAD_FACTOR;
     conf_key_length := size_bits / 8;
     conf_hash_seed := 0 |}.

(** What the claim about the string hash describes: the fold of
    [hash = hash*33 XOR byte] over every byte of the key, from 5381. *)
Definition djb2_step (hash : Z) (c : ascii) : Z :=
  Z.lxor (wrap (hash * 33)) (char_to_size_t c).

Definition djb2_xor_fold (s : string) : Z :=
  foldl djb2_step 5381 (list_ascii_of_string (c_str s)).

End Strings.

(** Two usual targets. *)
Definition lp64 : Platform :=
  {| ARCH_64 := true; MAX_POW_TWO := 2 ^ 63; CHAR_SIGNED := true |}.

Definition ilp32 : Platform :=
  {| ARCH_64 := false; MAX_POW_TWO := 2 ^ 31; CHAR_SIGNED := false |}.

(** ** Vocabulary of the properties *)

Section Vocabulary.
Context `{Platform} {K V : Type}.
Implicit Types (t : HashTable K V) (e : TableEntry K V) (k : option K).

(** The five shift-and-or steps of [round_pow_two]. *)
Definition smear (n : Z) : Z :=
  let n := Z.lor n (Z.shiftr n 1) in
  let n := Z.lor n (Z.shiftr n 2) in
  let n := Z.lor n (Z.shiftr n 4) in
  let n := Z.lor n (Z.shiftr n 8) in
  Z.lor n (Z.shiftr n 16).

(** Bit [i] of [n] is set exactly when [n0] has a set bit among the
    [w] bits from [i] upwards. *)
Definition covers (n0 w n : Z) : Prop :=
  ∀ i, 0 ≤ i →
    Z.testbit n i = true ↔ ∃ j, 0 ≤ j < w ∧ Z.testbit n0 (i + j) = true.

(** [MAX_POW_TWO] is a power of two, at least 2, that a [size_t] holds. *)
Definition platform_ok : Prop :=
  ∃ m, 1 ≤ m < size_bits ∧ MAX_POW_TWO = 2 ^ m.

(** Every entry of every chain, bucket after bucket. *)
Definition entries t : list (TableEntry K V) :=
  match buckets t with
  | Some bs => concat bs
  | None => []
  end.

(** The number of entries across all chains. *)
Definition count t : Z := Z.of_nat (length (entries t)).

(** The size field counts the entries and the bucket array has
    [capacity] slots. *)
Definition size_inv t : Prop :=
  size t = wrap (count t)
  ∧ ∀ bs, buckets t = Some bs → length bs = Z.to_nat (capacity t).

(** The capacity is a power of two that does not exceed [MAX_POW_TWO]. *)
Definition cap_inv t : Prop :=
  ∃ n, 0 ≤ n ∧ capacity t = 2 ^ n ∧ capacity t ≤ MAX_POW_TWO.

(** Two keys are the same for a comparator: [NULL] is only the same as
    [NULL] (the null-key functions test the pointer), two other keys
    are the same when the comparator says so. *)
Definition same_by (cmp : option K → option K → option bool)
    (k1 k2 : option K) : Prop :=
  match k1, k2 with
  | None, None => True
  | Some _, Some _ => cmp k1 k2 = Some true
  | _, _ => False
  end.

Definition same_key t : option K → option K → Prop := same_by (key_cmp t).

(** What a table needs from its strategies on keys other than [NULL]:
    they are defined, the comparator is an equivalence and the hash
    respects it. *)
Record strategies_ok (hash : option K → Z → Z → option Z)
    (key_cmp : option K → option K → option bool) (len seed : Z) : Prop := {
  cmp_total : ∀ a b : K, is_Some (key_cmp (Some a) (Some b));
  cmp_refl : ∀ a : K, key_cmp (Some a) (Some a) = Some true;
  cmp_sym : ∀ a b : K,
    key_cmp (Some a) (Some b) = Some true →
    key_cmp (Some b) (Some a) = Some true;
  cmp_trans : ∀ a b c : K,
    key_cmp (Some a) (Some b) = Some true →
    key_cmp (Some b) (Some c) = Some true →
    key_cmp (Some a) (Some c) = Some true;
  hash_total : ∀ a : K, is_Some (hash (Some a) len seed);
  hash_cmp : ∀ a b : K,
    key_cmp (Some a) (Some b) = Some true →
    hash (Some a) len seed = hash (Some b) len seed
}.

(** The comparator may meet [NULL]: either it answers "different"
    there, or no entry of the table has the [NULL] key. *)
Definition null_safe t : Prop :=
  (∀ a : K, key_cmp t None (Some a) = Some false
            ∧ key_cmp t (Some a) None = Some false)
  ∨ (∀ e, e ∈ entries t → e_key e ≠ None).

(** A key the table can be asked about without the comparator being
    called outside its domain: the [NULL] key, which is never passed to
    the comparator, or any key when the table is [null_safe], that is
    when no entry has the [NULL] key or the comparator answers [false]
    for [NULL] against another key. *)
Definition key_ok t k : Prop :=
  match k with
  | None => True
  | Some _ => null_safe t
  end.

(** The cached hash of an entry: [0] for the [NULL] key, the digest of
    the key otherwise. *)
Definition cached t e : Prop :=
  match e_key e with
  | None => e_hash e = 0
  | Some _ => hash t (e_key e) (key_len t) (hash_seed t) = Some (e_hash e)
  end.

(** No two keys of the list are the same. *)
Inductive distinct_keys (cmp : option K → option K → option bool)
  : list (option K) → Prop :=
| distinct_nil : distinct_keys cmp []
| distinct_cons k ks :
    (∀ k', k' ∈ ks → ¬ same_by cmp k k') →
    distinct_keys cmp ks →
    distinct_keys cmp (k :: ks).

(** The representation invariant. *)
Record wf t : Prop := {
  wf_capacity : cap_inv t;
  wf_buckets : ∃ bs, buckets t = Some bs
                     ∧ length bs = Z.to_nat (capacity t)
                     ∧ ∀ i c e, bs !! i = Some c → e ∈ c →
                         Z.of_nat i = bucket_of (e_hash e) (capacity t);
  wf_cached : ∀ e, e ∈ entries t → cached t e;
  wf_distinct : distinct_keys (key_cmp t) (e_key <$> entries t);
  wf_size : size t = wrap (count t);
  wf_strategies :
    strategies_ok (hash t) (key_cmp t) (key_len t) (hash_seed t)
}.

(** On every entry of [c] the test [same] of a chain loop is defined
    and decides the property [P]. *)
Definition tests (same : option K → option bool)
    (P : TableEntry K V → Prop) (c : list (TableEntry K V)) : Prop :=
  ∀ e, e ∈ c → ∃ b : bool, same (e_key e) = Some b ∧ (b = true ↔ P e).

(** The bucket a key belongs to: bucket 0 for [NULL]. *)
Definition home t k : option Z :=
  match k with
  | None => Some 0
  | Some _ => get_table_index t k
  end.

(** The two tables have the same strategies, seed, key length and load
    factor. *)
Definition same_params t t' : Prop :=
  hash t' = hash t ∧ key_cmp t' = key_cmp t ∧ key_len t' = key_len t
  ∧ hash_seed t' = hash_seed t ∧ load_factor t' = load_factor t.

(** [k] is the key of no entry. *)
Definition absent t k : Prop :=
  ∀ e, e ∈ entries t → ¬ same_key t k (e_key e).

(** A [resize] to the double capacity is defined: the [int] counter
    of [move_entries] can reach the capacity, and the threshold that
    is stored is a [size_t] value. *)
Definition growth_defined t : Prop :=
  capacity t ≤ INT_MAX
  ∧ is_Some (Float32.to_size_t size_bits
             (Float32.mul (load_factor t)
                (Float32.of_size_t (wrap (Z.shiftl (capacity t) 1))))).

(** One call of a function that changes the table. *)
Inductive step : HashTable K V → HashTable K V → Prop :=
| step_add t key val o ok t' o' :
    hashtable_add t key val o = Some (ok, t', o') → step t t'
| step_remove t key val t' :
    hashtable_remove t key = Some (val, t') → step t t'
| step_remove_all t t' :
    hashtable_remove_all t = Some t' → step t t'.

(** The tables that creation followed by such calls builds. *)
Definition reachable t : Prop :=
  ∃ conf o t0 o',
    hashtable_new_conf conf o = Some (Some t0, o') ∧ rtc step t0 t.




End Vocabulary.

(** ** Data of the example runs *)


(** An iterator structure that was in use: its [next_entry] points to an
    entry. *)
Definition used_iter `{Platform} : HashTableIter string Z :=
  {| table := default_table;
     bucket_index := 5;
     next_entry := [{| e_key := Some "a"%string; e_value := Some 1;
                       e_hash := 177573 |}];
     prev_entry := [] |}.

(** ** The rest of the iterator and the traversals *)

Section Traversals.
Context `{Platform} {K V : Type}.
Implicit Types (t : HashTable K V) (iter : HashTableIter K V).

(** The [for] loop of [hashtable_iter_next], from the index [start]: the
    first non-empty chain and its index, or nothing when the loop runs
    to [capacity].  The counter is an [int] that the loop condition
    converts to [size_t]: a start value above [INT_MAX] is not an [int]
    (the conversion is not defined by the language), and the counter
    reaches the index of the chain it finds, or [capacity]. *)
Definition iter_scan t (start : Z) : option (option (Z * list (TableEntry K V))) :=
  if INT_MAX <? start then None
  else if wrap start <? capacity t
  then
    if start <? 0 then None
    else
      bs ← buckets t;
      let n := Z.to_nat (capacity t) in
      match first_chain (drop (Z.to_nat start) (take n bs)) start with
      | Some (i, c) => if INT_MAX <? i then None else Some (Some (i, c))
      | None =>
          if INT_MAX <? capacity t then None
          else if (length bs <? n)%nat then None
          else Some None
      end
  else Some None.

(** [hashtable_iter_next]: the new content of the structure, and the
    pointer that is returned; the function ends without a [return]
    when the loop finds no further chain, which is the [None] of the
    first component. *)
Definition hashtable_iter_next iter
  : option (option (list (TableEntry K V)) * HashTableIter K V) :=
  match next_entry iter with
  | [] => None
  | e :: next =>
      let prev := e :: next in
      match next with
      | _ :: _ =>
          Some (Some prev,
                {| table := table iter; bucket_index := bucket_index iter;
                   next_entry := next; prev_entry := prev |})
      | [] =>
          r ← iter_scan (table iter) (bucket_index iter + 1);
          match r with
          | Some (i, c) =>
              Some (Some prev,
                    {| table := table iter; bucket_index := i;
                       next_entry := c; prev_entry := prev |})
          | None =>
              Some (None,
                    {| table := table iter; bucket_index := bucket_index iter;
                       next_entry := []; prev_entry := prev |})
          end
      end
  end.

(** [hashtable_iter_remove]: the table behind [iter->table] after the
    call. *)
Definition hashtable_iter_remove iter : option (HashTableIter K V) :=
  match prev_entry iter with
  | [] => None
  | e :: _ =>
      r ← hashtable_remove (table iter) (e_key e);
      Some {| table := r.2; bucket_index := bucket_index iter;
              next_entry := next_entry iter; prev_entry := prev_entry iter |}
  end.

(** [hashtable_foreach_key]; the effect of [op] is a change of a state
    [S], and the [int] counter of the loop ends at [capacity]. *)
Definition hashtable_foreach_key {S : Type} t (op : option K → S → S) (s : S)
  : option S :=
  bs ← buckets t;
  let n := Z.to_nat (capacity t) in
  if INT_MAX <? capacity t then None
  else if (length bs <? n)%nat then None
  else Some (foldl (λ s c, foldl (λ s e, op (e_key e) s) s c) s (take n bs)).

(** [hashtable_foreach_value]. *)
Definition hashtable_foreach_value {S : Type} t (op : option V → S → S) (s : S)
  : option S :=
  bs ← buckets t;
  let n := Z.to_nat (capacity t) in
  if INT_MAX <? capacity t then None
  else if (length bs <? n)%nat then None
  else Some (foldl (λ s c, foldl (λ s e, op (e_value e) s) s c) s (take n bs)).

(** An [op] that writes its argument down. *)
Definition note {A : Type} (x : A) (log : list A) : list A := log ++ [x].

(** Successive calls of [hashtable_iter_next] return pointers to the
    entries [es], in this order, and leave the structure [iter']. *)
Fixpoint iter_yields iter (es : list (TableEntry K V)) iter' : Prop :=
  match es with
  | [] => iter' = iter
  | e :: es' =>
      ∃ p iter1,
        hashtable_iter_next iter = Some (Some p, iter1)
        ∧ head p = Some e
        ∧ iter_yields iter1 es' iter'
  end.

(** A call that changes the table, with a key on which the comparator
    can be called. *)
Inductive safe_step : HashTable K V → HashTable K V → Prop :=
| safe_add t key val o ok t' o' :
    key_ok t key →
    hashtable_add t key val o = Some (ok, t', o') → safe_step t t'
| safe_remove t key val t' :
    key_ok t key →
    hashtable_remove t key = Some (val, t') → safe_step t t'
| safe_remove_all t t' :
    hashtable_remove_all t = Some t' → safe_step t t'.

(** The threshold is the product of the capacity and the load factor,
    as a [size_t]. *)
Definition threshold_inv t : Prop :=
  threshold_of (capacity t) (load_factor t) = Some (threshold t).

End Traversals.

(** ** Arithmetic of [size_t] *)

Section SizeTFacts.
Context `{Platform}.

Lemma size_bits_cases : size_bits = 32 ∨ size_bits = 64.
Proof. unfold size_bits. destruct ARCH_64; auto. Qed.

Lemma size_bits_pos : 0 < size_bits.
Proof. destruct size_bits_cases as [-> | ->]; lia. Qed.

Lemma int_max_lt_size : INT_MAX < 2 ^ size_bits.
Proof. destruct size_bits_cases as [-> | ->]; done. Qed.

Lemma wrap_small x : 0 ≤ x < 2 ^ size_bits → wrap x = x.
Proof. intros. unfold wrap. by apply Z.mod_small. Qed.

Lemma wrap_range x : 0 ≤ wrap x < 2 ^ size_bits.
Proof.
  unfold wrap. apply Z.mod_pos_bound, Z.pow_pos_nonneg; [lia|].
  pose proof size_bits_pos. lia.
Qed.

Lemma wrap_wrap_add x y : wrap (wrap x + y) = wrap (x + y).
Proof. unfold wrap. by rewrite Zplus_mod_idemp_l. Qed.

Lemma wrap_wrap_sub x y : wrap (wrap x - y) = wrap (x - y).
Proof. unfold wrap. by rewrite Zminus_mod_idemp_l. Qed.

Lemma pow2_lt_size m : 1 ≤ m < size_bits → 2 ≤ 2 ^ m < 2 ^ size_bits.
Proof.
  intros [? ?]. split.
  - change 2 with (2 ^ 1) at 1. apply Z.pow_le_mono_r; lia.
  - apply Z.pow_lt_mono_r; lia.
Qed.
End SizeTFacts.

(** ** Rounding the capacity hint *)

Section RoundPowTwo.
Context `{Platform}.

Lemma covers_init n0 : covers n0 1 n0.
Proof.
  intros i Hi. split.
  - intros Hb. exists 0. split; [lia|]. by rewrite Z.add_0_r.
  - intros (j & Hj & Hb). by replace (i + j) with i in Hb by lia.
Qed.

Lemma covers_smear n0 w n :
  0 < w → covers n0 w n → covers n0 (2 * w) (Z.lor n (Z.shiftr n w)).
Proof.
  intros Hw Hc i Hi. rewrite Z.lor_spec, Z.shiftr_spec, orb_true_iff by lia.
  rewrite (Hc i), (Hc (i + w)) by lia. split.
  - intros [(j & Hj & Hb) | (j & Hj & Hb)].
    + exists j. split; [lia | done].
    + exists (w + j). split; [lia|]. by replace (i + (w + j)) with (i + w + j) by lia.
  - intros (j & Hj & Hb). destruct (decide (j < w)).
    + left. exists j. split; [lia | done].
    + right. exists (j - w). split; [lia|].
      by replace (i + w + (j - w)) with (i + j) by lia.
Qed.

Lemma covers_ones n0 n :
  0 < n0 < 2 ^ 32 → covers n0 32 n → 0 ≤ n → n = Z.ones (Z.log2 n0 + 1).
Proof.
  intros [Hpos Hlt] Hc Hn.
  assert (Z.log2 n0 < 32) by (apply Z.log2_lt_pow2; lia).
  pose proof (Z.log2_nonneg n0).
  apply Z.bits_inj'. intros i Hi.
  destruct (decide (i ≤ Z.log2 n0)).
  - rewrite Z.ones_spec_low by lia. apply Hc; [done|].
    exists (Z.log2 n0 - i). split; [lia|].
    replace (i + (Z.log2 n0 - i)) with (Z.log2 n0) by lia.
    by apply Z.bit_log2.
  - rewrite Z.ones_spec_high by lia.
    apply not_true_is_false. intros (j & Hj & Hb)%Hc; [|done].
    rewrite Z.bits_above_log2 in Hb; [done | lia | lia].
Qed.

Lemma smear_ones n0 : 0 < n0 < 2 ^ 32 → smear n0 = Z.ones (Z.log2 n0 + 1).
Proof.
  intros Hn0. apply covers_ones; [done | |].
  - unfold smear. cbv zeta.
    apply (covers_smear n0 16); [lia|].
    apply (covers_smear n0 8); [lia|].
    apply (covers_smear n0 4); [lia|].
    apply (covers_smear n0 2); [lia|].
    apply (covers_smear n0 1); [lia|].
    apply covers_init.
  - unfold smear. cbv zeta.
    repeat (apply Z.lor_nonneg; split; [|apply Z.shiftr_nonneg]); lia.
Qed.

Lemma round_pow_two_unfold n :
  round_pow_two n =
  if MAX_POW_TWO <=? n then MAX_POW_TWO
  else if n =? 0 then 2 else wrap (smear (wrap (n - 1)) + 1).
Proof. reflexivity. Qed.

Lemma round_pow_two_zero : 0 < MAX_POW_TWO → round_pow_two 0 = 2.
Proof.
  intros. rewrite round_pow_two_unfold.
  destruct (Z.leb_spec MAX_POW_TWO 0); [lia | done].
Qed.

Lemma round_pow_two_one : 1 < MAX_POW_TWO → round_pow_two 1 = 1.
Proof.
  intros. rewrite round_pow_two_unfold.
  destruct (Z.leb_spec MAX_POW_TWO 1); [lia|]. simpl.
  unfold wrap. destruct size_bits_cases as [-> | ->]; reflexivity.
Qed.

Lemma round_pow_two_capped n : MAX_POW_TWO ≤ n → round_pow_two n = MAX_POW_TWO.
Proof.
  intros. rewrite round_pow_two_unfold.
  destruct (Z.leb_spec MAX_POW_TWO n); [done | lia].
Qed.

(** Between 2 and [MAX_POW_TWO] (and below [2^32 + 1], the reach of
    the five shifts) the result is the least power of two that is not
    below the hint. *)
Lemma round_pow_two_least n :
  platform_ok → 2 ≤ n → n < MAX_POW_TWO → n ≤ 2 ^ 32 →
  round_pow_two n = 2 ^ (Z.log2 (n - 1) + 1)
  ∧ n ≤ round_pow_two n < 2 * n
  ∧ round_pow_two n ≤ MAX_POW_TWO.
Proof.
  intros (m & Hm & HM) Hn Hmax H32.
  pose proof (pow2_lt_size m Hm) as Hsz. rewrite <- HM in Hsz.
  rewrite round_pow_two_unfold.
  destruct (Z.leb_spec MAX_POW_TWO n); [lia|].
  destruct (Z.eqb_spec n 0); [lia|].
  rewrite (wrap_small (n - 1)) by lia.
  rewrite smear_ones by lia.
  rewrite Z.ones_equiv.
  pose proof (Z.log2_nonneg (n - 1)).
  destruct (Z.log2_spec (n - 1)) as [Hlo Hhi]; [lia|].
  rewrite <- Z.add_1_r in Hhi.
  assert (Z.log2 (n - 1) < m).
  { apply Z.log2_lt_pow2; lia. }
  assert (2 ^ (Z.log2 (n - 1) + 1) ≤ MAX_POW_TWO).
  { rewrite HM. apply Z.pow_le_mono_r; lia. }
  assert (2 ^ (Z.log2 (n - 1) + 1) = 2 * 2 ^ Z.log2 (n - 1)) as Hdbl.
  { rewrite Z.pow_add_r by lia. lia. }
  replace (Z.pred (2 ^ (Z.log2 (n - 1) + 1)) + 1)
    with (2 ^ (Z.log2 (n - 1) + 1)) by lia.
  rewrite wrap_small by lia. lia.
Qed.

(** Whatever the hint within these bounds, the result is a power of
    two between 1 and [MAX_POW_TWO]. *)
Lemma round_pow_two_pow2 n :
  platform_ok → 0 ≤ n → n ≤ 2 ^ 32 ∨ MAX_POW_TWO ≤ n →
  ∃ e, 0 ≤ e ∧ round_pow_two n = 2 ^ e ∧ round_pow_two n ≤ MAX_POW_TWO.
Proof.
  intros Hok Hn Hb. pose proof Hok as (m & Hm & HM).
  pose proof (pow2_lt_size m Hm) as Hsz. rewrite <- HM in Hsz.
  destruct (decide (MAX_POW_TWO ≤ n)).
  { exists m. rewrite round_pow_two_capped by done. split; [lia|]. split; [done | lia]. }
  destruct Hb as [Hb|]; [|lia].
  destruct (decide (n = 0)) as [-> |].
  { exists 1. rewrite round_pow_two_zero by lia. split; [lia|]. split; [done | lia]. }
  destruct (decide (n = 1)) as [-> |].
  { exists 0. rewrite round_pow_two_one by lia. split; [lia|]. split; [done | lia]. }
  destruct (round_pow_two_least n) as (-> & _ & ?); [done | lia | lia | lia |].
  eexists. split; [|split; [reflexivity | done]].
  pose proof (Z.log2_nonneg (n - 1)). lia.
Qed.
End RoundPowTwo.

(** ** Lists of chains *)

Section ListFacts.
Context {A : Type}.
Implicit Types (bs : list (list A)) (c : list A).

Lemma insert_split bs i c c' :
  bs !! i = Some c →
  ∃ l1 l2, bs = l1 ++ c :: l2 ∧ <[i:=c']> bs = l1 ++ c' :: l2 ∧ length l1 = i.
Proof.
  intros Hi. exists (take i bs), (drop (S i) bs).
  pose proof (lookup_lt_Some _ _ _ Hi).
  split; [by rewrite take_drop_middle|].
  split; [by apply insert_take_drop|].
  rewrite length_take. lia.
Qed.

Lemma concat_insert_perm bs i c c' :
  bs !! i = Some c →
  ∃ rest, concat bs ≡ₚ c ++ rest ∧ concat (<[i:=c']> bs) ≡ₚ c' ++ rest.
Proof.
  intros (l1 & l2 & -> & -> & _)%(insert_split _ _ _ c').
  exists (concat l1 ++ concat l2).
  rewrite !concat_app, !concat_cons.
  split; apply Permutation_app_swap_app.
Qed.

Lemma elem_of_concat bs x : x ∈ concat bs ↔ ∃ c, c ∈ bs ∧ x ∈ c.
Proof.
  induction bs as [|c0 bs IH]; simpl.
  - split; [by intros ?%elem_of_nil | by intros (c & ?%elem_of_nil & _)].
  - rewrite elem_of_app, IH. split.
    + intros [Hx | (c & Hc & Hx)].
      * exists c0. split; [apply list_elem_of_here | done].
      * exists c. split; [by apply list_elem_of_further | done].
    + intros (c & Hc & Hx). apply elem_of_cons in Hc as [-> | Hc]; eauto.
Qed.

Lemma elem_of_concat_lookup bs x :
  x ∈ concat bs ↔ ∃ i c, bs !! i = Some c ∧ x ∈ c.
Proof.
  rewrite elem_of_concat. split.
  - intros (c & (i & Hi)%list_elem_of_lookup & Hx). eauto.
  - intros (i & c & Hi & Hx). exists c. split; [|done].
    apply list_elem_of_lookup. eauto.
Qed.

Lemma concat_replicate_nil n : concat (replicate n ([] : list A)) = [].
Proof. induction n; simpl; auto. Qed.

Lemma fold_ub_app {B} (f : B → A → option B) b l1 l2 :
  fold_ub f b (l1 ++ l2) = fold_ub f b l1 ≫= λ b', fold_ub f b' l2.
Proof.
  revert b. induction l1 as [|x l1 IH]; intros b; simpl; [done|].
  destruct (f b x); simpl; auto.
Qed.

Lemma fold_ub_concat {B} (f : B → A → option B) b bs :
  fold_ub (fold_ub f) b bs = fold_ub f b (concat bs).
Proof.
  revert b. induction bs as [|c bs IH]; intros b; simpl; [done|].
  rewrite fold_ub_app. destruct (fold_ub f b c); simpl; auto.
Qed.
End ListFacts.

(** ** The chain loops *)

Section ChainFacts.
Context `{Platform} {K V : Type}.
Implicit Types (c : list (TableEntry K V)) (same : option K → option bool).

Lemma chain_replace_length same val c c' :
  chain_replace same val c = Some (Some c') → length c' = length c.
Proof.
  revert c'. induction c as [|e c IH]; intros c' Hr; simpl in Hr; [done|].
  destruct (same (e_key e)) as [[]|]; simplify_eq/=; [done|].
  destruct (chain_replace same val c) as [[c1|]|]; simplify_eq/=.
  f_equal. by apply IH.
Qed.

Lemma chain_remove_length same c val c' :
  chain_remove same c = Some (Some (val, c')) → length c = S (length c').
Proof.
  revert c'. induction c as [|e c IH]; intros c' Hr; simpl in Hr; [done|].
  destruct (same (e_key e)) as [[]|]; simplify_eq/=; [done|].
  destruct (chain_remove same c) as [[[v1 c1]|]|]; simplify_eq/=.
  f_equal. by apply IH.
Qed.
End ChainFacts.

(** ** What each function does to the fields *)

Section Inversions.
Context `{Platform} {K V : Type}.
Implicit Types (t : HashTable K V) (e : TableEntry K V) (k : option K).

Lemma bucket_of_nonneg h cap : 0 ≤ bucket_of h cap.
Proof.
  unfold bucket_of. apply Z.land_nonneg. right. apply wrap_range.
Qed.

Lemma bucket_of_pow2 h n :
  0 ≤ n < size_bits → bucket_of h (2 ^ n) = h `mod` 2 ^ n.
Proof.
  intros Hn. unfold bucket_of.
  assert (0 < 2 ^ n < 2 ^ size_bits).
  { split; [apply Z.pow_pos_nonneg; lia | apply Z.pow_lt_mono_r; lia]. }
  rewrite wrap_small by lia.
  replace (2 ^ n - 1) with (Z.ones n) by (rewrite Z.ones_equiv; lia).
  apply Z.land_ones. lia.
Qed.

Lemma bucket_of_lt h n :
  0 ≤ n < size_bits → 0 ≤ bucket_of h (2 ^ n) < 2 ^ n.
Proof.
  intros Hn. rewrite bucket_of_pow2 by done.
  apply Z.mod_pos_bound, Z.pow_pos_nonneg; lia.
Qed.
End Inversions.

(** ** Growth *)

Section Growth.
Context `{Platform} {K V : Type}.
Implicit Types (t : HashTable K V) (e : TableEntry K V) (k : option K).
Implicit Types (bs dest src : list (list (TableEntry K V))).

Lemma move_entry_spec ds dest e r :
  move_entry ds dest e = Some r →
  length r = length dest
  ∧ concat r ≡ₚ e :: concat dest
  ∧ ∀ j c x, r !! j = Some c → x ∈ c →
      (x = e ∧ Z.of_nat j = bucket_of (e_hash e) ds)
      ∨ ∃ c0, dest !! j = Some c0 ∧ x ∈ c0.
Proof.
  unfold move_entry. intros Hm.
  destruct (dest !! Z.to_nat (bucket_of (e_hash e) ds)) as [c0|] eqn:Hc0;
    simplify_eq/=.
  pose proof (lookup_lt_Some _ _ _ Hc0) as Hlt.
  split; [by rewrite length_insert|]. split.
  - destruct (concat_insert_perm _ _ _ (e :: c0) Hc0) as (rest & Hd & ->).
    rewrite Hd. done.
  - intros j c x Hj Hx.
    destruct (decide (j = Z.to_nat (bucket_of (e_hash e) ds))) as [-> | Hne].
    + rewrite list_lookup_insert_eq in Hj by done. simplify_eq.
      apply elem_of_cons in Hx as [-> | Hx]; [left | right; eauto].
      split; [done|]. rewrite Z2Nat.id; [done | apply bucket_of_nonneg].
    + rewrite list_lookup_insert_ne in Hj by done. right. eauto.
Qed.

Lemma move_chain_spec ds es : ∀ dest r,
  fold_ub (move_entry ds) dest es = Some r →
  length r = length dest
  ∧ concat r ≡ₚ es ++ concat dest
  ∧ ∀ j c x, r !! j = Some c → x ∈ c →
      (x ∈ es ∧ Z.of_nat j = bucket_of (e_hash x) ds)
      ∨ ∃ c0, dest !! j = Some c0 ∧ x ∈ c0.
Proof.
  induction es as [|e es IH]; intros dest r Hf; simpl in Hf.
  - simplify_eq. split; [done|]. split; [done|]. intros j c x ? ?. right. eauto.
  - destruct (move_entry ds dest e) as [d1|] eqn:Hm; simplify_eq/=.
    apply move_entry_spec in Hm as (Hl1 & Hp1 & Hx1).
    apply IH in Hf as (Hl & Hp & Hx).
    split; [congruence|]. split.
    { rewrite Hp, Hp1. by rewrite Permutation_middle. }
    intros j c x Hj Hin.
    destruct (Hx j c x Hj Hin) as [[? ?] | (c1 & Hc1 & Hin1)].
    { left. split; [by apply list_elem_of_further | done]. }
    destruct (Hx1 j c1 x Hc1 Hin1) as [[-> ?] | ?]; [left | by right].
    split; [apply list_elem_of_here | done].
Qed.

Lemma move_entries_spec src dest ss ds r :
  length src = Z.to_nat ss →
  move_entries src dest ss ds = Some r →
  length r = length dest
  ∧ concat r ≡ₚ concat src ++ concat dest
  ∧ ∀ j c x, r !! j = Some c → x ∈ c →
      (x ∈ concat src ∧ Z.of_nat j = bucket_of (e_hash x) ds)
      ∨ ∃ c0, dest !! j = Some c0 ∧ x ∈ c0.
Proof.
  unfold move_entries. intros Hlen.
  destruct (INT_MAX <? ss); [done|].
  destruct (Nat.ltb_spec (length src) (Z.to_nat ss)); [lia|].
  rewrite take_ge by lia. rewrite fold_ub_concat. apply move_chain_spec.
Qed.

Lemma move_entries_int src dest ss ds r :
  move_entries src dest ss ds = Some r → ss ≤ INT_MAX.
Proof.
  unfold move_entries. by destruct (Z.ltb_spec INT_MAX ss).
Qed.

(** With a destination of [ds] slots, [ds] a power of two, no move
    leaves the array. *)
Lemma move_chain_defined n es : ∀ dest,
  0 ≤ n < size_bits → length dest = Z.to_nat (2 ^ n) →
  is_Some (fold_ub (move_entry (2 ^ n)) dest es).
Proof.
  induction es as [|e es IH]; intros dest Hn Hlen; simpl; [by eexists|].
  unfold move_entry at 2.
  pose proof (bucket_of_lt (e_hash e) n Hn).
  destruct (lookup_lt_is_Some_2 dest (Z.to_nat (bucket_of (e_hash e) (2 ^ n))))
    as [c Hc]; [lia|].
  rewrite Hc. simpl. apply IH; [done|]. by rewrite length_insert.
Qed.

Lemma resize_inv t n o ok t' o' :
  resize t n o = Some (ok, t', o') →
  (ok = false ∧ t' = t)
  ∨ (ok = true ∧ capacity t ≠ MAX_POW_TWO
     ∧ ∃ old new th,
         buckets t = Some old
         ∧ move_entries old (replicate (Z.to_nat n) []) (capacity t) n = Some new
         ∧ Float32.to_size_t size_bits
             (Float32.mul (load_factor t) (Float32.of_size_t n)) = Some th
         ∧ t' = {| capacity := n; size := size t; threshold := th;
                   hash_seed := hash_seed t; key_len := key_len t;
                   load_factor := load_factor t; buckets := Some new;
                   hash := hash t; key_cmp := key_cmp t |}).
Proof.
  unfold resize. intros Hr.
  destruct (Z.eqb_spec (capacity t) MAX_POW_TWO); [left; by simplify_eq|].
  destruct (alloc o) as [[] o1]; simpl in Hr; [|left; by simplify_eq].
  destruct (buckets t) as [old|]; simpl in Hr; [|done].
  destruct (move_entries _ _ _ _) as [new|] eqn:Hmv; simpl in Hr; [|done].
  destruct (Float32.to_size_t _ _) as [th|] eqn:Hth; simpl in Hr; [|done].
  simplify_eq. right. split; [done|]. split; [done|].
  exists old, new, th. done.
Qed.

Lemma grow_if_full_inv t o t1 o1 :
  grow_if_full t o = Some (t1, o1) →
  t1 = t
  ∨ (threshold t ≤ size t ∧ capacity t ≠ MAX_POW_TWO
     ∧ ∃ old new th,
         buckets t = Some old
         ∧ move_entries old
             (replicate (Z.to_nat (wrap (Z.shiftl (capacity t) 1))) [])
             (capacity t) (wrap (Z.shiftl (capacity t) 1)) = Some new
         ∧ Float32.to_size_t size_bits
             (Float32.mul (load_factor t)
                (Float32.of_size_t (wrap (Z.shiftl (capacity t) 1)))) = Some th
         ∧ t1 = {| capacity := wrap (Z.shiftl (capacity t) 1);
                   size := size t; threshold := th;
                   hash_seed := hash_seed t; key_len := key_len t;
                   load_factor := load_factor t; buckets := Some new;
                   hash := hash t; key_cmp := key_cmp t |}).
Proof.
  unfold grow_if_full. intros Hg.
  destruct (Z.leb_spec (threshold t) (size t)); [|left; by simplify_eq].
  destruct (resize t _ o) as [[[ok t'] o']|] eqn:Hr; simplify_eq/=.
  apply resize_inv in Hr as [[_ ->] | (_ & ? & Hex)]; [by left | right].
  done.
Qed.

(** Growth keeps the strategies, the size field and the entries. *)
Lemma grow_if_full_keeps t o t1 o1 :
  grow_if_full t o = Some (t1, o1) →
  hash t1 = hash t ∧ key_cmp t1 = key_cmp t ∧ key_len t1 = key_len t
  ∧ hash_seed t1 = hash_seed t ∧ load_factor t1 = load_factor t
  ∧ size t1 = size t.
Proof.
  intros [-> | (_ & _ & old & new & th & _ & _ & _ & ->)]%grow_if_full_inv;
    done.
Qed.

Lemma add_at_inv t i same key val h o ok t' o' :
  add_at t i same key val h o = Some (ok, t', o') →
  ∃ bs c, buckets t = Some bs ∧ bs !! Z.to_nat i = Some c
    ∧ ((∃ c', chain_replace same val c = Some (Some c')
              ∧ ok = true ∧ o' = o
              ∧ t' = set_buckets t (<[Z.to_nat i := c']> bs))
       ∨ (chain_replace same val c = Some None
          ∧ ((ok = false ∧ t' = t ∧ alloc o = (false, o'))
             ∨ (ok = true ∧ alloc o = (true, o')
                ∧ t' = set_size
                         (set_buckets t
                            (<[Z.to_nat i :=
                                 {| e_key := key; e_value := val; e_hash := h |}
                                 :: c]> bs))
                         (wrap (size t + 1)))))).
Proof.
  unfold add_at. intros Ha.
  destruct (buckets t) as [bs|]; simpl in Ha; [|done].
  destruct (bs !! Z.to_nat i) as [c|] eqn:Hc; simpl in Ha; [|done].
  exists bs, c. split; [done|]. split; [done|].
  destruct (chain_replace same val c) as [[c'|]|]; simpl in Ha; [| |done].
  - simplify_eq. left. by exists c'.
  - right. split; [done|].
    destruct (alloc o) as [[] o1]; simpl in Ha; simplify_eq; [right | left]; done.
Qed.

Lemma remove_at_inv t i same val t' :
  remove_at t i same = Some (val, t') →
  ∃ bs c, buckets t = Some bs ∧ bs !! Z.to_nat i = Some c
    ∧ ((chain_remove same c = Some None ∧ val = None ∧ t' = t)
       ∨ (∃ c', chain_remove same c = Some (Some (val, c'))
                ∧ t' = set_size (set_buckets t (<[Z.to_nat i := c']> bs))
                                (wrap (size t - 1)))).
Proof.
  unfold remove_at. intros Hr.
  destruct (buckets t) as [bs|]; simpl in Hr; [|done].
  destruct (bs !! Z.to_nat i) as [c|] eqn:Hc; simpl in Hr; [|done].
  exists bs, c. split; [done|]. split; [done|].
  destruct (chain_remove same c) as [[[v c']|]|]; simpl in Hr; simplify_eq.
  - right. by exists c'.
  - by left.
Qed.

Lemma hashtable_add_inv t key val o ok t' o' :
  hashtable_add t key val o = Some (ok, t', o') →
  ∃ t1 o1 i same h,
    grow_if_full t o = Some (t1, o1)
    ∧ add_at t1 i same key val h o1 = Some (ok, t', o')
    ∧ ((key = None ∧ i = 0 ∧ h = 0 ∧ same = (λ k, Some (is_null k)))
       ∨ (key ≠ None ∧ hash t1 key (key_len t1) (hash_seed t1) = Some h
          ∧ i = bucket_of h (capacity t1)
          ∧ same = (λ k, key_cmp t1 k key))).
Proof.
  unfold hashtable_add. intros Ha.
  destruct (grow_if_full t o) as [[t1 o1]|] eqn:Hg; simpl in Ha; [|done].
  exists t1, o1. destruct key as [a|]; simpl in Ha.
  - destruct (hash t1 (Some a) _ _) as [h|] eqn:Hh; simpl in Ha; [|done].
    exists (bucket_of h (capacity t1)), (λ k, key_cmp t1 k (Some a)), h.
    split; [done|]. split; [done|]. right. done.
  - exists 0, (λ k, Some (is_null k)), 0.
    split; [done|]. split; [done|]. left. done.
Qed.

Lemma hashtable_remove_inv t key val t' :
  hashtable_remove t key = Some (val, t') →
  ∃ i same,
    remove_at t i same = Some (val, t')
    ∧ ((key = None ∧ i = 0 ∧ same = (λ k, Some (is_null k)))
       ∨ (key ≠ None ∧ get_table_index t key = Some i
          ∧ same = (λ k, key_cmp t key k))).
Proof.
  unfold hashtable_remove. intros Hr. destruct key as [a|]; simpl in Hr.
  - destruct (get_table_index t (Some a)) as [i|] eqn:Hi; simpl in Hr; [|done].
    exists i, (λ k, key_cmp t (Some a) k). split; [done|]. right. done.
  - exists 0, (λ k, Some (is_null k)). split; [done|]. left. done.
Qed.
End Growth.

(** ** The size field *)

Section SizeInvariant.
Context `{Platform} {K V : Type}.
Implicit Types (t : HashTable K V) (e : TableEntry K V) (k : option K).
Implicit Types (bs : list (list (TableEntry K V))).

Lemma wrap_0 : wrap 0 = 0.
Proof. apply wrap_small. pose proof (wrap_range 0). lia. Qed.

Lemma wrap_idemp x : wrap (wrap x) = wrap x.
Proof. apply wrap_small, wrap_range. Qed.

Lemma count_insert t bs i c c' :
  buckets t = Some bs → bs !! i = Some c →
  Z.of_nat (length (concat (<[i:=c']> bs)))
  = count t - Z.of_nat (length c) + Z.of_nat (length c').
Proof.
  intros Hbs Hc. unfold count, entries. rewrite Hbs.
  destruct (concat_insert_perm bs i c c' Hc) as (rest & -> & ->).
  rewrite !length_app. lia.
Qed.

Lemma size_inv_new (conf : HashTableConf K) o t o' :
  hashtable_new_conf conf o = Some (Some t, o') → size_inv t.
Proof.
  unfold hashtable_new_conf. intros Hn.
  destruct (alloc o) as [[] o1]; simpl in Hn; [|done].
  destruct (alloc o1) as [got o2].
  destruct (threshold_of _ _) as [th|]; simplify_eq/=.
  split.
  - unfold count, entries. simpl.
    destruct got; simpl; rewrite ?concat_replicate_nil; symmetry; apply wrap_0.
  - intros bs. simpl. destruct got; intros; simplify_eq.
    by rewrite length_replicate.
Qed.

Lemma size_inv_grow t o t1 o1 :
  size_inv t → grow_if_full t o = Some (t1, o1) →
  size_inv t1 ∧ entries t1 ≡ₚ entries t.
Proof.
  intros [Hsz Hlen] [-> | (_ & _ & old & new & th & Hold & Hmv & _ & ->)]%grow_if_full_inv;
    [done|].
  apply move_entries_spec in Hmv as (Hl & Hp & _); [|by apply Hlen].
  rewrite concat_replicate_nil, app_nil_r in Hp.
  assert (entries
            {| capacity := wrap (Z.shiftl (capacity t) 1); size := size t;
               threshold := th; hash_seed := hash_seed t; key_len := key_len t;
               load_factor := load_factor t; buckets := Some new;
               hash := hash t; key_cmp := key_cmp t |} ≡ₚ entries t) as Hent.
  { unfold entries at 2. rewrite Hold. done. }
  split; [|done]. split; simpl.
  - rewrite Hsz. unfold count. by rewrite Hent.
  - intros bs ?. simplify_eq. by rewrite Hl, length_replicate.
Qed.

Lemma size_inv_add_at t i same key val h o ok t' o' :
  size_inv t → add_at t i same key val h o = Some (ok, t', o') → size_inv t'.
Proof.
  intros [Hsz Hlen] (bs & c & Hbs & Hc & Hcase)%add_at_inv.
  destruct Hcase as [(c' & Hrep & _ & _ & ->)
                    | (_ & [(_ & -> & _) | (_ & _ & ->)])]; [| done |].
  - split; simpl.
    + rewrite Hsz. f_equal. unfold count at 2, entries. simpl.
      rewrite (count_insert t bs _ c c') by done.
      apply chain_replace_length in Hrep. lia.
    + intros bs' ?. simplify_eq. rewrite length_insert. by apply Hlen.
  - split; simpl.
    + rewrite Hsz, wrap_wrap_add. f_equal. unfold count at 2, entries. simpl.
      rewrite (count_insert t bs _ c) by done. simpl. lia.
    + intros bs' ?. simplify_eq. rewrite length_insert. by apply Hlen.
Qed.

Lemma size_inv_add t key val o ok t' o' :
  size_inv t → hashtable_add t key val o = Some (ok, t', o') → size_inv t'.
Proof.
  intros Hinv (t1 & o1 & i & same & h & Hg & Ha & _)%hashtable_add_inv.
  eapply size_inv_add_at; [|done]. by eapply size_inv_grow.
Qed.

Lemma size_inv_remove t key val t' :
  size_inv t → hashtable_remove t key = Some (val, t') → size_inv t'.
Proof.
  intros [Hsz Hlen] (i & same & Hr & _)%hashtable_remove_inv.
  apply remove_at_inv in Hr as (bs & c & Hbs & Hc & Hcase).
  destruct Hcase as [(_ & _ & ->) | (c' & Hrm & ->)]; [done|].
  split; simpl.
  - rewrite Hsz, wrap_wrap_sub. f_equal. unfold count at 2, entries. simpl.
    rewrite (count_insert t bs _ c c') by done.
    apply chain_remove_length in Hrm. lia.
  - intros bs' ?. simplify_eq. rewrite length_insert. by apply Hlen.
Qed.

(** The inner loop of [hashtable_remove_all] counts one chain down. *)
Lemma count_down_chain (c : list (TableEntry K V)) sz :
  wrap sz = sz →
  foldl (λ sz _, wrap (sz - 1)) sz c = wrap (sz - Z.of_nat (length c)).
Proof.
  revert sz. induction c as [|e c IH]; intros sz Hsz; simpl.
  - by rewrite Z.sub_0_r.
  - rewrite IH by apply wrap_idemp. rewrite wrap_wrap_sub. f_equal. lia.
Qed.

Lemma count_down_all bs sz :
  wrap sz = sz →
  foldl (λ sz c, foldl (λ sz _, wrap (sz - 1)) sz c) sz bs
  = wrap (sz - Z.of_nat (length (concat bs))).
Proof.
  revert sz. induction bs as [|c bs IH]; intros sz Hsz; simpl.
  - by rewrite Z.sub_0_r.
  - rewrite count_down_chain by done. rewrite IH by apply wrap_idemp.
    rewrite wrap_wrap_sub, length_app. f_equal. lia.
Qed.

Lemma hashtable_remove_all_inv t t' :
  hashtable_remove_all t = Some t' →
  (∀ bs, buckets t = Some bs → length bs = Z.to_nat (capacity t)) →
  ∃ bs, buckets t = Some bs
    ∧ t' = set_size (set_buckets t (replicate (length bs) []))
             (foldl (λ sz c, foldl (λ sz _, wrap (sz - 1)) sz c) (size t) bs).
Proof.
  unfold hashtable_remove_all. intros Hr Hlen.
  destruct (buckets t) as [bs|] eqn:Hbs; simpl in Hr; [|done].
  specialize (Hlen bs eq_refl).
  destruct (INT_MAX <? capacity t); [done|].
  destruct (Nat.ltb_spec (length bs) (Z.to_nat (capacity t))); [done|].
  exists bs. split; [done|]. simplify_eq.
  rewrite take_ge, drop_ge, app_nil_r by lia.
  do 2 f_equal. clear. induction bs; simpl; f_equal; auto.
Qed.

Lemma hashtable_remove_all_int t t' :
  hashtable_remove_all t = Some t' → capacity t ≤ INT_MAX.
Proof.
  unfold hashtable_remove_all. intros Hr.
  destruct (buckets t) as [bs|]; simpl in Hr; [|done].
  by destruct (Z.ltb_spec INT_MAX (capacity t)).
Qed.

Lemma size_inv_remove_all t t' :
  size_inv t → hashtable_remove_all t = Some t' → size_inv t'.
Proof.
  intros [Hsz Hlen] (bs & Hbs & ->)%hashtable_remove_all_inv; [|done].
  split; simpl.
  - rewrite count_down_all by (rewrite Hsz; apply wrap_idemp).
    rewrite Hsz, wrap_wrap_sub. unfold count, entries. rewrite Hbs. simpl.
    rewrite concat_replicate_nil. f_equal. simpl. lia.
  - intros bs' ?. simplify_eq. rewrite length_replicate. by apply Hlen.
Qed.

Lemma size_inv_step t t' : size_inv t → step t t' → size_inv t'.
Proof.
  intros Hinv Hst. destruct Hst as [? ? ? ? ? ? ? Ha | ? ? ? ? Hr | ? ? Hr].
  - exact (size_inv_add _ _ _ _ _ _ _ Hinv Ha).
  - exact (size_inv_remove _ _ _ _ Hinv Hr).
  - exact (size_inv_remove_all _ _ Hinv Hr).
Qed.

Lemma size_inv_reachable t : reachable t → size_inv t.
Proof.
  intros (conf & o & t0 & o' & Hnew & Hsteps).
  apply size_inv_new in Hnew.
  induction Hsteps as [|? ? ? Hst _ IH]; [done|].
  apply IH. by eapply size_inv_step.
Qed.

(** C10: in every table built by creation followed by insertions,
    removals and remove-all calls (growth included), the size field is
    the number of entries held by the chains.  The field is a
    [size_t]: it is the count reduced to that width, hence the count
    itself whenever the count fits, which is the case of every table
    that fits in memory. *)
Theorem size_is_entry_count t :
  reachable t → count t < 2 ^ size_bits → hashtable_size t = count t.
Proof.
  intros [Hsz _]%size_inv_reachable Hfit. unfold hashtable_size.
  rewrite Hsz. apply wrap_small. unfold count in *. lia.
Qed.
End SizeInvariant.

(** ** The capacity *)

Section Capacity.
Context `{Platform} {K V : Type}.
Implicit Types (t : HashTable K V) (e : TableEntry K V) (k : option K).

Lemma shiftl_1_pow2 n : 0 ≤ n → Z.shiftl (2 ^ n) 1 = 2 ^ (n + 1).
Proof. intros. rewrite Z.shiftl_mul_pow2, Z.pow_add_r by lia. done. Qed.

(** Doubling a capacity other than [MAX_POW_TWO] stays within it. *)
Lemma double_capacity t :
  platform_ok → cap_inv t → capacity t ≠ MAX_POW_TWO →
  ∃ n, 0 ≤ n ∧ n + 1 < size_bits ∧ capacity t = 2 ^ n
       ∧ wrap (Z.shiftl (capacity t) 1) = 2 ^ (n + 1)
       ∧ 2 ^ (n + 1) ≤ MAX_POW_TWO.
Proof.
  intros (m & Hm & HM) (n & Hn & Hcap & Hle) Hne.
  rewrite Hcap, HM in *.
  assert (n ≤ m) by (apply (Z.pow_le_mono_r_iff 2); lia).
  assert (n ≠ m) by congruence.
  exists n. split; [done|]. split; [lia|]. split; [done|].
  rewrite shiftl_1_pow2 by done.
  assert (2 ^ (n + 1) ≤ 2 ^ m) by (apply Z.pow_le_mono_r; lia).
  assert (2 ^ m < 2 ^ size_bits) by (apply Z.pow_lt_mono_r; lia).
  assert (0 < 2 ^ (n + 1)) by (apply Z.pow_pos_nonneg; lia).
  split; [|done]. apply wrap_small. lia.
Qed.

Lemma cap_inv_grow t o t1 o1 :
  platform_ok → cap_inv t → grow_if_full t o = Some (t1, o1) → cap_inv t1.
Proof.
  intros Hok Hinv [-> | (_ & Hne & old & new & th & _ & _ & _ & ->)]%grow_if_full_inv;
    [done|].
  destruct (double_capacity t Hok Hinv Hne) as (n & Hn & _ & _ & Hdbl & Hle).
  exists (n + 1). simpl. rewrite Hdbl. split; [lia | done].
Qed.

Lemma add_at_capacity t i same key val h o ok t' o' :
  add_at t i same key val h o = Some (ok, t', o') → capacity t' = capacity t.
Proof.
  intros (bs & c & _ & _ & Hcase)%add_at_inv.
  destruct Hcase as [(c' & _ & _ & _ & ->)
                    | (_ & [(_ & -> & _) | (_ & _ & ->)])]; done.
Qed.

Lemma cap_inv_step t t' : platform_ok → cap_inv t → step t t' → cap_inv t'.
Proof.
  intros Hok Hinv Hst.
  destruct Hst as [? ? ? ? ? ? ? Ha | ? ? ? ? Hr | ? ? Hr].
  - apply hashtable_add_inv in Ha as (t1 & o1 & i & same & h & Hg & Ha & _).
    apply (cap_inv_grow _ _ _ _ Hok Hinv) in Hg.
    apply add_at_capacity in Ha. unfold cap_inv. by rewrite Ha.
  - apply hashtable_remove_inv in Hr as (i & same & Hr & _).
    apply remove_at_inv in Hr as (bs & c & _ & _ & Hcase).
    destruct Hcase as [(_ & _ & ->) | (c' & _ & ->)]; done.
  - unfold hashtable_remove_all in Hr.
    destruct (buckets t); simpl in Hr; [|done].
    destruct (INT_MAX <? _); [done|].
    destruct (_ <? _)%nat; simplify_eq. done.
Qed.

Lemma cap_inv_steps t t' : platform_ok → cap_inv t → rtc step t t' → cap_inv t'.
Proof.
  intros Hok Hinv Hsteps. induction Hsteps as [|? ? ? Hst _ IH]; [done|].
  apply IH. by eapply cap_inv_step.
Qed.

Lemma hashtable_new_conf_capacity (conf : HashTableConf K) o t o' :
  hashtable_new_conf conf o = Some (Some t, o') →
  capacity t = round_pow_two (conf_initial_capacity conf).
Proof.
  unfold hashtable_new_conf. intros Hn.
  destruct (alloc o) as [[] o1]; simpl in Hn; [|done].
  destruct (alloc o1) as [got o2].
  destruct (threshold_of _ _) as [th|]; simplify_eq/=. done.
Qed.

Lemma get_table_index_mask t key h :
  cap_inv t → platform_ok →
  hash t key (key_len t) (hash_seed t) = Some h →
  get_table_index t key = Some (Z.land h (capacity t - 1)).
Proof.
  intros (n & Hn & Hcap & Hle) (m & Hm & HM) Hh.
  unfold get_table_index. rewrite Hh. simpl. unfold bucket_of.
  assert (0 < capacity t) by (rewrite Hcap; apply Z.pow_pos_nonneg; lia).
  pose proof (pow2_lt_size m Hm).
  rewrite wrap_small by lia. done.
Qed.

(** C5, amended: when [MAX_POW_TWO] is a power of two and the hint is
    within the reach of the rounding (at most [2^32], or at least
    [MAX_POW_TWO]), the capacity of the table is a power of two from
    creation on and through every later call; it is at least 1, not
    at least 2: creation rounds the hint up to the next power of two
    and caps it at [MAX_POW_TWO], a hint of 0 gives 2 and a hint of 1
    gives 1; the bucket index of a hash [h] is [h & (capacity - 1)]. *)
Theorem capacity_power_of_two (conf : HashTableConf K) o t o' t' :
  platform_ok →
  0 ≤ conf_initial_capacity conf →
  conf_initial_capacity conf ≤ 2 ^ 32 ∨ MAX_POW_TWO ≤ conf_initial_capacity conf →
  hashtable_new_conf conf o = Some (Some t, o') →
  rtc step t t' →
  (∃ n, 0 ≤ n ∧ hashtable_capacity t' = 2 ^ n)
  ∧ 1 ≤ hashtable_capacity t'
  ∧ (conf_initial_capacity conf = 0 → hashtable_capacity t = 2)
  ∧ (conf_initial_capacity conf = 1 → hashtable_capacity t = 1)
  ∧ (2 ≤ conf_initial_capacity conf < MAX_POW_TWO →
     conf_initial_capacity conf ≤ hashtable_capacity t
                                < 2 * conf_initial_capacity conf)
  ∧ (MAX_POW_TWO ≤ conf_initial_capacity conf →
     hashtable_capacity t = MAX_POW_TWO)
  ∧ (∀ key h,
       hash t' key (key_len t') (hash_seed t') = Some h →
       get_table_index t' key = Some (Z.land h (hashtable_capacity t' - 1))).
Proof.
  intros Hok Hhint Hreach Hnew Hsteps. unfold hashtable_capacity.
  pose proof (hashtable_new_conf_capacity _ _ _ _ Hnew) as Hcap.
  pose proof Hok as (m & Hm & HM). pose proof (pow2_lt_size m Hm).
  assert (cap_inv t) as Hinv.
  { destruct (round_pow_two_pow2 _ Hok Hhint Hreach) as (e & He & Hr & Hle).
    exists e. rewrite Hcap. done. }
  pose proof (cap_inv_steps _ _ Hok Hinv Hsteps) as Hinv'.
  split; [|split; [|split; [|split; [|split; [|split]]]]].
  - destruct Hinv' as (n & ? & ? & _). eauto.
  - destruct Hinv' as (n & ? & -> & _).
    assert (0 < 2 ^ n) by (apply Z.pow_pos_nonneg; lia). lia.
  - intros Hz. rewrite Hcap, Hz. apply round_pow_two_zero. lia.
  - intros Hz. rewrite Hcap, Hz. apply round_pow_two_one. lia.
  - intros [? ?]. rewrite Hcap.
    destruct Hreach as [?|?]; [|lia].
    by destruct (round_pow_two_least (conf_initial_capacity conf))
      as (_ & ? & _).
  - intros ?. rewrite Hcap. by apply round_pow_two_capped.
  - intros key h Hh. by apply get_table_index_mask.
Qed.

(** C7: [hashtable_new_conf] tests the first allocation only.  When
    the table structure is obtained and the bucket array is not, the
    table is returned with a [NULL] bucket array. *)
Theorem new_conf_returns_null_buckets (conf : HashTableConf K) th :
  threshold_of (round_pow_two (conf_initial_capacity conf))
               (conf_load_factor conf) = Some th →
  ∃ t : HashTable K V,
    hashtable_new_conf conf [true; false] = Some (Some t, [])
    ∧ buckets t = None.
Proof.
  intros Hth. unfold hashtable_new_conf. simpl. rewrite Hth. simpl.
  eexists. split; [reflexivity | done].
Qed.

Lemma first_chain_empty (bs : list (list (TableEntry K V))) i :
  concat bs = [] → first_chain bs i = None.
Proof.
  revert i. induction bs as [|c bs IH]; intros i Hc; simpl in *; [done|].
  apply app_eq_nil in Hc as [-> Hc]. by apply IH.
Qed.

(** C6: on a table without entries, of at most [INT_MAX] buckets so
    that the [int] counter of the loop can reach its end,
    [hashtable_iter_init] writes the [table] field and nothing else, so
    the answer of [hashtable_iter_has_next] is the one the structure
    gave before the call: [true] when [next_entry] held a pointer. *)
Theorem iter_init_empty_keeps_next_entry (iter : HashTableIter K V) t bs :
  buckets t = Some bs →
  length bs = Z.to_nat (capacity t) →
  hashtable_capacity t ≤ INT_MAX →
  hashtable_size t = 0 →
  entries t = [] →
  ∃ iter',
    hashtable_iter_init iter t = Some iter'
    ∧ next_entry iter' = next_entry iter
    ∧ hashtable_iter_has_next iter' = hashtable_iter_has_next iter.
Proof.
  intros Hbs Hlen Hint _ Hent. unfold entries in Hent. rewrite Hbs in Hent.
  unfold hashtable_iter_init, hashtable_capacity in *. rewrite Hbs. simpl.
  rewrite take_ge by lia. rewrite first_chain_empty by done.
  destruct (Z.ltb_spec INT_MAX (capacity t)); [lia|].
  destruct (Nat.ltb_spec (length bs) (Z.to_nat (capacity t))); [lia|].
  eexists. split; [reflexivity|]. done.
Qed.
End Capacity.

(** ** The string hash *)

Section StringHash.
Context `{Platform}.

Lemma times_33 h : wrap (wrap (Z.shiftl h 5) + h) = wrap (h * 33).
Proof.
  rewrite wrap_wrap_add, Z.shiftl_mul_pow2 by lia. f_equal.
  change (2 ^ 5) with 32. lia.
Qed.

Lemma char_to_size_t_zero : char_to_size_t zero = 0.
Proof. unfold char_to_size_t. simpl. by rewrite andb_false_r. Qed.

Lemma hash_string_loop_shifted s : ∀ h,
  hash_string_loop s (djb2_step h (peek s))
  = wrap (foldl djb2_step h (list_ascii_of_string (c_str s)) * 33).
Proof.
  induction s as [|c s IH]; intros h; simpl.
  - unfold djb2_step. by rewrite char_to_size_t_zero, Z.lxor_0_r.
  - destruct (Ascii.eqb_spec c zero) as [-> | Hc]; simpl.
    + unfold djb2_step. by rewrite char_to_size_t_zero, Z.lxor_0_r.
    + rewrite times_33. apply (IH (djb2_step h c)).
Qed.

(** The seed and the length are not read. *)
Lemma hashtable_hash_string_seed key len seed len' seed' :
  hashtable_hash_string key len seed = hashtable_hash_string key len' seed'.
Proof. reflexivity. Qed.

(** C4: the loop tests a byte, steps over it and mixes in the byte
    after it.  The first byte of the key is never mixed in and the
    terminator is: the hash of a key that starts with a byte [c] is 33
    times the fold of [hash*33 XOR byte] over the bytes after [c],
    whatever [c] is. *)
Theorem hashtable_hash_string_skips_first_byte c s len seed :
  c ≠ zero →
  hashtable_hash_string (Some (String c s)) len seed
  = Some (wrap (djb2_xor_fold s * 33)).
Proof.
  intros Hc. unfold hashtable_hash_string. simpl.
  destruct (Ascii.eqb_spec c zero); [done|].
  rewrite times_33. f_equal. apply (hash_string_loop_shifted s 5381).
Qed.
End StringHash.

(** ** Keys *)

Section KeyFacts.
Context `{Platform} {K V : Type}.
Implicit Types (t : HashTable K V) (e : TableEntry K V) (k : option K).
Implicit Types (c : list (TableEntry K V)).
Implicit Types (same : option K → option bool) (P : TableEntry K V → Prop).

Section SameKey.
Variables (hash : option K → Z → Z → option Z)
          (cmp : option K → option K → option bool) (len seed : Z).
Hypothesis Hok : strategies_ok hash cmp len seed.

Lemma same_by_refl k : same_by cmp k k.
Proof. destruct k; simpl; [apply (cmp_refl _ _ _ _ Hok) | done]. Qed.

Lemma same_by_sym k1 k2 : same_by cmp k1 k2 → same_by cmp k2 k1.
Proof. destruct k1, k2; simpl; auto. apply (cmp_sym _ _ _ _ Hok). Qed.

Lemma same_by_trans k1 k2 k3 :
  same_by cmp k1 k2 → same_by cmp k2 k3 → same_by cmp k1 k3.
Proof.
  destruct k1, k2, k3; simpl; try done. apply (cmp_trans _ _ _ _ Hok).
Qed.

Lemma distinct_keys_perm ks ks' :
  ks ≡ₚ ks' → distinct_keys cmp ks → distinct_keys cmp ks'.
Proof.
  induction 1 as [|x l l' Hp IH|x y l|l1 l2 l3 _ IH1 _ IH2]; intros Hd.
  - done.
  - inversion Hd as [|? ? Hx Hl]; subst. constructor; [|by apply IH].
    intros k' Hk'. apply Hx. by rewrite Hp.
  - inversion Hd as [|? ? Hy Hxl]; subst.
    inversion Hxl as [|? ? Hx Hl]; subst.
    constructor; [|constructor; [|done]].
    + intros k' [-> | Hk']%elem_of_cons; [|by apply Hx].
      intros Hs%same_by_sym. apply (Hy x); [apply list_elem_of_here | done].
    + intros k' Hk'. apply Hy. by apply list_elem_of_further.
  - auto.
Qed.

Lemma distinct_keys_unique (es : list (TableEntry K V)) e1 e2 :
  distinct_keys cmp (e_key <$> es) →
  e1 ∈ es → e2 ∈ es → same_by cmp (e_key e1) (e_key e2) → e1 = e2.
Proof.
  induction es as [|e es IH]; intros Hd H1 H2 Hs; [by apply elem_of_nil in H1|].
  rewrite fmap_cons in Hd. inversion Hd as [|? ? Hx Hl]; subst.
  apply elem_of_cons in H1 as [-> | H1]; apply elem_of_cons in H2 as [-> | H2].
  - done.
  - destruct (Hx (e_key e2)); [by apply list_elem_of_fmap_2 | done].
  - destruct (Hx (e_key e1)); [by apply list_elem_of_fmap_2 |].
    by apply same_by_sym.
  - by apply IH.
Qed.
End SameKey.

(** *** The chain loops, when their test is defined *)

Lemma tests_cons same P e c :
  tests same P (e :: c) →
  (∃ b : bool, same (e_key e) = Some b ∧ (b = true ↔ P e)) ∧ tests same P c.
Proof.
  intros Ht. split; [apply Ht, list_elem_of_here|].
  intros x Hx. by apply Ht, list_elem_of_further.
Qed.

(** The three loops that stop at the first entry passing the test
    share one argument: the head passes, or the tail is searched. *)
Local Ltac first_match P c :=
  let e := fresh "e" in
  let IH := fresh "IH" in
  let Ht := fresh "Ht" in
  let Hb := fresh "Hb" in
  let Hno := fresh "Hno" in
  induction c as [|e c IH]; intros Ht; simpl;
  [ left; split; [done | by intros ? ?%elem_of_nil]
  | apply tests_cons in Ht as [([] & -> & Hb) Ht]; simpl;
    [ right; exists [], e, c; split; [done|]; split; [by apply Hb|];
      split; [by intros ? ?%elem_of_nil | done]
    | assert (¬ P e) by (by intros ?%Hb);
      destruct (IH Ht) as [[-> Hno] | (c1 & x & c2 & -> & ? & Hno & ->)];
      simpl;
      [ left; split; [done|];
        by intros ? [-> | ?]%elem_of_cons; [|apply Hno]
      | right; exists (e :: c1), x, c2; split; [done|]; split; [done|];
        split; [|done];
        by intros ? [-> | ?]%elem_of_cons; [|apply Hno] ] ] ].

Lemma chain_replace_spec same P val c :
  tests same P c →
  (chain_replace same val c = Some None ∧ ∀ e, e ∈ c → ¬ P e)
  ∨ ∃ c1 e c2,
      c = c1 ++ e :: c2 ∧ P e ∧ (∀ x, x ∈ c1 → ¬ P x)
      ∧ chain_replace same val c = Some (Some (c1 ++ set_value e val :: c2)).
Proof. first_match P c. Qed.

Lemma chain_get_spec same P c :
  tests same P c →
  (chain_get same c = Some None ∧ ∀ e, e ∈ c → ¬ P e)
  ∨ ∃ c1 e c2,
      c = c1 ++ e :: c2 ∧ P e ∧ (∀ x, x ∈ c1 → ¬ P x)
      ∧ chain_get same c = Some (e_value e).
Proof. first_match P c. Qed.

Lemma chain_remove_spec same P c :
  tests same P c →
  (chain_remove same c = Some None ∧ ∀ e, e ∈ c → ¬ P e)
  ∨ ∃ c1 e c2,
      c = c1 ++ e :: c2 ∧ P e ∧ (∀ x, x ∈ c1 → ¬ P x)
      ∧ chain_remove same c = Some (Some (e_value e, c1 ++ c2)).
Proof. first_match P c. Qed.

Lemma chain_contains_spec same P c :
  tests same P c →
  (chain_contains same c = Some false ∧ ∀ e, e ∈ c → ¬ P e)
  ∨ (chain_contains same c = Some true ∧ ∃ e, e ∈ c ∧ P e).
Proof.
  induction c as [|e c IH]; intros Ht; simpl.
  { left. split; [done|]. by intros e ?%elem_of_nil. }
  apply tests_cons in Ht as [(b & -> & Hb) Ht]. simpl. destruct b.
  - right. split; [done|]. exists e. split; [apply list_elem_of_here | by apply Hb].
  - assert (¬ P e) as Hne by (intros ?%Hb; done).
    destruct (IH Ht) as [[-> Hno] | (-> & x & Hx & HP)].
    + left. split; [done|]. by intros x [-> | ?]%elem_of_cons; [|apply Hno].
    + right. split; [done|]. exists x. split; [by apply list_elem_of_further | done].
Qed.
End KeyFacts.

(** ** Well-formed tables *)

Section WellFormed.
Context `{Platform} {K V : Type}.
Implicit Types (t : HashTable K V) (e : TableEntry K V) (k key : option K).
Implicit Types (c : list (TableEntry K V)).
Implicit Types (bs : list (list (TableEntry K V))).

Lemma cap_inv_bits t :
  platform_ok → cap_inv t → ∃ n, 0 ≤ n < size_bits ∧ capacity t = 2 ^ n.
Proof.
  intros (m & Hm & HM) (n & Hn & Hcap & Hle). exists n. split; [|done].
  rewrite Hcap, HM in Hle. apply Z.pow_le_mono_r_iff in Hle; lia.
Qed.

Lemma wf_shape t :
  platform_ok → wf t →
  ∃ n bs, 0 ≤ n < size_bits ∧ capacity t = 2 ^ n ∧ buckets t = Some bs
          ∧ length bs = Z.to_nat (2 ^ n).
Proof.
  intros Hok Hwf.
  destruct (cap_inv_bits t Hok (wf_capacity t Hwf)) as (n & Hn & Hcap).
  destruct (wf_buckets t Hwf) as (bs & Hbs & Hlen & _).
  exists n, bs. rewrite <- Hcap. done.
Qed.

Lemma wf_size_inv t : wf t → size_inv t.
Proof.
  intros Hwf. split; [apply (wf_size t Hwf)|].
  destruct (wf_buckets t Hwf) as (bs & Hbs & Hlen & _).
  intros bs' ?. by simplify_eq.
Qed.

Lemma wf_same_refl t k : wf t → same_key t k k.
Proof. intros Hwf. eapply same_by_refl, (wf_strategies t Hwf). Qed.

Lemma wf_same_sym t k1 k2 : wf t → same_key t k1 k2 → same_key t k2 k1.
Proof. intros Hwf. eapply same_by_sym, (wf_strategies t Hwf). Qed.

Lemma wf_same_trans t k1 k2 k3 :
  wf t → same_key t k1 k2 → same_key t k2 k3 → same_key t k1 k3.
Proof. intros Hwf. eapply same_by_trans, (wf_strategies t Hwf). Qed.

(** Two entries with the same key are one entry. *)
Lemma wf_unique t e1 e2 :
  wf t → e1 ∈ entries t → e2 ∈ entries t →
  same_key t (e_key e1) (e_key e2) → e1 = e2.
Proof.
  intros Hwf. eapply distinct_keys_unique;
    [apply (wf_strategies t Hwf) | apply (wf_distinct t Hwf)].
Qed.

(** *** The home bucket of a key *)

Lemma bucket_of_0 cap : bucket_of 0 cap = 0.
Proof. unfold bucket_of. apply Z.land_0_l. Qed.

Lemma home_in_range t key :
  platform_ok → wf t →
  ∃ i bs c, home t key = Some i ∧ 0 ≤ i < capacity t
            ∧ buckets t = Some bs ∧ bs !! Z.to_nat i = Some c.
Proof.
  intros Hok Hwf.
  destruct (wf_shape t Hok Hwf) as (n & bs & Hn & Hcap & Hbs & Hlen).
  assert (0 < 2 ^ n) by (apply Z.pow_pos_nonneg; lia).
  assert (∃ i, home t key = Some i ∧ 0 ≤ i < capacity t) as (i & Hi & Hr).
  { destruct key as [a|]; simpl.
    - destruct (hash_total _ _ _ _ (wf_strategies t Hwf) a) as [h Hh].
      unfold get_table_index. rewrite Hh. simpl. eexists. split; [done|].
      rewrite Hcap. by apply bucket_of_lt.
    - exists 0. split; [done | lia]. }
  destruct (lookup_lt_is_Some_2 bs (Z.to_nat i)) as [c Hc]; [lia|].
  exists i, bs, c. done.
Qed.

(** An entry is in the home bucket of every key that is the same as
    its key. *)
Lemma same_key_home t bs key i e :
  wf t → buckets t = Some bs → home t key = Some i →
  e ∈ entries t → same_key t (e_key e) key →
  ∃ c, bs !! Z.to_nat i = Some c ∧ e ∈ c.
Proof.
  intros Hwf Hbs Hhome Hin Hsame.
  pose proof (wf_cached t Hwf e Hin) as Hcached.
  destruct (wf_buckets t Hwf) as (bs' & Hbs' & _ & Hplace). simplify_eq.
  unfold entries in Hin. rewrite Hbs in Hin.
  apply elem_of_concat_lookup in Hin as (j & c & Hj & Hc).
  exists c. split; [|done].
  rewrite <- Hj. f_equal. specialize (Hplace j c e Hj Hc).
  enough (bucket_of (e_hash e) (capacity t) = i) by lia.
  unfold same_key, same_by, cached in *.
  destruct (e_key e) as [b|] eqn:Hk, key as [a|]; simpl in *; try done.
  - unfold get_table_index in Hhome.
    rewrite <- (hash_cmp _ _ _ _ (wf_strategies t Hwf) b a Hsame), Hcached
      in Hhome.
    by simplify_eq/=.
  - simplify_eq. rewrite Hcached. apply bucket_of_0.
Qed.

(** *** The tests of the loops are defined on the entries *)

Lemma tests_sub same P (es c : list (TableEntry K V)) :
  tests same P es → (∀ e, e ∈ c → e ∈ es) → tests same P c.
Proof. intros Ht Hsub e He. by apply Ht, Hsub. Qed.

Lemma tests_null t key :
  key = None →
  tests (λ k, Some (is_null k)) (λ e, same_key t (e_key e) key) (entries t).
Proof.
  intros -> e _. exists (is_null (e_key e)). split; [done|].
  unfold same_key, same_by. destruct (e_key e); simpl; intuition congruence.
Qed.

Lemma tests_cmp t key :
  wf t → key ≠ None → null_safe t →
  tests (λ k, key_cmp t k key) (λ e, same_key t (e_key e) key) (entries t).
Proof.
  intros Hwf Hkey Hsafe e He. destruct key as [a|]; [|done].
  unfold same_key, same_by. destruct (e_key e) as [b|] eqn:Hk.
  - destruct (cmp_total _ _ _ _ (wf_strategies t Hwf) b a) as [r Hr].
    exists r. split; [done|]. rewrite Hr. intuition congruence.
  - destruct Hsafe as [Hsafe | Hnone].
    + exists false. split; [apply Hsafe | intuition congruence].
    + by destruct (Hnone e He).
Qed.

Lemma tests_cmp_flip t key :
  wf t → key ≠ None → null_safe t →
  tests (λ k, key_cmp t key k) (λ e, same_key t key (e_key e)) (entries t).
Proof.
  intros Hwf Hkey Hsafe e He. destruct key as [a|]; [|done].
  unfold same_key, same_by. destruct (e_key e) as [b|] eqn:Hk.
  - destruct (cmp_total _ _ _ _ (wf_strategies t Hwf) a b) as [r Hr].
    exists r. split; [done|]. rewrite Hr. intuition congruence.
  - destruct Hsafe as [Hsafe | Hnone].
    + exists false. split; [apply Hsafe | intuition congruence].
    + by destruct (Hnone e He).
Qed.

Lemma chain_in_entries t bs i c :
  buckets t = Some bs → bs !! i = Some c → ∀ e, e ∈ c → e ∈ entries t.
Proof.
  intros Hbs Hc e He. unfold entries. rewrite Hbs.
  apply elem_of_concat_lookup. eauto.
Qed.

(** *** Lookup *)

(** [hashtable_get] returns the value of the entry that has the key,
    [NULL] when there is none. *)
Lemma hashtable_get_spec t key :
  platform_ok → wf t → key_ok t key →
  (hashtable_get t key = Some None
   ∧ ∀ e, e ∈ entries t → ¬ same_key t (e_key e) key)
  ∨ ∃ e, e ∈ entries t ∧ same_key t (e_key e) key
         ∧ hashtable_get t key = Some (e_value e).
Proof.
  intros Hok Hwf Hkey.
  destruct (home_in_range t key Hok Hwf) as (i & bs & c & Hhome & Hr & Hbs & Hc).
  assert (∃ same,
            tests same (λ e, same_key t (e_key e) key) c
            ∧ hashtable_get t key = chain_get same c) as (same & Ht & ->).
  { destruct key as [a|]; simpl in *.
    - exists (λ k, key_cmp t k (Some a)). split.
      + eapply tests_sub; [by apply tests_cmp|]. by eapply chain_in_entries.
      + unfold hashtable_get. simpl. rewrite Hhome. simpl. rewrite Hbs. simpl.
        by rewrite Hc.
    - exists (λ k, Some (is_null k)). split.
      + eapply tests_sub; [by apply tests_null|]. by eapply chain_in_entries.
      + unfold hashtable_get, get_null_key. simpl. rewrite Hbs. simpl.
        simplify_eq. change (Z.to_nat 0) with 0%nat in Hc. by rewrite Hc. }
  destruct (chain_get_spec _ _ c Ht) as [[-> Hno] | (c1 & e & c2 & -> & HP & _ & ->)].
  - left. split; [done|]. intros e He Hs.
    destruct (same_key_home t bs key i e Hwf Hbs Hhome He Hs) as (c' & Hc' & Hin).
    simplify_eq. by apply (Hno e).
  - right. exists e. split; [|done].
    eapply chain_in_entries; [done.. |]. apply elem_of_app. right.
    apply list_elem_of_here.
Qed.

(** The value bound to a key is the value [hashtable_get] returns. *)
Lemma hashtable_get_entry t key e :
  platform_ok → wf t → key_ok t key →
  e ∈ entries t → same_key t (e_key e) key →
  hashtable_get t key = Some (e_value e).
Proof.
  intros Hok Hwf Hkey He Hs.
  destruct (hashtable_get_spec t key Hok Hwf Hkey)
    as [[_ Hno] | (e' & He' & Hs' & ->)]; [by destruct (Hno e He)|].
  do 2 f_equal. apply (wf_unique t e' e Hwf He' He).
  eapply wf_same_trans; [done.. |]. by apply wf_same_sym.
Qed.
End WellFormed.

(** ** Insertion keeps the invariant *)

Section AddFacts.
Context `{Platform} {K V : Type}.
Implicit Types (t : HashTable K V) (e : TableEntry K V) (k key : option K).
Implicit Types (c : list (TableEntry K V)).
Implicit Types (bs : list (list (TableEntry K V))).

Lemma wf_grow t o t1 o1 :
  platform_ok → wf t → grow_if_full t o = Some (t1, o1) →
  wf t1 ∧ entries t1 ≡ₚ entries t ∧ same_params t t1 ∧ size t1 = size t.
Proof.
  intros Hok Hwf Hg.
  destruct (size_inv_grow t o t1 o1 (wf_size_inv t Hwf) Hg) as [[Hsz Hlen] Hperm].
  pose proof (cap_inv_grow t o t1 o1 Hok (wf_capacity t Hwf) Hg) as Hcap.
  destruct (grow_if_full_keeps t o t1 o1 Hg) as (Hh & Hc & Hl & Hs & Hlf & Hsize).
  split; [|done].
  apply grow_if_full_inv in Hg
    as [-> | (_ & _ & old & new & th & Hold & Hmv & _ & ->)]; [done|].
  destruct (wf_buckets t Hwf) as (bs & Hbs & Hlenbs & _). simplify_eq.
  apply move_entries_spec in Hmv as (Hlnew & _ & Hplace); [|done].
  constructor; simpl.
  - done.
  - exists new. split; [done|]. split; [by rewrite Hlnew, length_replicate|].
    intros j c e Hj He.
    destruct (Hplace j c e Hj He) as [[_ ?] | (c0 & Hc0 & Hin)]; [done|].
    apply lookup_replicate in Hc0 as [-> _]. by apply elem_of_nil in Hin.
  - intros e He. apply (wf_cached t Hwf). by rewrite <- Hperm.
  - eapply distinct_keys_perm;
      [apply (wf_strategies t Hwf) | | apply (wf_distinct t Hwf)].
    by rewrite Hperm.
  - done.
  - apply (wf_strategies t Hwf).
Qed.

Lemma home_bucket_of t key i h :
  home t key = Some i →
  match key with
  | None => h = 0
  | Some _ => hash t key (key_len t) (hash_seed t) = Some h
  end →
  Z.of_nat (Z.to_nat i) = bucket_of h (capacity t).
Proof.
  intros Hhome Hh. destruct key as [a|]; simpl in Hhome.
  - unfold get_table_index in Hhome. rewrite Hh in Hhome. simplify_eq/=.
    rewrite Z2Nat.id; [done | apply bucket_of_nonneg].
  - simplify_eq. by rewrite bucket_of_0.
Qed.

(** The second half of an insertion, on a well-formed table: the value
    of the entry that has the key is replaced, or a new entry is added
    when there is none and the allocation succeeds. *)
Lemma add_at_spec t key val i same h o ok t' o' :
  wf t →
  home t key = Some i →
  tests same (λ e, same_key t (e_key e) key) (entries t) →
  match key with
  | None => h = 0
  | Some _ => hash t key (key_len t) (hash_seed t) = Some h
  end →
  add_at t i same key val h o = Some (ok, t', o') →
  wf t' ∧ same_params t t'
  ∧ capacity t' = capacity t ∧ threshold t' = threshold t
  ∧ ((ok = true ∧ o' = o ∧ size t' = size t
      ∧ ∃ e rest, same_key t (e_key e) key
                  ∧ entries t ≡ₚ e :: rest
                  ∧ entries t' ≡ₚ set_value e val :: rest)
     ∨ (ok = true ∧ alloc o = (true, o') ∧ size t' = wrap (size t + 1)
        ∧ (∀ e, e ∈ entries t → ¬ same_key t (e_key e) key)
        ∧ entries t'
          ≡ₚ {| e_key := key; e_value := val; e_hash := h |} :: entries t)
     ∨ (ok = false ∧ alloc o = (false, o') ∧ t' = t
        ∧ ∀ e, e ∈ entries t → ¬ same_key t (e_key e) key)).
Proof.
  intros Hwf Hhome Htests Hnew (bs & c & Hbs & Hc & Hcase)%add_at_inv.
  pose proof (home_bucket_of t key i h Hhome Hnew) as Hidx.
  destruct (wf_buckets t Hwf) as (bs' & Hbs' & Hlen & Hplace). simplify_eq.
  assert (tests same (λ e, same_key t (e_key e) key) c) as Htc.
  { eapply tests_sub; [done|]. by eapply chain_in_entries. }
  destruct (concat_insert_perm bs (Z.to_nat i) c c Hc) as (rest0 & Hp0 & _).
  assert (entries t = concat bs) as Hentt by (unfold entries; by rewrite Hbs).
  assert ((∀ x, x ∈ c → ¬ same_key t (e_key x) key) →
          ∀ e, e ∈ entries t → ¬ same_key t (e_key e) key) as Hglobal.
  { intros Hno e He Hs.
    destruct (same_key_home t bs key i e Hwf Hbs Hhome He Hs) as (c' & Hc' & Hin).
    simplify_eq. by apply (Hno e). }
  destruct (chain_replace_spec same _ val c Htc)
    as [[Hrep Hno] | (c1 & e & c2 & -> & HP & _ & Hrep)];
    rewrite Hrep in Hcase;
    destruct Hcase as [(c' & ? & -> & -> & ->)
                      | (? & [(-> & -> & Ha) | (-> & Ha & ->)])];
    simplify_eq.
  - (* the allocation of the entry fails *)
    split; [done|]. split; [done|]. split; [done|]. split; [done|].
    right. right. auto.
  - (* a new entry *)
    set (new := {| e_key := key; e_value := val; e_hash := h |}).
    destruct (concat_insert_perm bs (Z.to_nat i) c (new :: c) Hc)
      as (rest & Hp & Hp').
    assert (concat (<[Z.to_nat i := new :: c]> bs) ≡ₚ new :: concat bs) as Hperm.
    { rewrite Hp', Hp. done. }
    split; [|split; [done|]; split; [done|]; split; [done|]].
    + constructor; simpl.
      * apply (wf_capacity t Hwf).
      * eexists. split; [done|]. split; [by rewrite length_insert|].
        intros j c0 x Hj Hx.
        destruct (decide (j = Z.to_nat i)) as [-> | Hne].
        -- rewrite list_lookup_insert_eq in Hj
             by (by eapply lookup_lt_Some). simplify_eq.
           apply elem_of_cons in Hx as [-> | Hx]; [done | by eapply Hplace].
        -- rewrite list_lookup_insert_ne in Hj by done. by eapply Hplace.
      * intros x. unfold entries. simpl. rewrite Hperm.
        intros [-> | Hx]%elem_of_cons.
        -- unfold cached. simpl. by destruct key.
        -- apply (wf_cached t Hwf). by rewrite Hentt.
      * eapply distinct_keys_perm; [apply (wf_strategies t Hwf) | |].
        { symmetry. unfold entries. simpl. rewrite Hperm, fmap_cons. reflexivity. }
        constructor; [|rewrite <- Hentt; apply (wf_distinct t Hwf)].
        intros k' (x & -> & Hx)%list_elem_of_fmap Hs.
        apply (Hglobal Hno x); [by rewrite Hentt|].
        by apply (wf_same_sym t).
      * rewrite (wf_size t Hwf), wrap_wrap_add. f_equal.
        unfold count, entries. simpl. rewrite Hperm, Hbs. simpl. lia.
      * apply (wf_strategies t Hwf).
    + right. left. split; [done|]. split; [done|]. split; [done|].
      split; [by apply Hglobal|]. unfold entries. simpl. by rewrite Hperm, Hbs.
  - (* the value of an entry is replaced *)
    destruct (concat_insert_perm bs (Z.to_nat i) (c1 ++ e :: c2)
                (c1 ++ set_value e val :: c2) Hc) as (rest & Hp & Hp').
    assert (e_key <$> concat (<[Z.to_nat i := c1 ++ set_value e val :: c2]> bs)
            ≡ₚ e_key <$> concat bs) as Hkeys.
    { rewrite Hp', Hp. by rewrite !fmap_app, !fmap_cons. }
    split; [|split; [done|]; split; [done|]; split; [done|]].
    + constructor; simpl.
      * apply (wf_capacity t Hwf).
      * eexists. split; [done|]. split; [by rewrite length_insert|].
        intros j c0 x Hj Hx.
        destruct (decide (j = Z.to_nat i)) as [-> | Hne].
        -- rewrite list_lookup_insert_eq in Hj
             by (by eapply lookup_lt_Some). simplify_eq.
           apply elem_of_app in Hx as [Hx | [-> | Hx]%elem_of_cons].
           ++ eapply Hplace; [done|]. apply elem_of_app. by left.
           ++ simpl. eapply (Hplace _ _ e); [done|].
              apply elem_of_app. right. apply list_elem_of_here.
           ++ eapply Hplace; [done|]. apply elem_of_app. right.
              by apply list_elem_of_further.
        -- rewrite list_lookup_insert_ne in Hj by done. by eapply Hplace.
      * intros x. unfold entries. simpl. rewrite Hp'.
        intros [[Hx | [-> | Hx]%elem_of_cons]%elem_of_app | Hx]%elem_of_app.
        -- apply (wf_cached t Hwf). rewrite Hentt, Hp.
           apply elem_of_app. left. apply elem_of_app. by left.
        -- assert (cached t e) as Hce; [|exact Hce].
           apply (wf_cached t Hwf). rewrite Hentt, Hp.
           apply elem_of_app. left. apply elem_of_app. right.
           apply list_elem_of_here.
        -- apply (wf_cached t Hwf). rewrite Hentt, Hp.
           apply elem_of_app. left. apply elem_of_app. right.
           by apply list_elem_of_further.
        -- apply (wf_cached t Hwf). rewrite Hentt, Hp.
           apply elem_of_app. by right.
      * eapply distinct_keys_perm; [apply (wf_strategies t Hwf) | |].
        { symmetry. unfold entries. simpl. exact Hkeys. }
        rewrite <- Hentt. apply (wf_distinct t Hwf).
      * rewrite (wf_size t Hwf). f_equal. unfold count, entries. simpl.
        rewrite Hbs.
        by rewrite <- (length_fmap e_key (concat bs)), <- Hkeys, length_fmap.
      * apply (wf_strategies t Hwf).
    + left. split; [done|]. split; [done|]. split; [done|].
      exists e, (c1 ++ c2 ++ rest). split; [done|]. split.
      * rewrite Hentt, Hp. rewrite <- app_assoc. simpl.
        by rewrite <- Permutation_middle.
      * unfold entries. simpl. rewrite Hp'. rewrite <- app_assoc. simpl.
        by rewrite <- Permutation_middle.
Qed.
End AddFacts.

(** ** Insertion, removal and clearing on well-formed tables *)

Section Operations.
Context `{Platform} {K V : Type}.
Implicit Types (t : HashTable K V) (e : TableEntry K V) (k key : option K).
Implicit Types (c : list (TableEntry K V)).
Implicit Types (bs : list (list (TableEntry K V))).

Lemma same_key_params t t' k1 k2 :
  same_params t t' → same_key t' k1 k2 ↔ same_key t k1 k2.
Proof. intros (_ & Hc & _). unfold same_key. by rewrite Hc. Qed.

Lemma null_safe_params t t' :
  same_params t t' →
  (∀ e, e ∈ entries t' → e_key e = None → ∃ e0, e0 ∈ entries t ∧ e_key e0 = None) →
  null_safe t → null_safe t'.
Proof.
  intros (_ & Hc & _) Hsub [Hsafe | Hnone]; [left | right].
  - by rewrite Hc.
  - intros e He Hk. destruct (Hsub e He Hk) as (e0 & He0 & Hk0).
    by apply (Hnone e0).
Qed.

Lemma tests_iff (same : option K → option bool)
    (P Q : TableEntry K V → Prop) c :
  (∀ e, P e ↔ Q e) → tests same P c → tests same Q c.
Proof.
  intros HPQ Ht e He. destruct (Ht e He) as (b & Hb & Hiff).
  exists b. split; [done|]. by rewrite <- HPQ.
Qed.

Lemma grow_if_full_defined t o :
  platform_ok → wf t → growth_defined t → is_Some (grow_if_full t o).
Proof.
  intros Hok Hwf [Hint [th Hth]]. unfold grow_if_full, resize.
  destruct (threshold t <=? size t); [|by eexists].
  destruct (Z.eqb_spec (capacity t) MAX_POW_TWO) as [|Hne]; [by eexists|].
  destruct (alloc o) as [[] o1]; simpl; [|by eexists].
  destruct (wf_buckets t Hwf) as (bs & Hbs & Hlen & _). rewrite Hbs. simpl.
  destruct (double_capacity t Hok (wf_capacity t Hwf) Hne)
    as (n & Hn & Hbits & Hcap & Hdbl & _).
  rewrite Hdbl in *. unfold move_entries.
  destruct (Z.ltb_spec INT_MAX (capacity t)); [lia|].
  destruct (Nat.ltb_spec (length bs) (Z.to_nat (capacity t))); [lia|].
  rewrite take_ge, fold_ub_concat by lia.
  destruct (move_chain_defined (n + 1) (concat bs)
              (replicate (Z.to_nat (2 ^ (n + 1))) [])) as [new ->];
    [lia | by rewrite length_replicate |].
  simpl. rewrite Hth. simpl. by eexists.
Qed.

(** An insertion on a well-formed table: after the growth step, the
    value of the entry that has the key is replaced, or a new entry is
    added when there is none and the allocation succeeds. *)
Lemma hashtable_add_spec t key val o ok t' o' :
  platform_ok → wf t → key_ok t key →
  hashtable_add t key val o = Some (ok, t', o') →
  ∃ t1 o1,
    grow_if_full t o = Some (t1, o1)
    ∧ wf t' ∧ same_params t t'
    ∧ capacity t' = capacity t1 ∧ threshold t' = threshold t1
    ∧ (key ≠ None → null_safe t → null_safe t')
    ∧ ((ok = true ∧ o' = o1 ∧ size t' = size t
        ∧ ∃ e rest, same_key t (e_key e) key
                    ∧ entries t ≡ₚ e :: rest
                    ∧ entries t' ≡ₚ set_value e val :: rest)
       ∨ (ok = true ∧ alloc o1 = (true, o') ∧ size t' = wrap (size t + 1)
          ∧ (∀ e, e ∈ entries t → ¬ same_key t (e_key e) key)
          ∧ ∃ h, entries t'
                 ≡ₚ {| e_key := key; e_value := val; e_hash := h |} :: entries t)
       ∨ (ok = false ∧ alloc o1 = (false, o') ∧ t' = t1
          ∧ ∀ e, e ∈ entries t → ¬ same_key t (e_key e) key)).
Proof.
  intros Hok Hwf Hkey (t1 & o1 & i & same & h & Hg & Ha & Hcase)%hashtable_add_inv.
  exists t1, o1. split; [done|].
  destruct (wf_grow t o t1 o1 Hok Hwf Hg) as (Hwf1 & Hperm & Hpar & Hsize).
  assert (null_safe t → null_safe t1) as Hsafe1.
  { apply null_safe_params; [done|]. intros e He Hk. exists e.
    split; [by rewrite <- Hperm | done]. }
  assert (home t1 key = Some i
          ∧ tests same (λ e, same_key t1 (e_key e) key) (entries t1)
          ∧ match key with
            | None => h = 0
            | Some _ => hash t1 key (key_len t1) (hash_seed t1) = Some h
            end) as (Hhome & Htests & Hnew).
  { destruct Hcase as [(-> & -> & -> & ->) | (Hne & Hh & -> & ->)].
    - split; [done|]. split; [by apply tests_null | done].
    - destruct key as [a|]; [|done]. split; [|split; [|done]].
      + simpl. unfold get_table_index. by rewrite Hh.
      + apply tests_cmp; [done | done | by apply Hsafe1]. }
  destruct (add_at_spec t1 key val i same h o1 ok t' o' Hwf1 Hhome Htests Hnew Ha)
    as (Hwf' & Hpar' & Hcap' & Hth' & Hout).
  assert (same_params t t') as Hpar2.
  { destruct Hpar as (? & ? & ? & ? & ?), Hpar' as (? & ? & ? & ? & ?).
    repeat split; congruence. }
  split; [done|]. split; [done|]. split; [done|]. split; [done|].
  assert (∀ e, same_key t1 (e_key e) key ↔ same_key t (e_key e) key) as Hsame.
  { intros e. by apply same_key_params. }
  split.
  - intros Hne Hsafe. apply (null_safe_params t1 t' Hpar'); [|by apply Hsafe1].
    intros e He Hk.
    destruct Hout as [(_ & _ & _ & e0 & rest & _ & Hp1 & Hp')
                     | [(_ & _ & _ & _ & Hp') | (_ & _ & -> & _)]].
    + rewrite Hp' in He. apply elem_of_cons in He as [-> | He].
      * exists e0. split; [rewrite Hp1; apply list_elem_of_here | done].
      * exists e. split; [rewrite Hp1; by apply list_elem_of_further | done].
    + rewrite Hp' in He. apply elem_of_cons in He as [-> | He]; [done|].
      by exists e.
    + by exists e.
  - destruct Hout as [(-> & -> & Hsz & e0 & rest & Hs & Hp1 & Hp')
                     | [(-> & Hal & Hsz & Hno & Hp') | (-> & Hal & -> & Hno)]].
    + left. split; [done|]. split; [done|]. split; [congruence|].
      exists e0, rest. split; [by apply Hsame|]. split; [by rewrite <- Hperm | done].
    + right. left. split; [done|]. split; [done|]. split; [congruence|].
      split; [|exists h; by rewrite Hp', Hperm].
      intros e He Hs. apply (Hno e); [by rewrite Hperm | by apply Hsame].
    + right. right. split; [done|]. split; [done|]. split; [done|].
      intros e He Hs. apply (Hno e); [by rewrite Hperm | by apply Hsame].
Qed.

Lemma hashtable_add_defined_after t key val o t1 o1 :
  platform_ok → wf t → key_ok t key →
  grow_if_full t o = Some (t1, o1) →
  is_Some (hashtable_add t key val o).
Proof.
  intros Hok Hwf Hkey Hg.
  destruct (wf_grow t o t1 o1 Hok Hwf Hg) as (Hwf1 & Hperm & Hpar & _).
  destruct (home_in_range t1 key Hok Hwf1) as (i & bs & c & Hhome & _ & Hbs & Hc).
  unfold hashtable_add. rewrite Hg. simpl.
  assert (∀ same h,
            tests same (λ e, same_key t1 (e_key e) key) (entries t1) →
            is_Some (add_at t1 i same key val h o1)) as Hat.
  { intros same h Ht. unfold add_at. rewrite Hbs. simpl. rewrite Hc. simpl.
    assert (tests same (λ e, same_key t1 (e_key e) key) c) as Htc.
    { eapply tests_sub; [done|]. by eapply chain_in_entries. }
    destruct (chain_replace_spec same _ val c Htc)
      as [[-> _] | (c1 & e & c2 & _ & _ & _ & ->)]; simpl; [|by eexists].
    destruct (alloc o1) as [[] ?]; simpl; by eexists. }
  destruct key as [a|]; simpl in *.
  - unfold get_table_index in Hhome.
    destruct (hash t1 (Some a) _ _) as [h|]; simplify_eq/=.
    apply Hat, tests_cmp; [done | done |].
    apply (null_safe_params t t1 Hpar); [|done].
    intros e He Hk. exists e. split; [by rewrite <- Hperm | done].
  - simplify_eq. unfold add_null_key. by apply Hat, tests_null.
Qed.

Lemma hashtable_add_defined t key val o :
  platform_ok → wf t → key_ok t key → growth_defined t →
  is_Some (hashtable_add t key val o).
Proof.
  intros Hok Hwf Hkey Hgd.
  destruct (grow_if_full_defined t o Hok Hwf Hgd) as [[t1 o1] Hg].
  by eapply hashtable_add_defined_after.
Qed.

(** X22: on a table that satisfies the representation invariant and
    for a key that the comparator can be called on, once
    [hashtable_add] has stored a value under the key and left a table
    whose growth is defined (at most [INT_MAX] buckets, and a threshold
    of the doubled capacity that a [size_t] holds), storing another
    value under the same key succeeds whatever the allocators answer,
    creates no entry and leaves the size unchanged, and [hashtable_get]
    then returns the second value. *)
Theorem add_same_key_twice t key v1 v2 o t1 o1 o2 :
  platform_ok → wf t → key_ok t key →
  hashtable_add t key v1 o = Some (true, t1, o1) →
  growth_defined t1 →
  ∃ t2 o2',
    hashtable_add t1 key v2 o2 = Some (true, t2, o2')
    ∧ hashtable_size t2 = hashtable_size t1
    ∧ count t2 = count t1
    ∧ hashtable_get t2 key = Some v2.
Proof.
  intros Hok Hwf Hkey Hadd1 Hgd.
  destruct (hashtable_add_spec t key v1 o true t1 o1 Hok Hwf Hkey Hadd1)
    as (t0 & o0 & _ & Hwf1 & Hpar1 & _ & _ & Hsafe1 & Hout1).
  assert (key_ok t1 key) as Hkey1.
  { destruct key; [|done]. simpl in *. by apply Hsafe1. }
  assert (∃ e1, e1 ∈ entries t1 ∧ same_key t1 (e_key e1) key) as (e1 & He1 & Hs1).
  { destruct Hout1 as [(_ & _ & _ & e & rest & Hs & _ & Hp)
                      | [(_ & _ & _ & _ & h & Hp) | (? & _)]]; [| |done].
    - exists (set_value e v1). split; [rewrite Hp; apply list_elem_of_here|].
      by apply (same_key_params t t1).
    - eexists. split; [rewrite Hp; apply list_elem_of_here|].
      by apply wf_same_refl. }
  destruct (hashtable_add_defined t1 key v2 o2 Hok Hwf1 Hkey1 Hgd)
    as [[[ok t2] o2'] Hadd2].
  destruct (hashtable_add_spec t1 key v2 o2 ok t2 o2' Hok Hwf1 Hkey1 Hadd2)
    as (t1' & o1' & _ & Hwf2 & Hpar2 & _ & _ & Hsafe2 & Hout2).
  destruct Hout2 as [(-> & _ & Hsz & e & rest & Hs & Hp1 & Hp2)
                    | [(_ & _ & _ & Hno & _) | (_ & _ & _ & Hno)]];
    [| by destruct (Hno e1 He1) ..].
  exists t2, o2'. split; [done|]. split; [done|]. split.
  - unfold count. by rewrite Hp1, Hp2.
  - assert (key_ok t2 key) as Hkey2.
    { destruct key; [|done]. simpl in *. by apply Hsafe2. }
    rewrite (hashtable_get_entry t2 key (set_value e v2) Hok Hwf2 Hkey2); [done | |].
    + rewrite Hp2. apply list_elem_of_here.
    + by apply (same_key_params t1 t2).
Qed.


(** For a key other than [NULL], [hashtable_contains_key] says whether
    an entry has the key. *)
Lemma hashtable_contains_key_spec t key :
  platform_ok → wf t → key ≠ None → null_safe t →
  (hashtable_contains_key t key = Some true
   ∧ ∃ e, e ∈ entries t ∧ same_key t key (e_key e))
  ∨ (hashtable_contains_key t key = Some false ∧ absent t key).
Proof.
  intros Hok Hwf Hne Hsafe.
  destruct (home_in_range t key Hok Hwf) as (i & bs & c & Hhome & _ & Hbs & Hc).
  destruct key as [a|]; [|done]. simpl in Hhome.
  unfold hashtable_contains_key. rewrite Hhome. simpl. rewrite Hbs. simpl.
  rewrite Hc. simpl.
  assert (tests (λ k, key_cmp t (Some a) k)
                (λ e, same_key t (Some a) (e_key e)) c) as Htc.
  { eapply tests_sub; [by apply tests_cmp_flip|]. by eapply chain_in_entries. }
  destruct (chain_contains_spec _ _ c Htc) as [[-> Hno] | (-> & e & He & Hs)].
  - right. split; [done|]. intros e He Hs.
    destruct (same_key_home t bs (Some a) i e Hwf Hbs Hhome He)
      as (c' & Hc' & Hin); [by apply wf_same_sym|].
    simplify_eq. by apply (Hno e).
  - left. split; [done|]. exists e. split; [by eapply chain_in_entries | done].
Qed.

(** X24: [hashtable_remove_all] on a table whose size field counts
    its entries, whose bucket array is allocated and whose capacity is
    a power of two, at most [INT_MAX]: the size becomes 0, every chain
    is empty, the capacity and the threshold are unchanged, and
    [hashtable_contains_key] answers [false] for every key on which the
    hash function of the table is defined. *)
Theorem remove_all_clears t :
  platform_ok → cap_inv t → size_inv t → is_Some (buckets t) →
  hashtable_capacity t ≤ INT_MAX →
  ∃ t',
    hashtable_remove_all t = Some t'
    ∧ hashtable_size t' = 0
    ∧ buckets t' = Some (replicate (Z.to_nat (capacity t)) [])
    ∧ entries t' = []
    ∧ hashtable_capacity t' = hashtable_capacity t
    ∧ threshold t' = threshold t
    ∧ ∀ key h,
        hash t key (key_len t) (hash_seed t) = Some h →
        hashtable_contains_key t' key = Some false.
Proof.
  intros Hok Hcap [Hsz Hlen] [bs Hbs] Hint. specialize (Hlen bs Hbs).
  unfold hashtable_capacity in Hint.
  assert (is_Some (hashtable_remove_all t)) as [t' Hr].
  { unfold hashtable_remove_all. rewrite Hbs. simpl.
    destruct (Z.ltb_spec INT_MAX (capacity t)); [lia|].
    destruct (Nat.ltb_spec (length bs) (Z.to_nat (capacity t))); [lia|].
    by eexists. }
  exists t'. split; [done|].
  apply hashtable_remove_all_inv in Hr as (bs' & Hbs' & ->);
    [|intros ? ?; by simplify_eq].
  simplify_eq. unfold hashtable_size, hashtable_capacity. simpl.
  split.
  { rewrite count_down_all by (rewrite Hsz; apply wrap_idemp).
    rewrite Hsz, wrap_wrap_sub. unfold count, entries. rewrite Hbs.
    rewrite Z.sub_diag. apply wrap_0. }
  split; [by rewrite Hlen|].
  split; [unfold entries; simpl; apply concat_replicate_nil|].
  split; [done|]. split; [done|].
  intros key h Hh. unfold hashtable_contains_key, get_table_index. simpl.
  rewrite Hh. simpl.
  destruct (cap_inv_bits t Hok Hcap) as (n & Hn & Hc).
  pose proof (bucket_of_lt h n Hn) as Hlt. rewrite <- Hc in Hlt.
  rewrite lookup_replicate_2 by lia. done.
Qed.
End Operations.

(** ** Insertion of keys that the table does not have *)

Section FreshKeys.
Context `{Platform} {K V : Type}.
Implicit Types (t : HashTable K V) (e : TableEntry K V) (k key : option K).
Implicit Types (kvs prev : list (K * option V)).

Lemma alloc_all_succeed o :
  all_succeed o → (alloc o).1 = true ∧ all_succeed (alloc o).2.
Proof.
  intros Ho. destruct o as [|b o]; simpl; [done|]. split.
  - apply Ho, list_elem_of_here.
  - intros b' Hb'. by apply Ho, list_elem_of_further.
Qed.


Lemma grow_if_full_not_full t o :
  size t < threshold t → grow_if_full t o = Some (t, o).
Proof.
  intros Hlt. unfold grow_if_full.
  destruct (Z.leb_spec (threshold t) (size t)); [lia | done].
Qed.





(** A new table is well formed and empty. *)
Lemma wf_new_conf (conf : HashTableConf K) o t o' :
  platform_ok →
  0 ≤ conf_initial_capacity conf →
  conf_initial_capacity conf ≤ 2 ^ 32 ∨ MAX_POW_TWO ≤ conf_initial_capacity conf →
  strategies_ok (conf_hash conf) (conf_key_compare conf)
                (conf_key_length conf) (conf_hash_seed conf) →
  hashtable_new_conf conf o = Some (Some t, o') →
  is_Some (buckets t) →
  wf t ∧ entries t = [] ∧ size t = 0.
Proof.
  intros Hok Hhint Hreach Hstr Hnew Hbs.
  pose proof (hashtable_new_conf_capacity _ _ _ _ Hnew) as Hcap.
  pose proof (size_inv_new _ _ _ _ Hnew) as [Hsz Hlen].
  unfold hashtable_new_conf in Hnew.
  destruct (alloc o) as [[] o1]; simpl in Hnew; [|done].
  destruct (alloc o1) as [got o2].
  destruct (threshold_of _ _) as [th|]; simplify_eq/=.
  destruct got; [|by destruct Hbs].
  split; [|split; [unfold entries; simpl; apply concat_replicate_nil | done]].
  constructor; simpl.
  - destruct (round_pow_two_pow2 _ Hok Hhint Hreach) as (e & He & Hr & Hle).
    exists e. done.
  - eexists. split; [done|]. split; [by rewrite length_replicate|].
    intros i c e [-> _]%lookup_replicate ?%elem_of_nil. done.
  - intros e. unfold entries. simpl. rewrite concat_replicate_nil.
    by intros ?%elem_of_nil.
  - unfold entries. simpl. rewrite concat_replicate_nil. constructor.
  - done.
  - done.
Qed.
End FreshKeys.

(** ** The string strategies *)

Section StringFacts.
Context `{Platform}.

Lemma byte_of_inj c1 c2 : byte_of c1 = byte_of c2 → c1 = c2.
Proof.
  unfold byte_of. intros Hb%N2Z.inj.
  by rewrite <- (ascii_N_embedding c1), <- (ascii_N_embedding c2), Hb.
Qed.

Lemma byte_of_zero c : byte_of c = 0 → c = zero.
Proof. intros Hc. apply byte_of_inj. by rewrite Hc. Qed.

Lemma c_str_peek s : peek (c_str s) = peek s.
Proof.
  destruct s as [|c s]; simpl; [done|].
  by destruct (Ascii.eqb_spec c zero) as [-> |].
Qed.

Lemma c_str_nil_peek s : c_str s = EmptyString ↔ peek s = zero.
Proof.
  destruct s as [|c s]; simpl; [done|].
  by destruct (Ascii.eqb_spec c zero).
Qed.

(** [strcmp] answers 0 exactly on equal C strings. *)
Lemma strcmp_zero_iff s1 : ∀ s2, strcmp s1 s2 = 0 ↔ c_str s1 = c_str s2.
Proof.
  induction s1 as [|c1 s1 IH]; intros s2; simpl.
  - rewrite (eq_comm EmptyString), c_str_nil_peek. split.
    + intros Hb. apply byte_of_zero. lia.
    + by intros ->.
  - destruct (Ascii.eqb_spec c1 (peek s2)) as [Heq | Hne].
    + destruct (Ascii.eqb_spec c1 zero) as [-> | Hnz].
      * split; [|done]. intros _. symmetry. by apply c_str_nil_peek.
      * destruct s2 as [|c2 s2]; simpl in *; [done|]. subst c2.
        destruct (Ascii.eqb_spec c1 zero); [done|].
        rewrite IH. split; [by intros -> | by intros [= ->]].
    + split.
      * intros Hb. destruct Hne. apply byte_of_inj. lia.
      * intros Hc. destruct Hne.
        destruct (Ascii.eqb_spec c1 zero) as [-> | Hnz].
        -- symmetry. by apply c_str_nil_peek.
        -- rewrite <- (c_str_peek s2), <- Hc. done.
Qed.

(** The hash reads the key up to its terminator. *)
Lemma hash_string_loop_c_str s : ∀ h,
  hash_string_loop (c_str s) h = hash_string_loop s h.
Proof.
  induction s as [|c s IH]; intros h; simpl; [done|].
  destruct (Ascii.eqb_spec c zero) as [-> | Hnz]; simpl; [done|].
  destruct (Ascii.eqb_spec c zero); [done|].
  by rewrite c_str_peek, IH.
Qed.

Lemma string_key_cmp_true a b :
  hashtable_string_key_cmp (Some a) (Some b) = Some true ↔ c_str a = c_str b.
Proof.
  unfold hashtable_string_key_cmp. simpl. rewrite <- strcmp_zero_iff.
  destruct (Z.eqb_spec (strcmp a b) 0); split; intros; by simplify_eq.
Qed.

Lemma string_strategies_ok len seed :
  strategies_ok hashtable_hash_string hashtable_string_key_cmp len seed.
Proof.
  constructor.
  - intros a b. by eexists.
  - intros a. by apply string_key_cmp_true.
  - intros a b. rewrite !string_key_cmp_true. done.
  - intros a b c. rewrite !string_key_cmp_true. congruence.
  - intros a. by eexists.
  - intros a b Hab%string_key_cmp_true. unfold hashtable_hash_string. simpl.
    by rewrite <- (hash_string_loop_c_str a), Hab, hash_string_loop_c_str.
Qed.


Lemma round_pow_two_16 : platform_ok → 32 ≤ MAX_POW_TWO → round_pow_two 16 = 16.
Proof.
  intros Hok HM.
  by destruct (round_pow_two_least 16 Hok) as (-> & _); [lia..|].
Qed.

Lemma threshold_of_16 : threshold_of 16 Float32.f0_75 = Some 12.
Proof.
  unfold threshold_of. destruct size_bits_cases as [-> | ->]; reflexivity.
Qed.


Lemma hashtable_new_default {V : Type} o :
  platform_ok → 32 ≤ MAX_POW_TWO → all_succeed o →
  hashtable_new (V:=V) o = Some (Some default_table, (alloc (alloc o).2).2)
  ∧ all_succeed (alloc (alloc o).2).2.
Proof.
  intros Hok HM Ho.
  destruct (alloc_all_succeed o Ho) as [Ha1 Ho1].
  destruct (alloc_all_succeed _ Ho1) as [Ha2 Ho2].
  split; [|done].
  unfold hashtable_new, hashtable_new_conf.
  destruct (alloc o) as [b1 o1]; simpl in *. subst b1. simpl.
  destruct (alloc o1) as [b2 o2]; simpl in *. subst b2.
  cbn [hashtable_conf_init conf_initial_capacity conf_load_factor conf_hash
       conf_key_compare conf_key_length conf_hash_seed
       DEFAULT_CAPACITY DEFAULT_LOAD_FACTOR].
  unfold DEFAULT_CAPACITY, DEFAULT_LOAD_FACTOR.
  rewrite round_pow_two_16 by done. rewrite threshold_of_16. done.
Qed.

Lemma default_table_wf {V : Type} :
  platform_ok → 32 ≤ MAX_POW_TWO → wf (default_table (V:=V)).
Proof.
  intros Hok HM.
  destruct (hashtable_new_default (V:=V) [] Hok HM) as [Hnew _];
    [by intros b ?%elem_of_nil|].
  eapply (wf_new_conf hashtable_conf_init); [done | | | | done | ]; simpl.
  - unfold DEFAULT_CAPACITY. lia.
  - left. unfold DEFAULT_CAPACITY. lia.
  - apply string_strategies_ok.
  - by eexists.
Qed.

End StringFacts.

(** ** The [NULL] key *)

Section NullKey.
Context `{Platform}.

(** C3: the scenario on the table of [hashtable_new]. Insertion,
    lookup and removal route the [NULL] key to bucket 0 and answer as
    the scenario says.  [hashtable_contains_key] has no such route: it
    passes [NULL] to the hash function of the table, and the string
    hash reads the bytes its argument points to, so the call has no
    defined result (it is not [true]). *)
Theorem null_key_scenario {V : Type} (x : V) o :
  platform_ok → 32 ≤ MAX_POW_TWO → all_succeed o →
  ∃ t0 o0 t1 o1 t2,
    hashtable_new o = Some (Some t0, o0)
    ∧ hashtable_add t0 None (Some x) o0 = Some (true, t1, o1)
    ∧ hashtable_get t1 None = Some (Some x)
    ∧ hashtable_contains_key t1 None = None
    ∧ hashtable_remove t1 None = Some (Some x, t2)
    ∧ hashtable_get t2 None = Some None.
Proof.
  intros Hok HM Ho.
  destruct (hashtable_new_default (V:=V) o Hok HM Ho) as [Hnew Ho0].
  destruct (alloc_all_succeed _ Ho0) as [Hal _].
  exists default_table, (alloc (alloc o).2).2.
  unfold hashtable_add.
  rewrite grow_if_full_not_full by (simpl; lia). simpl.
  unfold add_null_key, add_at. simpl.
  destruct (alloc (alloc (alloc o).2).2) as [b o1]. simpl in Hal. subst b.
  simpl. do 3 eexists. split; [done|]. split; [reflexivity|].
  split; [reflexivity|]. split; [reflexivity|]. split; reflexivity.
Qed.
End NullKey.

(** ** A string key in the chain of the [NULL] key *)

Section NullKeyChain.
Context `{Platform} {V : Type}.
Implicit Types (x v : option V) (s : string).

Lemma add_null_key_default x o :
  (alloc o).1 = true →
  hashtable_add default_table None x o
  = Some (true, null_key_table x, (alloc o).2).
Proof.
  intros Hal. unfold hashtable_add.
  rewrite grow_if_full_not_full by (simpl; lia). simpl.
  unfold add_null_key, add_at. simpl.
  destruct (alloc o) as [b o1]. simpl in Hal. subst b. simpl.
  unfold null_key_table, set_size, set_buckets. simpl.
  rewrite wrap_small; [done|].
  pose proof int_max_lt_size. unfold INT_MAX in *. lia.
Qed.

Lemma new_then_null_key x o :
  platform_ok → 32 ≤ MAX_POW_TWO → all_succeed o →
  hashtable_new (V:=V) o = Some (Some default_table, (alloc (alloc o).2).2)
  ∧ hashtable_add default_table None x (alloc (alloc o).2).2
    = Some (true, null_key_table x, (alloc (alloc (alloc o).2).2).2).
Proof.
  intros Hok HM Ho.
  destruct (hashtable_new_default (V:=V) o Hok HM Ho) as [Hnew Ho0].
  split; [done|]. apply add_null_key_default.
  by destruct (alloc_all_succeed _ Ho0).
Qed.

(** The bucket of a string key whose hash ends in four zero bits is
    bucket 0 of the sixteen. *)
Lemma null_key_table_index x s h :
  hashtable_hash_string (Some s) KEY_LENGTH_VARIABLE 0 = Some h →
  Z.land h 15 = 0 →
  get_table_index (null_key_table x) (Some s) = Some 0.
Proof.
  intros Hh Hz. injection Hh as Hh.
  unfold get_table_index. simpl. rewrite Hh.
  unfold bucket_of. change (16 - 1) with 15.
  rewrite wrap_small; [by rewrite Hz|].
  pose proof int_max_lt_size. unfold INT_MAX in *. lia.
Qed.

(** C1: on the table of [hashtable_new], once the [NULL] key has been
    inserted, [hashtable_add] of a string key whose bucket is bucket 0
    has no defined result: its loop passes the key of the entry it
    meets, which is [NULL], to the comparator of the table, which is
    [strcmp].  The first insertion of the claim fails there, for every
    value and whatever the allocators answer, and [hashtable_get] of
    such a key is undefined in the same way. *)
Theorem add_walks_into_null_key x s h v o o' :
  platform_ok → 32 ≤ MAX_POW_TWO → all_succeed o →
  hashtable_hash_string (Some s) KEY_LENGTH_VARIABLE 0 = Some h →
  Z.land h 15 = 0 →
  hashtable_new (V:=V) o = Some (Some default_table, (alloc (alloc o).2).2)
  ∧ hashtable_add default_table None x (alloc (alloc o).2).2
    = Some (true, null_key_table x, (alloc (alloc (alloc o).2).2).2)
  ∧ hashtable_add (null_key_table x) (Some s) v o' = None
  ∧ hashtable_get (null_key_table x) (Some s) = None.
Proof.
  intros Hok HM Ho Hh Hz.
  destruct (new_then_null_key x o Hok HM Ho) as [Hnew Hadd].
  split; [done|]. split; [done|].
  pose proof (null_key_table_index x s h Hh Hz) as Hi.
  injection Hh as Hh.
  unfold get_table_index in Hi. simpl in Hi. rewrite Hh in Hi.
  injection Hi as Hi.
  split.
  - unfold hashtable_add.
    rewrite grow_if_full_not_full by (simpl; lia). simpl. rewrite Hh.
    unfold add_at. simpl. rewrite Hi. done.
  - unfold hashtable_get, get_table_index. simpl. rewrite Hh, Hi. done.
Qed.

(** C8: on the same table, a string key whose bucket is bucket 0 is the
    key of no entry, and [hashtable_remove] of it has no defined
    result instead of the result [NULL]: its loop passes the [NULL] key
    of the entry it meets to [strcmp]. *)
Theorem remove_walks_into_null_key x s h o :
  platform_ok → 32 ≤ MAX_POW_TWO → all_succeed o →
  hashtable_hash_string (Some s) KEY_LENGTH_VARIABLE 0 = Some h →
  Z.land h 15 = 0 →
  hashtable_new (V:=V) o = Some (Some default_table, (alloc (alloc o).2).2)
  ∧ hashtable_add default_table None x (alloc (alloc o).2).2
    = Some (true, null_key_table x, (alloc (alloc (alloc o).2).2).2)
  ∧ absent (null_key_table x) (Some s)
  ∧ hashtable_remove (null_key_table x) (Some s) = None.
Proof.
  intros Hok HM Ho Hh Hz.
  destruct (new_then_null_key x o Hok HM Ho) as [Hnew Hadd].
  split; [done|]. split; [done|]. split.
  - intros e He. unfold entries in He. simpl in He.
    apply list_elem_of_singleton in He as ->. intros Hs. exact Hs.
  - unfold hashtable_remove. cbn [is_null].
    rewrite (null_key_table_index x s h Hh Hz). done.
Qed.

(** C9: on the same table [hashtable_remove_all] does what the claim
    says of the size, the chains, the capacity and the threshold, but
    [hashtable_contains_key] of the [NULL] key, which had been
    inserted, has no defined result afterwards instead of the result
    [false]: it passes [NULL] to the string hash. *)
Theorem remove_all_then_contains_null_key x o :
  platform_ok → 32 ≤ MAX_POW_TWO → all_succeed o →
  ∃ t2,
    hashtable_new (V:=V) o = Some (Some default_table, (alloc (alloc o).2).2)
    ∧ hashtable_add default_table None x (alloc (alloc o).2).2
      = Some (true, null_key_table x, (alloc (alloc (alloc o).2).2).2)
    ∧ hashtable_remove_all (null_key_table x) = Some t2
    ∧ hashtable_size t2 = 0
    ∧ buckets t2 = Some (replicate 16 [])
    ∧ hashtable_capacity t2 = hashtable_capacity (null_key_table x)
    ∧ threshold t2 = threshold (null_key_table x)
    ∧ hashtable_contains_key t2 None = None.
Proof.
  intros Hok HM Ho.
  destruct (new_then_null_key x o Hok HM Ho) as [Hnew Hadd].
  eexists. split; [done|]. split; [done|].
  split; [reflexivity|]. simpl.
  split; [by rewrite wrap_0|]. done.
Qed.
End NullKeyChain.

(** ** Removal, and what insertion and removal do to the other keys *)

Section MoreOperations.
Context `{Platform} {K V : Type}.
Implicit Types (t : HashTable K V) (e : TableEntry K V) (k key : option K).
Implicit Types (c : list (TableEntry K V)).
Implicit Types (bs : list (list (TableEntry K V))).

Lemma distinct_keys_tail (cmp : option K → option K → option bool) k ks :
  distinct_keys cmp (k :: ks) →
  distinct_keys cmp ks ∧ ∀ k', k' ∈ ks → ¬ same_by cmp k k'.
Proof. intros Hd. by inversion Hd. Qed.

(** The second half of a removal, on a well-formed table. *)
Lemma remove_at_spec t key i same val t' :
  wf t →
  home t key = Some i →
  tests same (λ e, same_key t key (e_key e)) (entries t) →
  remove_at t i same = Some (val, t') →
  (absent t key ∧ val = None ∧ t' = t)
  ∨ ∃ e rest,
      same_key t key (e_key e) ∧ val = e_value e
      ∧ entries t ≡ₚ e :: rest ∧ entries t' ≡ₚ rest
      ∧ size t' = wrap (size t - 1)
      ∧ wf t' ∧ same_params t t'
      ∧ capacity t' = capacity t ∧ threshold t' = threshold t.
Proof.
  intros Hwf Hhome Htests (bs & c & Hbs & Hc & Hcase)%remove_at_inv.
  destruct (wf_buckets t Hwf) as (bs' & Hbs' & Hlen & Hplace). simplify_eq.
  assert (entries t = concat bs) as Hentt by (unfold entries; by rewrite Hbs).
  assert (tests same (λ e, same_key t key (e_key e)) c) as Htc.
  { eapply tests_sub; [done|]. by eapply chain_in_entries. }
  destruct (chain_remove_spec same _ c Htc)
    as [[Hrm Hno] | (c1 & e & c2 & -> & HP & _ & Hrm)];
    rewrite Hrm in Hcase;
    destruct Hcase as [(? & -> & ->) | (c' & ? & ->)]; simplify_eq.
  - left. split; [|done]. intros e He Hs.
    destruct (same_key_home t bs key i e Hwf Hbs Hhome He) as (c' & Hc' & Hin);
      [by apply wf_same_sym|].
    simplify_eq. by apply (Hno e).
  - right. exists e.
    destruct (concat_insert_perm bs (Z.to_nat i) (c1 ++ e :: c2) (c1 ++ c2) Hc)
      as (rest0 & Hp & Hp').
    exists (c1 ++ c2 ++ rest0).
    assert (concat bs ≡ₚ e :: c1 ++ c2 ++ rest0) as Hpe.
    { rewrite Hp, <- app_assoc. simpl. by rewrite <- Permutation_middle. }
    assert (concat (<[Z.to_nat i := c1 ++ c2]> bs) ≡ₚ c1 ++ c2 ++ rest0) as Hpr.
    { by rewrite Hp', <- app_assoc. }
    split; [done|]. split; [done|]. split; [by rewrite Hentt|].
    split; [unfold entries; simpl; done|]. split; [done|].
    split; [|done].
    constructor; simpl.
    + apply (wf_capacity t Hwf).
    + eexists. split; [done|]. split; [by rewrite length_insert|].
      intros j c0 x Hj Hx.
      destruct (decide (j = Z.to_nat i)) as [-> | Hne].
      * rewrite list_lookup_insert_eq in Hj by (by eapply lookup_lt_Some).
        simplify_eq. eapply Hplace; [done|].
        apply elem_of_app in Hx as [Hx | Hx]; apply elem_of_app; [by left|].
        right. by apply list_elem_of_further.
      * rewrite list_lookup_insert_ne in Hj by done. by eapply Hplace.
    + intros x. unfold entries. simpl. rewrite Hpr. intros Hx.
      apply (wf_cached t Hwf). rewrite Hentt, Hpe. by apply list_elem_of_further.
    + pose proof (wf_distinct t Hwf) as Hd.
      rewrite Hentt in Hd.
      eapply distinct_keys_perm in Hd;
        [| apply (wf_strategies t Hwf) | by rewrite Hpe].
      rewrite fmap_cons in Hd. apply distinct_keys_tail in Hd as [Hd _].
      eapply distinct_keys_perm; [apply (wf_strategies t Hwf) | | exact Hd].
      unfold entries. simpl. by rewrite Hpr.
    + rewrite (wf_size t Hwf), wrap_wrap_sub. f_equal.
      unfold count, entries. simpl. rewrite Hbs, Hpr, Hpe. simpl. lia.
    + apply (wf_strategies t Hwf).
Qed.

(** [hashtable_remove] on a well-formed table: nothing happens when no
    entry has the key; otherwise the entry that has it is unlinked. *)
Lemma hashtable_remove_spec t key :
  platform_ok → wf t → key_ok t key →
  ∃ val t',
    hashtable_remove t key = Some (val, t')
    ∧ ((absent t key ∧ val = None ∧ t' = t)
       ∨ ∃ e rest,
           same_key t key (e_key e) ∧ val = e_value e
           ∧ entries t ≡ₚ e :: rest ∧ entries t' ≡ₚ rest
           ∧ size t' = wrap (size t - 1)
           ∧ wf t' ∧ same_params t t'
           ∧ capacity t' = capacity t ∧ threshold t' = threshold t).
Proof.
  intros Hok Hwf Hkey.
  destruct (home_in_range t key Hok Hwf) as (i & bs & c & Hhome & _ & Hbs & Hc).
  assert (∃ same,
            tests same (λ e, same_key t key (e_key e)) (entries t)
            ∧ hashtable_remove t key = remove_at t i same) as (same & Ht & Heq).
  { destruct key as [a|]; simpl in Hhome, Hkey.
    - exists (λ k, key_cmp t (Some a) k). split; [by apply tests_cmp_flip|].
      unfold hashtable_remove. simpl. by rewrite Hhome.
    - exists (λ k, Some (is_null k)). simplify_eq. split; [|done].
      eapply tests_iff; [|by apply (tests_null t None)].
      intros e. split; by apply wf_same_sym. }
  assert (is_Some (remove_at t i same)) as [[val t'] Hr].
  { unfold remove_at. rewrite Hbs. simpl. rewrite Hc. simpl.
    assert (tests same (λ e, same_key t key (e_key e)) c) as Htc.
    { eapply tests_sub; [done|]. by eapply chain_in_entries. }
    destruct (chain_remove_spec same _ c Htc)
      as [[-> _] | (c1 & e & c2 & _ & _ & _ & ->)]; by eexists. }
  exists val, t'. rewrite Heq. split; [done|].
  by eapply remove_at_spec.
Qed.

(** The answer of [hashtable_get] only depends on the entry that has
    the key. *)
Lemma get_same_entries t t' key :
  platform_ok → wf t → wf t' → same_params t t' →
  key_ok t key → key_ok t' key →
  (∀ e, same_key t (e_key e) key → (e ∈ entries t ↔ e ∈ entries t')) →
  hashtable_get t' key = hashtable_get t key.
Proof.
  intros Hok Hwf Hwf' Hpar Hkey Hkey' Hiff.
  destruct (hashtable_get_spec t key Hok Hwf Hkey)
    as [[-> Hno] | (e & He & Hs & ->)].
  - destruct (hashtable_get_spec t' key Hok Hwf' Hkey')
      as [[-> _] | (e' & He' & Hs' & _)]; [done|].
    apply (same_key_params t t') in Hs'; [|done].
    destruct (Hno e'); [by apply Hiff | done].
  - apply hashtable_get_entry; [done.. | by apply Hiff |].
    by apply (same_key_params t t').
Qed.

(** X1: on a table that satisfies the representation invariant and
    for a key that the comparator can be called on ([key_ok]), a
    successful [hashtable_add] is seen by [hashtable_get], which
    returns the stored value, also when that value is [NULL]; for a key
    other than [NULL], [hashtable_contains_key] then answers [true]. *)
Theorem add_then_get t key val o t' o' :
  platform_ok → wf t → key_ok t key →
  hashtable_add t key val o = Some (true, t', o') →
  hashtable_get t' key = Some val
  ∧ (key ≠ None → hashtable_contains_key t' key = Some true).
Proof.
  intros Hok Hwf Hkey Hadd.
  destruct (hashtable_add_spec t key val o true t' o' Hok Hwf Hkey Hadd)
    as (t1 & o1 & _ & Hwf' & Hpar & _ & _ & Hsafe & Hout).
  assert (key_ok t' key) as Hkey'.
  { destruct key; [|done]. simpl in *. by apply Hsafe. }
  assert (∃ e, e ∈ entries t' ∧ same_key t' (e_key e) key ∧ e_value e = val)
    as (e & He & Hs & Hv).
  { destruct Hout as [(_ & _ & _ & e & rest & Hs & _ & Hp)
                     | [(_ & _ & _ & _ & h & Hp) | (? & _)]]; [| |done].
    - exists (set_value e val). split; [rewrite Hp; apply list_elem_of_here|].
      split; [by apply (same_key_params t t') | done].
    - eexists. split; [rewrite Hp; apply list_elem_of_here|].
      split; [by apply wf_same_refl | done]. }
  split.
  - rewrite (hashtable_get_entry t' key e Hok Hwf' Hkey' He Hs). by rewrite Hv.
  - intros Hne.
    destruct (hashtable_contains_key_spec t' key Hok Hwf' Hne)
      as [[-> _] | [_ Habs]]; [by destruct key | done |].
    destruct (Habs e He). by apply wf_same_sym.
Qed.

(** X2: on a table that satisfies the representation invariant,
    [hashtable_add] of a key that the comparator can be called on,
    whatever it returns and whether or not it grows the table, does not
    change what [hashtable_get] returns for a different key, when the
    comparator can be called on that key in the table before and in the
    table after the call. *)
Theorem add_keeps_other_keys t key val o ok t' o' key' :
  platform_ok → wf t → key_ok t key →
  hashtable_add t key val o = Some (ok, t', o') →
  ¬ same_key t key key' → key_ok t key' → key_ok t' key' →
  hashtable_get t' key' = hashtable_get t key'.
Proof.
  intros Hok Hwf Hkey Hadd Hne Hkey1 Hkey2.
  destruct (hashtable_add_spec t key val o ok t' o' Hok Hwf Hkey Hadd)
    as (t1 & o1 & Hg & Hwf' & Hpar & _ & _ & _ & Hout).
  apply get_same_entries; try done.
  intros e Hs.
  assert (¬ same_key t (e_key e) key) as Hnot.
  { intros Hs'. apply Hne. eapply wf_same_trans; [done | | done].
    by apply wf_same_sym. }
  destruct Hout as [(_ & _ & _ & e0 & rest & Hs0 & Hp & Hp')
                   | [(_ & _ & _ & _ & h & Hp') | (_ & _ & -> & _)]].
  - rewrite Hp, Hp', !elem_of_cons. split.
    + intros [-> | ?]; [done | by right].
    + intros [-> | ?]; [done | by right].
  - rewrite Hp', elem_of_cons. split; [by right|].
    intros [-> | ?]; [|done]. destruct Hnot. by apply wf_same_refl.
  - destruct (wf_grow t o t1 o1 Hok Hwf Hg) as (_ & Hperm & _). by rewrite Hperm.
Qed.


(** X4: on a table that satisfies the representation invariant and
    for a key that the comparator can be called on, a successful
    [hashtable_add] adds one entry when no entry has the key and none
    when an entry has it; the size field follows. *)
Theorem add_counts_new_keys t key val o t' o' :
  platform_ok → wf t → key_ok t key →
  hashtable_add t key val o = Some (true, t', o') →
  (absent t key → count t' = count t + 1
                  ∧ hashtable_size t' = wrap (hashtable_size t + 1))
  ∧ (¬ absent t key → count t' = count t
                      ∧ hashtable_size t' = hashtable_size t).
Proof.
  intros Hok Hwf Hkey Hadd.
  destruct (hashtable_add_spec t key val o true t' o' Hok Hwf Hkey Hadd)
    as (t1 & o1 & _ & _ & _ & _ & _ & _ & Hout).
  unfold hashtable_size, count.
  destruct Hout as [(_ & _ & Hsz & e & rest & Hs & Hp & Hp')
                   | [(_ & _ & Hsz & Hno & h & Hp') | (? & _)]]; [| |done].
  - split; [|by rewrite Hp, Hp'].
    intros Habs. destruct (Habs e); [rewrite Hp; apply list_elem_of_here|].
    by apply wf_same_sym.
  - split; [intros _; rewrite Hp'; simpl; split; [lia | done]|].
    intros Hpresent. destruct Hpresent. intros e He Hs.
    apply (Hno e He). by apply wf_same_sym.
Qed.

(** X5: on a table that satisfies the representation invariant,
    [hashtable_remove] of a key that the comparator can be called on
    and that an entry has returns the value of that entry and unlinks
    it: one entry less, the size field counted down, the invariant
    kept, and afterwards no entry has the key, so that [hashtable_get]
    returns [NULL] for it. *)
Theorem remove_present_key t key e :
  platform_ok → wf t → key_ok t key →
  e ∈ entries t → same_key t key (e_key e) →
  ∃ t',
    hashtable_remove t key = Some (e_value e, t')
    ∧ wf t'
    ∧ count t' = count t - 1
    ∧ hashtable_size t' = wrap (hashtable_size t - 1)
    ∧ hashtable_capacity t' = hashtable_capacity t
    ∧ absent t' key
    ∧ hashtable_get t' key = Some None.
Proof.
  intros Hok Hwf Hkey He Hs.
  destruct (hashtable_remove_spec t key Hok Hwf Hkey)
    as (val & t' & Hr & [(Habs & _) | (e0 & rest & Hs0 & -> & Hp & Hp' & Hsz
                                        & Hwf' & Hpar & Hcap & _)]);
    [by destruct (Habs e He)|].
  assert (e0 = e) as ->.
  { apply (wf_unique t e0 e Hwf); [rewrite Hp; apply list_elem_of_here | done |].
    eapply wf_same_trans; [done | by apply wf_same_sym | done]. }
  assert (absent t' key) as Habs.
  { intros x Hx Hsx. rewrite Hp' in Hx.
    pose proof (wf_distinct t Hwf) as Hd.
    eapply distinct_keys_perm in Hd;
      [| apply (wf_strategies t Hwf) | by rewrite Hp].
    rewrite fmap_cons in Hd. apply distinct_keys_tail in Hd as [_ Hd].
    apply (Hd (e_key x)); [by apply list_elem_of_fmap_2|].
    apply (same_key_params t t') in Hsx; [|done].
    eapply wf_same_trans; [done | by apply wf_same_sym | done]. }
  assert (key_ok t' key) as Hkey'.
  { destruct key; [|done]. simpl in *.
    apply (null_safe_params t t' Hpar); [|done].
    intros x Hx Hk. exists x. split; [|done].
    rewrite Hp. apply list_elem_of_further. by rewrite <- Hp'. }
  exists t'. unfold hashtable_size, hashtable_capacity, count.
  split; [done|]. split; [done|].
  split; [rewrite Hp, Hp'; simpl; lia|]. split; [done|]. split; [done|].
  split; [done|].
  destruct (hashtable_get_spec t' key Hok Hwf' Hkey')
    as [[-> _] | (x & Hx & Hsx & _)]; [done|].
  destruct (Habs x Hx). by apply wf_same_sym.
Qed.

(** X6: on a table that satisfies the representation invariant,
    [hashtable_remove] of a key that the comparator can be called on
    does not change what [hashtable_get] returns for a different key
    that the comparator can be called on. *)
Theorem remove_keeps_other_keys t key val t' key' :
  platform_ok → wf t → key_ok t key →
  hashtable_remove t key = Some (val, t') →
  ¬ same_key t key key' → key_ok t key' →
  hashtable_get t' key' = hashtable_get t key'.
Proof.
  intros Hok Hwf Hkey Hrem Hne Hkey1.
  destruct (hashtable_remove_spec t key Hok Hwf Hkey)
    as (val0 & t0 & Hr & Hcase).
  rewrite Hrem in Hr. simplify_eq.
  destruct Hcase as [(_ & _ & ->) | (e0 & rest & Hs0 & _ & Hp & Hp' & _
                                     & Hwf' & Hpar & _)]; [done|].
  apply get_same_entries; try done.
  - destruct key'; [|done]. simpl in *.
    apply (null_safe_params t t0 Hpar); [|done].
    intros x Hx Hk. exists x. split; [|done].
    rewrite Hp. apply list_elem_of_further. by rewrite <- Hp'.
  - intros e Hs. rewrite Hp, Hp', elem_of_cons. split; [|by right].
    intros [-> | ?]; [|done]. destruct Hne.
    eapply wf_same_trans; [done.. |]. done.
Qed.

(** X7: on a table that satisfies the representation invariant and
    on which the comparator can be called ([null_safe]: no entry has
    the [NULL] key, or the comparator answers [false] for [NULL]),
    [hashtable_contains_key] of a key other than [NULL] answers [true]
    exactly when an entry has the key; in particular it answers [true]
    whenever [hashtable_get] returns a value other than [NULL], and it
    tells a key mapped to [NULL] from a missing key. *)
Theorem contains_key_iff_present t key :
  platform_ok → wf t → key ≠ None → null_safe t →
  ∃ b : bool,
    hashtable_contains_key t key = Some b
    ∧ (b = true ↔ ∃ e, e ∈ entries t ∧ same_key t key (e_key e))
    ∧ (b = false ↔ absent t key)
    ∧ (∀ v, hashtable_get t key = Some (Some v) → b = true).
Proof.
  intros Hok Hwf Hne Hsafe.
  assert (key_ok t key) as Hkey by (by destruct key).
  destruct (hashtable_contains_key_spec t key Hok Hwf Hne Hsafe)
    as [(-> & e & He & Hs) | (-> & Habs)].
  - exists true. split; [done|]. split; [split; [intros _; by exists e | done]|].
    split; [|done]. split; [done|]. intros Habs. by destruct (Habs e He).
  - exists false. split; [done|]. split.
    { split; [done|]. intros (e & He & Hs). by destruct (Habs e He). }
    split; [done|]. intros v Hget.
    destruct (hashtable_get_spec t key Hok Hwf Hkey)
      as [[Hg _] | (e & He & Hs & _)]; [congruence|].
    destruct (Habs e He). by apply wf_same_sym.
Qed.
End MoreOperations.

(** ** Invariants along the calls *)

Section Invariants.
Context `{Platform} {K V : Type}.
Implicit Types (t : HashTable K V) (e : TableEntry K V) (k key : option K).

Lemma wf_remove_all t t' :
  wf t → hashtable_remove_all t = Some t' →
  wf t' ∧ entries t' = [] ∧ size t' = 0 ∧ same_params t t'
  ∧ capacity t' = capacity t ∧ threshold t' = threshold t.
Proof.
  intros Hwf Hr.
  pose proof (size_inv_remove_all t t' (wf_size_inv t Hwf) Hr) as [Hsz _].
  destruct (wf_buckets t Hwf) as (bs & Hbs & Hlen & _).
  apply hashtable_remove_all_inv in Hr as (bs' & Hbs' & ->);
    [|intros ? ?; by simplify_eq].
  rewrite Hbs in Hbs'. injection Hbs' as <-.
  assert (entries (set_size (set_buckets t (replicate (length bs) []))
             (foldl (λ sz c, foldl (λ sz _, wrap (sz - 1)) sz c) (size t) bs))
          = []) as Hent.
  { unfold entries. simpl. apply concat_replicate_nil. }
  split; [|split; [done|]; split; [|done]].
  - constructor.
    + apply (wf_capacity t Hwf).
    + eexists. split; [done|]. split; [by rewrite length_replicate|].
      intros j c e [-> _]%lookup_replicate Hin. by apply elem_of_nil in Hin.
    + intros e. rewrite Hent. by intros ?%elem_of_nil.
    + rewrite Hent. constructor.
    + done.
    + apply (wf_strategies t Hwf).
  - rewrite Hsz. unfold count. rewrite Hent. simpl. apply wrap_0.
Qed.

Lemma wf_safe_step t t' : platform_ok → wf t → safe_step t t' → wf t'.
Proof.
  intros Hok Hwf Hst.
  destruct Hst as [t key val o ok t' o' Hkey Ha | t key val t' Hkey Hr | t t' Hr].
  - by destruct (hashtable_add_spec t key val o ok t' o' Hok Hwf Hkey Ha)
      as (_ & _ & _ & ? & _).
  - destruct (hashtable_remove_spec t key Hok Hwf Hkey)
      as (val0 & t0 & Hr0 & Hcase).
    rewrite Hr in Hr0. simplify_eq.
    by destruct Hcase as [(_ & _ & ->) | (_ & _ & _ & _ & _ & _ & _ & ? & _)].
  - by destruct (wf_remove_all t t' Hwf Hr).
Qed.

(** X8: the representation invariant holds for every table built by
    [hashtable_new_conf] and changed by [hashtable_add],
    [hashtable_remove] and [hashtable_remove_all], under any behaviour
    of the allocators: every entry sits in the bucket that its cached
    hash selects, the cached hash is the hash of its key, no two entries
    have the same key, and the size field counts the entries. *)
Theorem invariant_of_reachable_tables (conf : HashTableConf K) o t0 o' t :
  platform_ok →
  0 ≤ conf_initial_capacity conf →
  conf_initial_capacity conf ≤ 2 ^ 32 ∨ MAX_POW_TWO ≤ conf_initial_capacity conf →
  strategies_ok (conf_hash conf) (conf_key_compare conf)
                (conf_key_length conf) (conf_hash_seed conf) →
  hashtable_new_conf conf o = Some (Some t0, o') →
  is_Some (buckets t0) →
  rtc safe_step t0 t →
  wf t.
Proof.
  intros Hok H0 Hhint Hstr Hnew Hbs Hsteps.
  destruct (wf_new_conf conf o t0 o' Hok H0 Hhint Hstr Hnew Hbs) as (Hwf & _).
  clear Hnew Hbs. induction Hsteps as [|? ? ? Hst _ IH]; [done|].
  apply IH. by eapply wf_safe_step.
Qed.

Lemma add_capacity t key val o ok t' o' :
  platform_ok → cap_inv t →
  hashtable_add t key val o = Some (ok, t', o') →
  (capacity t' = capacity t ∧ threshold t' = threshold t)
  ∨ (threshold t ≤ size t ∧ capacity t ≠ MAX_POW_TWO
     ∧ capacity t' = 2 * capacity t ∧ capacity t' ≤ MAX_POW_TWO
     ∧ Float32.to_size_t size_bits
         (Float32.mul (load_factor t) (Float32.of_size_t (capacity t')))
       = Some (threshold t')).
Proof.
  intros Hok Hinv (t1 & o1 & i & same & h & Hg & Ha & _)%hashtable_add_inv.
  assert (capacity t' = capacity t1 ∧ threshold t' = threshold t1) as [Hc Ht].
  { apply add_at_inv in Ha as (bs & c & _ & _ & Hcase).
    destruct Hcase as [(c' & _ & _ & _ & ->)
                      | (_ & [(_ & -> & _) | (_ & _ & ->)])]; done. }
  rewrite Hc, Ht.
  apply grow_if_full_inv in Hg
    as [-> | (Hfull & Hne & old & new & th & _ & _ & Hth & ->)]; [by left|].
  right. destruct (double_capacity t Hok Hinv Hne) as (n & Hn & _ & Hcap & Hdbl & Hle).
  simpl. rewrite Hdbl in Hth |- *. rewrite Hcap, Z.pow_add_r by lia.
  rewrite Z.pow_add_r in Hle, Hth by lia.
  repeat split; try done; lia.
Qed.

Lemma remove_capacity t key val t' :
  hashtable_remove t key = Some (val, t') →
  capacity t' = capacity t ∧ threshold t' = threshold t
  ∧ load_factor t' = load_factor t.
Proof.
  intros (i & same & Hr & _)%hashtable_remove_inv.
  apply remove_at_inv in Hr as (bs & c & _ & _ & Hcase).
  destruct Hcase as [(_ & _ & ->) | (c' & _ & ->)]; done.
Qed.

Lemma remove_all_capacity t t' :
  hashtable_remove_all t = Some t' →
  capacity t' = capacity t ∧ threshold t' = threshold t
  ∧ load_factor t' = load_factor t.
Proof.
  unfold hashtable_remove_all. intros Hr.
  destruct (buckets t); simpl in Hr; [|done].
  destruct (INT_MAX <? _); [done|].
  destruct (_ <? _)%nat; simplify_eq. done.
Qed.

(** X9: the capacity only changes in [hashtable_add], only when the
    size has reached the threshold, and then it doubles and stays at
    most [MAX_POW_TWO]; a table whose capacity is [MAX_POW_TWO] never
    grows, and [hashtable_remove] and [hashtable_remove_all] never
    change the capacity or the threshold: a table does not shrink. *)
Theorem capacity_changes_by_doubling t :
  platform_ok → cap_inv t →
  (∀ key val o ok t' o',
      hashtable_add t key val o = Some (ok, t', o') →
      ((hashtable_capacity t' = hashtable_capacity t
        ∧ threshold t' = threshold t)
       ∨ (threshold t ≤ hashtable_size t
          ∧ hashtable_capacity t' = 2 * hashtable_capacity t))
      ∧ hashtable_capacity t' ≤ MAX_POW_TWO
      ∧ (hashtable_capacity t = MAX_POW_TWO →
         hashtable_capacity t' = MAX_POW_TWO))
  ∧ (∀ key val t',
        hashtable_remove t key = Some (val, t') →
        hashtable_capacity t' = hashtable_capacity t
        ∧ threshold t' = threshold t)
  ∧ (∀ t',
        hashtable_remove_all t = Some t' →
        hashtable_capacity t' = hashtable_capacity t
        ∧ threshold t' = threshold t).
Proof.
  intros Hok Hinv. unfold hashtable_capacity, hashtable_size.
  split; [|split].
  - intros key val o ok t' o' Ha.
    destruct (add_capacity t key val o ok t' o' Hok Hinv Ha)
      as [[Hc Ht] | (Hfull & Hne & Hc & Hle & _)].
    + split; [by left|]. rewrite Hc.
      destruct Hinv as (n & _ & _ & Hle). done.
    + split; [by right|]. done.
  - intros key val t' Hr. by destruct (remove_capacity t key val t' Hr) as (? & ? & _).
  - intros t' Hr. by destruct (remove_all_capacity t t' Hr) as (? & ? & _).
Qed.

Lemma Float32_mul_comm x y : Float32.mul x y = Float32.mul y x.
Proof.
  unfold Float32.mul, SFmul.
  destruct x as [sx|sx| |sx mx ex], y as [sy|sy| |sy my ey];
    try reflexivity; try (by rewrite xorb_comm).
  by rewrite xorb_comm, Pos.mul_comm, Z.add_comm.
Qed.

Lemma threshold_inv_step t t' :
  threshold_inv t → step t t' → threshold_inv t'.
Proof.
  intros Hth Hst. unfold threshold_inv, threshold_of in *.
  destruct Hst as [t key val o ok t' o' Ha | t key val t' Hr | t t' Hr].
  - apply hashtable_add_inv in Ha as (t1 & o1 & i & same & h & Hg & Ha & _).
    assert (capacity t' = capacity t1 ∧ threshold t' = threshold t1
            ∧ load_factor t' = load_factor t1) as (-> & -> & ->).
    { apply add_at_inv in Ha as (bs & c & _ & _ & Hcase).
      destruct Hcase as [(c' & _ & _ & _ & ->)
                        | (_ & [(_ & -> & _) | (_ & _ & ->)])]; done. }
    apply grow_if_full_inv in Hg
      as [-> | (_ & _ & old & new & th & _ & _ & Hnew & ->)]; [done|].
    simpl. by rewrite Float32_mul_comm.
  - destruct (remove_capacity t key val t' Hr) as (-> & -> & ->). done.
  - destruct (remove_all_capacity t t' Hr) as (-> & -> & ->). done.
Qed.

(** X10: in every table built by [hashtable_new_conf] and changed by
    [hashtable_add], [hashtable_remove] and [hashtable_remove_all], the
    threshold is the product of the capacity and the load factor,
    computed in [float] and converted to [size_t]: the product written
    at creation and the one written by [resize] agree. *)
Theorem threshold_of_reachable_tables t :
  reachable t → threshold_inv t.
Proof.
  intros (conf & o & t0 & o' & Hnew & Hsteps).
  assert (threshold_inv t0) as Hth.
  { unfold hashtable_new_conf in Hnew.
    destruct (alloc o) as [[] o1]; simpl in Hnew; [|by simplify_eq].
    destruct (alloc o1) as [got o2].
    destruct (threshold_of _ _) as [th|] eqn:Hth; simpl in Hnew; [|done].
    simplify_eq. done. }
  clear Hnew. induction Hsteps as [|? ? ? Hst _ IH]; [done|].
  apply IH. by eapply threshold_inv_step.
Qed.


(** X12: a table that [hashtable_new_conf] returns with its bucket
    array allocated is empty: its size is 0, [hashtable_get] returns
    [NULL] and [hashtable_remove] returns [NULL] and changes nothing
    for every key, and [hashtable_contains_key] answers [false] for
    every key other than [NULL]. *)
Theorem new_table_is_empty (conf : HashTableConf K) o t o' :
  platform_ok →
  0 ≤ conf_initial_capacity conf →
  conf_initial_capacity conf ≤ 2 ^ 32 ∨ MAX_POW_TWO ≤ conf_initial_capacity conf →
  strategies_ok (conf_hash conf) (conf_key_compare conf)
                (conf_key_length conf) (conf_hash_seed conf) →
  hashtable_new_conf conf o = Some (Some t, o') →
  is_Some (buckets t) →
  hashtable_size t = 0
  ∧ ∀ key,
      hashtable_get t key = Some None
      ∧ hashtable_remove t key = Some (None, t)
      ∧ (key ≠ None → hashtable_contains_key t key = Some false).
Proof.
  intros Hok H0 Hhint Hstr Hnew Hbs.
  destruct (wf_new_conf conf o t o' Hok H0 Hhint Hstr Hnew Hbs)
    as (Hwf & Hent & Hsz).
  split; [done|]. intros key.
  assert (null_safe t) as Hsafe.
  { right. intros e. rewrite Hent. by intros ?%elem_of_nil. }
  assert (key_ok t key) as Hkey by (by destruct key).
  split; [|split].
  - destruct (hashtable_get_spec t key Hok Hwf Hkey)
      as [[-> _] | (e & He & _)]; [done|].
    rewrite Hent in He. by apply elem_of_nil in He.
  - destruct (hashtable_remove_spec t key Hok Hwf Hkey)
      as (val & t' & Hr & [(_ & -> & ->) | (e & rest & _ & _ & Hp & _)]); [done|].
    rewrite Hent in Hp. by apply Permutation_nil_cons in Hp.
  - intros Hne.
    destruct (hashtable_contains_key_spec t key Hok Hwf Hne Hsafe)
      as [(_ & e & He & _) | [-> _]]; [|done].
    rewrite Hent in He. by apply elem_of_nil in He.
Qed.

Lemma round_pow_two_fix (p : Z) :
  platform_ok → 0 ≤ p ≤ 32 → 2 ^ p ≤ MAX_POW_TWO → round_pow_two (2 ^ p) = 2 ^ p.
Proof.
  intros Hok Hp Hle.
  destruct (Z.eq_dec (2 ^ p) MAX_POW_TWO) as [Heq | Hne].
  { rewrite round_pow_two_capped by lia. lia. }
  destruct (Z.eq_dec p 0) as [-> | Hp0].
  { apply round_pow_two_one. simpl in *. lia. }
  assert (2 ≤ 2 ^ p) as H2.
  { change 2 with (2 ^ 1) at 1. apply Z.pow_le_mono_r; lia. }
  destruct (round_pow_two_least (2 ^ p) Hok) as (Hr & _); [lia | lia | |].
  { apply Z.pow_le_mono_r; lia. }
  rewrite Hr. f_equal.
  assert (Z.log2 (2 ^ p - 1) = p - 1); [|lia].
  replace (2 ^ p - 1) with (Z.pred (2 ^ p)) by lia.
  rewrite Z.log2_pred_pow2 by lia. lia.
Qed.

(** X13: [round_pow_two] leaves its own results alone: rounding a
    rounded capacity changes nothing, so that a table created with the
    capacity of another table as its hint has the same capacity. *)
Theorem round_pow_two_idempotent n :
  platform_ok → 0 ≤ n → n ≤ 2 ^ 32 ∨ MAX_POW_TWO ≤ n →
  round_pow_two (round_pow_two n) = round_pow_two n.
Proof.
  intros Hok H0 Hhint.
  destruct Hok as (m & Hm & HM). pose proof (pow2_lt_size m Hm) as Hmx.
  assert (platform_ok) as Hok by (by exists m).
  destruct (Z_lt_le_dec n MAX_POW_TWO) as [Hlt | Hge].
  2:{ rewrite (round_pow_two_capped n Hge). apply round_pow_two_capped. lia. }
  destruct Hhint as [Hhint | ?]; [|lia].
  destruct (Z.eq_dec n 0) as [-> | Hn0].
  { rewrite round_pow_two_zero by lia.
    apply (round_pow_two_fix 1 Hok); [lia|]. simpl. lia. }
  destruct (Z.eq_dec n 1) as [-> | Hn1].
  { rewrite round_pow_two_one by lia. apply round_pow_two_one. lia. }
  destruct (round_pow_two_least n Hok) as (Hr & _ & Hle); [lia..|].
  rewrite Hr in Hle |- *.
  assert (Z.log2 (n - 1) < 32).
  { apply Z.log2_lt_pow2; lia. }
  pose proof (Z.log2_nonneg (n - 1)).
  apply round_pow_two_fix; [done | lia | done].
Qed.
End Invariants.

(** ** The iterator and the traversals *)

Section Iteration.
Context `{Platform} {K V : Type}.
Implicit Types (t : HashTable K V) (e : TableEntry K V) (k key : option K).
Implicit Types (iter : HashTableIter K V) (c : list (TableEntry K V)).
Implicit Types (bs : list (list (TableEntry K V))).

Lemma first_chain_some bs (i : Z) :
  concat bs ≠ [] →
  ∃ (n : nat) c,
    first_chain bs i = Some (i + Z.of_nat n, c)
    ∧ c ≠ [] ∧ bs !! n = Some c
    ∧ concat bs = c ++ concat (drop (S n) bs)
    ∧ concat (take n bs) = [].
Proof.
  revert i. induction bs as [|c bs IH]; intros i Hne; [done|].
  destruct c as [|e c].
  - destruct (IH (i + 1)) as (n & c' & Hf & Hc' & Hl & Hcat & Htake); [done|].
    exists (S n), c'. simpl. rewrite Hf.
    split; [f_equal; f_equal; lia|]. done.
  - exists 0%nat, (e :: c). simpl. rewrite Z.add_0_r, drop_0.
    repeat split; done.
Qed.

Lemma first_chain_bound bs (i j : Z) c :
  first_chain bs i = Some (j, c) → i ≤ j < i + Z.of_nat (length bs).
Proof.
  revert i. induction bs as [|c0 bs IH]; intros i Hf; simpl in *; [done|].
  destruct c0 as [|e c0].
  - apply IH in Hf. lia.
  - simplify_eq. lia.
Qed.

(** The loop of [hashtable_iter_next] on a table whose bucket array has
    [capacity] slots, [capacity] being an [int] value. *)
Lemma iter_scan_spec t bs (i : nat) :
  buckets t = Some bs → length bs = Z.to_nat (capacity t) →
  capacity t ≤ INT_MAX → (i < length bs)%nat →
  iter_scan t (Z.of_nat i + 1)
  = Some (first_chain (drop (S i) bs) (Z.of_nat i + 1)).
Proof.
  intros Hbs Hlen Hcap Hi. unfold iter_scan.
  pose proof int_max_lt_size.
  destruct (Z.ltb_spec INT_MAX (Z.of_nat i + 1)); [lia|].
  rewrite wrap_small by lia.
  destruct (Z.ltb_spec (Z.of_nat i + 1) (capacity t)) as [Hlt | Hge].
  - destruct (Z.ltb_spec (Z.of_nat i + 1) 0) as [|_]; [lia|].
    rewrite Hbs. simpl. rewrite <- Hlen, firstn_all.
    replace (Z.to_nat (Z.of_nat i + 1)) with (S i) by lia.
    destruct (first_chain _ _) as [[j c]|] eqn:Hf.
    + apply first_chain_bound in Hf. rewrite length_drop in Hf.
      destruct (Z.ltb_spec INT_MAX j); [lia | done].
    + destruct (Z.ltb_spec INT_MAX (capacity t)); [lia|].
      by rewrite Nat.ltb_irrefl.
  - rewrite drop_ge by lia. done.
Qed.

Lemma iter_yields_step iter p iter1 e es iter' :
  hashtable_iter_next iter = Some (Some p, iter1) →
  head p = Some e →
  iter_yields iter1 es iter' →
  iter_yields iter (e :: es) iter'.
Proof. intros Hn Hp Hy. by exists p, iter1. Qed.

(** From a position inside the table, the calls of
    [hashtable_iter_next] return the entries that are left, but for the
    last one: the call that reaches it ends without a [return]. *)
Lemma iter_pass t bs :
  buckets t = Some bs → length bs = Z.to_nat (capacity t) →
  capacity t ≤ INT_MAX →
  ∀ es (i : nat) c pv last,
    (i < length bs)%nat →
    c ++ concat (drop (S i) bs) = es ++ [last] → c ≠ [] →
    ∃ iter' iter'',
      iter_yields {| table := t; bucket_index := Z.of_nat i;
                     next_entry := c; prev_entry := pv |} es iter'
      ∧ hashtable_iter_has_next iter' = true
      ∧ hashtable_iter_next iter' = Some (None, iter'')
      ∧ hashtable_iter_has_next iter'' = false
      ∧ head (prev_entry iter'') = Some last
      ∧ table iter'' = t.
Proof.
  intros Hbs Hlen Hcap es.
  induction es as [|e es IH]; intros i c pv last Hi Hrest Hc.
  - destruct c as [|x c]; [done|]. simpl in Hrest.
    injection Hrest as -> Hnil. apply app_eq_nil in Hnil as [-> Hnil].
    eexists _, _. split; [reflexivity|]. split; [done|].
    unfold hashtable_iter_next. simpl.
    rewrite (iter_scan_spec t bs i) by done.
    rewrite first_chain_empty by done. simpl. done.
  - destruct c as [|x c]; [done|]. simpl in Hrest.
    injection Hrest as -> Hrest.
    destruct c as [|y c].
    + simpl in Hrest.
      destruct (first_chain_some (drop (S i) bs) (Z.of_nat i + 1))
        as (n & c2 & Hf & Hc2 & Hl & Hcat & _).
      { rewrite Hrest. by destruct es. }
      rewrite lookup_drop in Hl.
      rewrite drop_drop in Hcat.
      replace (S i + S n)%nat with (S (S i + n)) in Hcat by lia.
      assert (Z.of_nat (S i + n) = Z.of_nat i + 1 + Z.of_nat n) as Hidx by lia.
      destruct (IH (S i + n)%nat c2 [e] last) as (iter' & iter'' & Hy & Hrem);
        [by eapply lookup_lt_Some | by rewrite <- Hcat | done |].
      rewrite Hidx in Hy.
      exists iter', iter''. split; [|done].
      eapply (iter_yields_step _ [e]); [|done|exact Hy].
      unfold hashtable_iter_next. simpl next_entry. cbv iota.
      simpl table. simpl bucket_index.
      rewrite (iter_scan_spec t bs i) by done. rewrite Hf. done.
    + destruct (IH i (y :: c) (e :: y :: c) last) as (iter' & iter'' & Hy & Hrem);
        [done.. |].
      exists iter', iter''. split; [|done].
      by eapply (iter_yields_step _ (e :: y :: c)); [|done|exact Hy].
Qed.

Lemma iter_init_spec t bs iter0 :
  buckets t = Some bs → length bs = Z.to_nat (capacity t) →
  capacity t ≤ INT_MAX →
  concat bs ≠ [] →
  ∃ (n : nat) e c,
    hashtable_iter_init iter0 t
    = Some {| table := t; bucket_index := Z.of_nat n;
              next_entry := e :: c; prev_entry := [] |}
    ∧ bs !! n = Some (e :: c)
    ∧ concat bs = (e :: c) ++ concat (drop (S n) bs)
    ∧ concat (take n bs) = [].
Proof.
  intros Hbs Hlen Hint Hne.
  destruct (first_chain_some bs 0 Hne) as (n & c & Hf & Hc & Hl & Hcat & Htake).
  destruct c as [|e c]; [done|].
  exists n, e, c. unfold hashtable_iter_init. rewrite Hbs. simpl.
  rewrite <- Hlen, firstn_all, Hf.
  pose proof (lookup_lt_Some _ _ _ Hl).
  destruct (Z.ltb_spec INT_MAX (0 + Z.of_nat n)); [lia|].
  done.
Qed.

(** X14: on a table that has entries, satisfies the representation
    invariant and has at most [INT_MAX] buckets (so that the [int]
    counter of the loop stays defined), [hashtable_iter_init] overwrites
    whatever the structure held: the index is that of the first bucket
    with a chain, all buckets before it being empty, the next entry is
    the head of that chain, which is the first entry in bucket order,
    and no entry is recorded as returned, so that
    [hashtable_iter_has_next] answers [true] and a call of
    [hashtable_iter_remove] before the first [hashtable_iter_next]
    reads through a [NULL] pointer. *)
Theorem iter_init_finds_first_entry t iter0 :
  wf t → hashtable_capacity t ≤ INT_MAX → entries t ≠ [] →
  ∃ iter bs (n : nat) e c,
    hashtable_iter_init iter0 t = Some iter
    ∧ table iter = t
    ∧ buckets t = Some bs
    ∧ bucket_index iter = Z.of_nat n
    ∧ bs !! n = Some (e :: c)
    ∧ (∀ j c', (j < n)%nat → bs !! j = Some c' → c' = [])
    ∧ next_entry iter = e :: c
    ∧ head (entries t) = Some e
    ∧ prev_entry iter = []
    ∧ hashtable_iter_has_next iter = true
    ∧ hashtable_iter_remove iter = None.
Proof.
  intros Hwf Hint Hne.
  destruct (wf_buckets t Hwf) as (bs & Hbs & Hlen & _).
  assert (entries t = concat bs) as Hent by (unfold entries; by rewrite Hbs).
  rewrite Hent in Hne.
  destruct (iter_init_spec t bs iter0 Hbs Hlen Hint Hne)
    as (n & e & c & Hinit & Hl & Hcat & Htake).
  eexists _, bs, n, e, c. split; [exact Hinit|]. simpl.
  repeat split; try done.
  - intros j c' Hj Hc'.
    assert (take n bs !! j = Some c') as Hin by (by rewrite lookup_take_lt).
    apply list_elem_of_lookup_2 in Hin.
    destruct c' as [|x c']; [done|].
    assert (x ∈ concat (take n bs)) as Hx.
    { apply elem_of_concat. exists (x :: c'). split; [done|]. apply list_elem_of_here. }
    rewrite Htake in Hx. by apply elem_of_nil in Hx.
  - by rewrite Hent, Hcat.
Qed.

(** X15: a pass over a table that satisfies the representation
    invariant and has at most [INT_MAX] buckets with
    [hashtable_iter_has_next] and [hashtable_iter_next] returns the entries in bucket order, chain
    after chain, each one once, up to the last but one; for the last
    entry [hashtable_iter_has_next] answers [true] and the call of
    [hashtable_iter_next] runs its loop to the end of the table and
    ends without a [return] statement, after which
    [hashtable_iter_has_next] answers [false]. *)
Theorem iter_pass_misses_last_entry t iter0 es last :
  wf t → hashtable_capacity t ≤ INT_MAX → entries t = es ++ [last] →
  ∃ iter iter' iter'',
    hashtable_iter_init iter0 t = Some iter
    ∧ iter_yields iter es iter'
    ∧ hashtable_iter_has_next iter' = true
    ∧ hashtable_iter_next iter' = Some (None, iter'')
    ∧ hashtable_iter_has_next iter'' = false
    ∧ head (prev_entry iter'') = Some last.
Proof.
  intros Hwf Hint Hes.
  destruct (wf_buckets t Hwf) as (bs & Hbs & Hlen & _).
  assert (entries t = concat bs) as Hent by (unfold entries; by rewrite Hbs).
  assert (concat bs ≠ []) as Hne.
  { rewrite <- Hent, Hes. by destruct es. }
  destruct (iter_init_spec t bs iter0 Hbs Hlen Hint Hne)
    as (n & e & c & Hinit & Hl & Hcat & _).
  destruct (iter_pass t bs Hbs Hlen Hint es n (e :: c) [] last)
    as (iter' & iter'' & Hy & Hn & Hnext & Hend & Hlast & _);
    [by eapply lookup_lt_Some | by rewrite <- Hcat, <- Hent | done |].
  eexists _, iter', iter''. split; [exact Hinit|]. done.
Qed.

(** X16: on a table that satisfies the representation invariant,
    after a call of [hashtable_iter_next] that moved over an entry of
    the table whose key the comparator can be called on,
    [hashtable_iter_remove] removes that entry and no other: the
    entries that are left are the others, the size is counted down, the
    invariant holds, and the entry that the iterator moves to next is
    not touched. *)
Theorem iter_remove_removes_returned_entry iter e c r iter1 :
  platform_ok → wf (table iter) →
  next_entry iter = e :: c → e ∈ entries (table iter) →
  key_ok (table iter) (e_key e) →
  hashtable_iter_next iter = Some (r, iter1) →
  ∃ iter2,
    hashtable_iter_remove iter1 = Some iter2
    ∧ entries (table iter) ≡ₚ e :: entries (table iter2)
    ∧ hashtable_size (table iter2) = wrap (hashtable_size (table iter) - 1)
    ∧ wf (table iter2)
    ∧ next_entry iter2 = next_entry iter1
    ∧ bucket_index iter2 = bucket_index iter1.
Proof.
  intros Hok Hwf Hnext He Hkey Hstep.
  assert (table iter1 = table iter ∧ prev_entry iter1 = e :: c) as [Ht Hp].
  { unfold hashtable_iter_next in Hstep. rewrite Hnext in Hstep.
    destruct c as [|y c]; [|by simplify_eq].
    destruct (iter_scan _ _) as [[[i c2]|]|]; simpl in Hstep; by simplify_eq. }
  destruct (hashtable_remove_spec (table iter) (e_key e) Hok Hwf Hkey)
    as (val & t' & Hr & [(Habs & _) | (e0 & rest & Hs & _ & Hperm & Hperm'
                                        & Hsz & Hwf' & _)]).
  { destruct (Habs e He). by apply wf_same_refl. }
  assert (e0 = e) as ->.
  { apply (wf_unique (table iter) e0 e Hwf);
      [rewrite Hperm; apply list_elem_of_here | done | by apply wf_same_sym]. }
  unfold hashtable_iter_remove. rewrite Hp, Ht, Hr. simpl.
  eexists. split; [done|]. simpl.
  split; [by rewrite Hperm, Hperm'|]. done.
Qed.

Lemma foldl_concat {A B : Type} (f : A → B → A) (l : list (list B)) (a : A) :
  foldl (λ a x, foldl f a x) a l = foldl f a (concat l).
Proof.
  revert a. induction l as [|x l IH]; intros a; simpl; [done|].
  by rewrite foldl_app, IH.
Qed.

Lemma foldl_note {A B : Type} (g : A → B) (l : list A) (log : list B) :
  foldl (λ s x, note (g x) s) log l = log ++ (g <$> l).
Proof.
  revert log. induction l as [|x l IH]; intros log; simpl.
  - by rewrite app_nil_r.
  - rewrite IH. unfold note. by rewrite <- app_assoc.
Qed.

(** X17: on a table that satisfies the representation invariant and
    has at most [INT_MAX] buckets, [hashtable_foreach_key] and
    [hashtable_foreach_value] call [op] once for each entry, in bucket
    order, chain after chain: as many calls as the table has entries,
    the two functions in the same order, so that the value of the
    [i]-th call of the one is what [hashtable_get] returns for the key
    of the [i]-th call of the other, when that key is one the
    comparator can be called on. *)
Theorem foreach_visits_each_entry t :
  platform_ok → wf t → hashtable_capacity t ≤ INT_MAX →
  (∀ (S : Type) (op : option K → S → S) (s : S),
      hashtable_foreach_key t op s
      = Some (foldl (λ s e, op (e_key e) s) s (entries t)))
  ∧ (∀ (S : Type) (op : option V → S → S) (s : S),
      hashtable_foreach_value t op s
      = Some (foldl (λ s e, op (e_value e) s) s (entries t)))
  ∧ ∃ ks vs,
      hashtable_foreach_key t note [] = Some ks
      ∧ hashtable_foreach_value t note [] = Some vs
      ∧ Z.of_nat (length ks) = count t
      ∧ Z.of_nat (length vs) = count t
      ∧ ∀ (i : nat) k v,
          ks !! i = Some k → vs !! i = Some v → key_ok t k →
          hashtable_get t k = Some v.
Proof.
  intros Hok Hwf Hint. unfold hashtable_capacity in Hint.
  destruct (wf_buckets t Hwf) as (bs & Hbs & Hlen & _).
  assert (entries t = concat bs) as Hent by (unfold entries; by rewrite Hbs).
  assert ((INT_MAX <? capacity t) = false) as Hi by (apply Z.ltb_ge; lia).
  assert (∀ (S : Type) (op : option K → S → S) (s : S),
            hashtable_foreach_key t op s
            = Some (foldl (λ s e, op (e_key e) s) s (entries t))) as Hk.
  { intros S op s. unfold hashtable_foreach_key. rewrite Hbs. simpl.
    rewrite Hi, <- Hlen, Nat.ltb_irrefl, firstn_all, foldl_concat.
    by rewrite Hent. }
  assert (∀ (S : Type) (op : option V → S → S) (s : S),
            hashtable_foreach_value t op s
            = Some (foldl (λ s e, op (e_value e) s) s (entries t))) as Hv.
  { intros S op s. unfold hashtable_foreach_value. rewrite Hbs. simpl.
    rewrite Hi, <- Hlen, Nat.ltb_irrefl, firstn_all, foldl_concat.
    by rewrite Hent. }
  split; [done|]. split; [done|].
  exists (e_key <$> entries t), (e_value <$> entries t).
  split; [by rewrite Hk, (foldl_note e_key)|].
  split; [by rewrite Hv, (foldl_note e_value)|].
  unfold count. rewrite !length_fmap. split; [done|]. split; [done|].
  intros i k v Hik Hiv Hkey.
  apply list_lookup_fmap_Some in Hik as (e & -> & He).
  apply list_lookup_fmap_Some in Hiv as (e' & -> & He').
  assert (e' = e) as -> by congruence.
  apply hashtable_get_entry; try done.
  - by eapply list_elem_of_lookup_2.
  - by apply wf_same_refl.
Qed.
End Iteration.

(** ** Insertion followed by removal *)

Section RoundTrip.
Context `{Platform} {K V : Type}.
Implicit Types (t : HashTable K V) (e : TableEntry K V) (k key : option K).

(** X18: on a table that satisfies the representation invariant, a
    successful [hashtable_add] of a key that the comparator can be
    called on and that no entry has, followed by [hashtable_remove] of
    the same key, gives back the value that was stored and a table with
    the entries and the size it had before the insertion, in which
    [hashtable_get] answers as before for every key that the comparator
    can be called on; the capacity may have doubled on the way. *)
Theorem add_then_remove t key val o t' o' :
  platform_ok → wf t → key_ok t key → absent t key →
  hashtable_add t key val o = Some (true, t', o') →
  ∃ t'',
    hashtable_remove t' key = Some (val, t'')
    ∧ entries t'' ≡ₚ entries t
    ∧ hashtable_size t'' = hashtable_size t
    ∧ wf t''
    ∧ ∀ key', key_ok t key' → hashtable_get t'' key' = hashtable_get t key'.
Proof.
  intros Hok Hwf Hkey Habs Hadd.
  destruct (hashtable_add_spec t key val o true t' o' Hok Hwf Hkey Hadd)
    as (t1 & o1 & _ & Hwf' & Hpar & _ & _ & Hsafe & Hout).
  assert (key_ok t' key) as Hkey'.
  { destruct key; [|done]. simpl in *. by apply Hsafe. }
  destruct Hout as [(_ & _ & _ & e & rest & Hs & Hp & _)
                   | [(_ & _ & Hsz & _ & h & Hp') | (? & _)]]; [| |done].
  { destruct (Habs e); [rewrite Hp; apply list_elem_of_here|].
    by apply wf_same_sym. }
  set (new := {| e_key := key; e_value := val; e_hash := h |}) in *.
  assert (new ∈ entries t') as Hnew by (rewrite Hp'; apply list_elem_of_here).
  destruct (hashtable_remove_spec t' key Hok Hwf' Hkey')
    as (v & t'' & Hr & [(Habs' & _) | (e0 & rest & Hs0 & -> & Hp0 & Hp0'
                                        & Hsz0 & Hwf'' & Hpar' & _)]).
  { destruct (Habs' new Hnew). by apply wf_same_refl. }
  assert (e0 = new) as ->.
  { apply (wf_unique t' e0 new Hwf'); [rewrite Hp0; apply list_elem_of_here | done |].
    by apply wf_same_sym. }
  assert (entries t'' ≡ₚ entries t) as Hent.
  { rewrite Hp0'. apply (Permutation_cons_inv (a := new)). by rewrite <- Hp0, Hp'. }
  assert (same_params t t'') as Hpar''.
  { destruct Hpar as (? & ? & ? & ? & ?), Hpar' as (? & ? & ? & ? & ?).
    repeat split; congruence. }
  exists t''. unfold hashtable_size.
  split; [done|]. split; [done|]. split.
  { rewrite Hsz0, Hsz, wrap_wrap_sub.
    replace (size t + 1 - 1) with (size t) by lia.
    rewrite (wf_size t Hwf). apply wrap_idemp. }
  split; [done|].
  intros key' Hk. apply get_same_entries; try done.
  - destruct key'; [|done]. simpl in *.
    apply (null_safe_params t t'' Hpar''); [|done].
    intros x Hx Hnone. exists x. by rewrite <- Hent.
  - intros x _. by rewrite Hent.
Qed.

(** X19: [get_table_index] of a key on which the hash function is
    defined is an index inside the bucket array: it is the hash modulo
    the capacity, the capacity being a power of two. *)
Theorem table_index_in_bounds t key h :
  platform_ok → cap_inv t →
  hash t key (key_len t) (hash_seed t) = Some h →
  ∃ i, get_table_index t key = Some i
       ∧ 0 ≤ i < hashtable_capacity t
       ∧ i = h `mod` hashtable_capacity t.
Proof.
  intros Hok Hinv Hh.
  destruct (cap_inv_bits t Hok Hinv) as (n & Hn & Hcap).
  unfold get_table_index, hashtable_capacity. rewrite Hh. simpl.
  eexists. split; [done|]. rewrite Hcap.
  split; [by apply bucket_of_lt | by apply bucket_of_pow2].
Qed.
End RoundTrip.

(** ** The bundled strategies *)

Section Strategies.
Context `{Platform}.

(** X20: the string strategies go by the characters before the
    terminator: [hashtable_string_key_cmp] answers [true] exactly for
    two strings with the same characters, and two such strings have the
    same [hashtable_hash_string], whatever the length and the seed;
    neither function has a result for [NULL]. *)
Theorem string_strategies_by_content s1 s2 len seed :
  is_Some (hashtable_string_key_cmp (Some s1) (Some s2))
  ∧ (hashtable_string_key_cmp (Some s1) (Some s2) = Some true
     ↔ c_str s1 = c_str s2)
  ∧ (c_str s1 = c_str s2 →
     hashtable_hash_string (Some s1) len seed
     = hashtable_hash_string (Some s2) len seed)
  ∧ hashtable_string_key_cmp None (Some s2) = None
  ∧ hashtable_string_key_cmp (Some s1) None = None
  ∧ hashtable_hash_string None len seed = None.
Proof.
  split; [by eexists|]. split; [apply string_key_cmp_true|].
  split; [|done].
  intros Heq. unfold hashtable_hash_string. simpl.
  by rewrite <- (hash_string_loop_c_str s1), <- (hash_string_loop_c_str s2), Heq.
Qed.

Lemma low_byte_eq (key key' m i : Z) :
  0 ≤ i → 2 * i + 8 ≤ m →
  key `mod` 2 ^ m = key' `mod` 2 ^ m →
  Z.land (Z.shiftr key (2 * i)) 0xff = Z.land (Z.shiftr key' (2 * i)) 0xff.
Proof.
  intros Hi Hm Heq. apply Z.bits_inj'. intros j Hj.
  rewrite !Z.land_spec, !Z.shiftr_spec by lia.
  destruct (Z_lt_le_dec j 8) as [Hlt | Hge].
  - rewrite <- (Z.mod_pow2_bits_low key m) by lia.
    rewrite <- (Z.mod_pow2_bits_low key' m) by lia.
    by rewrite Heq.
  - change 255 with (Z.ones 8). rewrite Z.ones_spec_high by lia.
    by rewrite !andb_false_r.
Qed.

Lemma foldl_ext_in {A B : Type} (f g : A → B → A) (l : list B) :
  (∀ x a, x ∈ l → f a x = g a x) → ∀ a, foldl f a l = foldl g a l.
Proof.
  induction l as [|x l IH]; intros Hfg a; simpl; [done|].
  rewrite Hfg by apply list_elem_of_here.
  apply IH. intros y b Hy. apply Hfg. by apply list_elem_of_further.
Qed.

Lemma hash_ptr_rounds_low (key key' len : Z) (i : nat) :
  0 ≤ len →
  key `mod` 2 ^ (2 * Z.quot len 4 + 6) = key' `mod` 2 ^ (2 * Z.quot len 4 + 6) →
  i ∈ seq 0 (Z.to_nat (Z.quot len 4)) →
  Z.land (Z.shiftr key (2 * Z.of_nat i)) 0xff
  = Z.land (Z.shiftr key' (2 * Z.of_nat i)) 0xff.
Proof.
  intros Hlen Heq Hi%elem_of_seq.
  apply (low_byte_eq key key' (2 * Z.quot len 4 + 6)); [lia | | done].
  assert (0 ≤ Z.quot len 4) by (apply Z.quot_pos; lia). lia.
Qed.

(** X21: [hashtable_hash_ptr] shifts the pointer by [2 * i] bits in
    block [i] and keeps eight bits, so that it reads no bit of the
    pointer above the lowest [2 * (len / 4) + 6]: two pointers that
    agree on these bits have the same hash, for every seed. *)
Theorem hash_ptr_reads_low_bits key key' len seed :
  0 ≤ len →
  address key `mod` 2 ^ (2 * Z.quot len 4 + 6)
  = address key' `mod` 2 ^ (2 * Z.quot len 4 + 6) →
  hashtable_hash_ptr key len seed = hashtable_hash_ptr key' len seed.
Proof.
  intros Hlen Heq. unfold hashtable_hash_ptr. f_equal.
  destruct ARCH_64.
  - unfold hash_ptr64.
    rewrite (foldl_ext_in (hash_ptr_round64 (address key))
                          (hash_ptr_round64 (address key'))); [done|].
    intros i hs Hi. unfold hash_ptr_round64.
    by rewrite (hash_ptr_rounds_low (address key) (address key') len i).
  - unfold hash_ptr32.
    rewrite (foldl_ext_in (hash_ptr_round32 (address key))
                          (hash_ptr_round32 (address key'))); [done|].
    intros i hs Hi. unfold hash_ptr_round32.
    by rewrite (hash_ptr_rounds_low (address key) (address key') len i).
Qed.
End Strategies.

(** ** Runs on a 64-bit target *)

(** The hint 1 on both targets. *)
Lemma round_pow_two_hint_one :
  @round_pow_two lp64 1 = 1 ∧ @round_pow_two ilp32 1 = 1.
Proof. split; reflexivity. Qed.

#[local] Existing Instance lp64.

Lemma lp64_ok : platform_ok.
Proof. exists 63. split; [done | reflexivity]. Qed.

Lemma lp64_max : 32 ≤ MAX_POW_TWO.
Proof. done. Qed.

Lemma default_table_int {V : Type} :
  hashtable_capacity (default_table (V:=V)) ≤ INT_MAX.
Proof. done. Qed.

Lemma no_allocs_succeed : all_succeed [].
Proof. by intros b ?%elem_of_nil. Qed.

Lemma default_table_null_safe {V : Type} : null_safe (default_table (V:=V)).
Proof. right. by intros e ?%elem_of_nil. Qed.

Lemma default_table_new {V : Type} :
  hashtable_new (V:=V) [] = Some (Some default_table, []).
Proof. apply (hashtable_new_default [] lp64_ok lp64_max no_allocs_succeed). Qed.

(** With the pointer strategies the hash of [NULL] is defined, and the
    bucket it selects is not bucket 0: after the insertion of the
    [NULL] key, [hashtable_contains_key] answers [false] for it. *)
Lemma null_key_pointer_table :
  ∃ t0 t1 : HashTable Z Z,
    hashtable_new_conf pointer_conf [] = Some (Some t0, [])
    ∧ hashtable_add t0 None (Some 7) [] = Some (true, t1, [])
    ∧ hashtable_get t1 None = Some (Some 7)
    ∧ get_table_index t1 None = Some 9
    ∧ hashtable_contains_key t1 None = Some false.
Proof.
  assert (match hashtable_new_conf (V:=Z) pointer_conf [] with
          | Some (Some t0, o0) =>
              o0 = [] ∧
              match hashtable_add t0 None (Some 7) [] with
              | Some (ok, t1, o1) =>
                  ok = true ∧ o1 = []
                  ∧ hashtable_get t1 None = Some (Some 7)
                  ∧ get_table_index t1 None = Some 9
                  ∧ hashtable_contains_key t1 None = Some false
              | None => False
              end
          | _ => False
          end) as Hm by (vm_compute; auto 10).
  destruct (hashtable_new_conf _ _) as [[[t0|] o0]|]; try done.
  destruct Hm as (-> & Hm). exists t0.
  destruct (hashtable_add _ _ _ _) as [[[ok t1] o1]|]; [|done].
  destruct Hm as (-> & -> & ? & ? & ?). by exists t1.
Qed.

(** The string hash of ["a"] and of ["b"] is the same value, and not the
    fold the claim describes. *)
Lemma hash_string_a_b :
  hashtable_hash_string (Some "a"%string) KEY_LENGTH_VARIABLE 0 = Some 177573
  ∧ hashtable_hash_string (Some "b"%string) KEY_LENGTH_VARIABLE 0 = Some 177573
  ∧ djb2_xor_fold "a"%string = 177604
  ∧ djb2_xor_fold "b"%string = 177607.
Proof. repeat split; reflexivity. Qed.

(** The table after the insertion of one key. *)
Lemma add_one_key :
  ∃ t1 : HashTable string Z,
    hashtable_add default_table (Some "a"%string) (Some 1) [] = Some (true, t1, [])
    ∧ hashtable_size t1 = 1 ∧ hashtable_capacity t1 = 16
    ∧ load_factor t1 = Float32.f0_75 ∧ count t1 = 1.
Proof.
  assert (match hashtable_add (V:=Z) default_table (Some "a"%string) (Some 1) [] with
          | Some (ok, t1, o1) =>
              ok = true ∧ o1 = [] ∧ hashtable_size t1 = 1
              ∧ hashtable_capacity t1 = 16 ∧ load_factor t1 = Float32.f0_75
              ∧ count t1 = 1
          | None => False
          end) as Hm by (vm_compute; auto 10).
  destruct (hashtable_add _ _ _ _) as [[[ok t1] o1]|]; [|done].
  destruct Hm as (-> & -> & ? & ? & ? & ?). by exists t1.
Qed.

Lemma add_one_key_wf t1 :
  hashtable_add (V:=Z) default_table (Some "a"%string) (Some 1) []
  = Some (true, t1, []) →
  wf t1.
Proof.
  intros Hadd.
  by apply hashtable_add_spec in Hadd as (? & ? & _ & ? & _);
    [| apply lp64_ok | apply (default_table_wf lp64_ok lp64_max)
     | apply default_table_null_safe].
Qed.

(** *** The theorems at concrete inputs *)

Lemma add_same_key_twice_witness :
  ∃ t1 t2 : HashTable string Z,
    hashtable_add default_table (Some "a"%string) (Some 1) [] = Some (true, t1, [])
    ∧ (∃ o2, hashtable_add t1 (Some "a"%string) (Some 2) [] = Some (true, t2, o2))
    ∧ hashtable_size t2 = hashtable_size t1
    ∧ hashtable_get t2 (Some "a"%string) = Some (Some 2).
Proof.
  destruct add_one_key as (t1 & Hadd & Hsz & Hcap & Hlf & _).
  destruct (add_same_key_twice default_table (Some "a"%string) (Some 1) (Some 2)
              [] t1 [] [] lp64_ok (default_table_wf lp64_ok lp64_max)
              default_table_null_safe Hadd)
    as (t2 & o2 & Hadd2 & Hsize & _ & Hget).
  { unfold growth_defined. unfold hashtable_capacity in Hcap.
    rewrite Hlf, Hcap. by eexists. }
  exists t1, t2. eauto.
Defined.

Lemma add_walks_into_null_key_witness :
  hashtable_add default_table None (Some 7) []
  = Some (true, null_key_table (Some 7), [])
  ∧ hashtable_add (null_key_table (Some 7)) (Some "k05"%string) (Some 1) [] = None
  ∧ hashtable_get (null_key_table (Some 7)) (Some "k05"%string) = None.
Proof.
  destruct (add_walks_into_null_key (V:=Z) (Some 7) "k05"%string 193357824
              (Some 1) [] [] lp64_ok lp64_max no_allocs_succeed eq_refl eq_refl)
    as (_ & Hadd & Hbad & Hget).
  done.
Defined.



Lemma null_key_scenario_witness :
  ∃ t1 t2 : HashTable string Z,
    hashtable_add default_table None (Some 7) [] = Some (true, t1, [])
    ∧ hashtable_get t1 None = Some (Some 7)
    ∧ hashtable_contains_key t1 None = None
    ∧ hashtable_remove t1 None = Some (Some 7, t2)
    ∧ hashtable_get t2 None = Some None.
Proof.
  destruct (null_key_scenario (V:=Z) 7 [] lp64_ok lp64_max no_allocs_succeed)
    as (t0 & o0 & t1 & o1 & t2 & Hnew & Hadd & ? & ? & ? & ?).
  rewrite default_table_new in Hnew. simplify_eq.
  assert (o1 = []) as ->.
  { apply hashtable_add_inv in Hadd
      as (? & ? & ? & ? & ? & Hg & Ha & _).
    rewrite grow_if_full_not_full in Hg by done. simplify_eq.
    apply add_at_inv in Ha as (? & ? & _ & _ & [(? & _ & _ & -> & _) | (_ & [(? & _) | (_ & Hal & _)])]);
      [done | done | by simplify_eq/=]. }
  by exists t1, t2.
Defined.

Lemma hashtable_hash_string_skips_first_byte_witness :
  hashtable_hash_string (Some "a"%string) KEY_LENGTH_VARIABLE 0
  = Some (wrap (djb2_xor_fold ""%string * 33)).
Proof.
  apply (hashtable_hash_string_skips_first_byte "a"%char ""%string). done.
Defined.

(** C5, as stated, at the hint 1: the capacity of the new table is 1,
    which is below 2. *)
Lemma capacity_hint_one :
  ∃ t : HashTable string Z,
    hashtable_new_conf (conf_with_capacity 1) [] = Some (Some t, [])
    ∧ hashtable_capacity t = 1
    ∧ ¬ 2 ≤ hashtable_capacity t.
Proof.
  assert (match hashtable_new_conf (V:=Z) (conf_with_capacity 1) [] with
          | Some (Some t, o) => o = [] ∧ hashtable_capacity t = 1
          | _ => False
          end) as Hm by (vm_compute; auto).
  destruct (hashtable_new_conf _ _) as [[[t|] o]|]; try done.
  destruct Hm as (-> & Hc). exists t. rewrite Hc. split; [done|]. split; [done | lia].
Qed.

Lemma capacity_power_of_two_witness :
  (∃ n, 0 ≤ n ∧ hashtable_capacity (default_table (V:=Z)) = 2 ^ n)
  ∧ 1 ≤ hashtable_capacity (default_table (V:=Z)).
Proof.
  destruct (capacity_power_of_two (V:=Z) hashtable_conf_init [] default_table []
              default_table lp64_ok)
    as (Hpow & Hone & _).
  - done.
  - left. done.
  - apply default_table_new.
  - apply rtc_refl.
  - done.
Defined.

Lemma iter_init_empty_keeps_next_entry_witness :
  ∃ iter',
    hashtable_iter_init used_iter default_table = Some iter'
    ∧ hashtable_iter_has_next iter' = true.
Proof.
  destruct (iter_init_empty_keeps_next_entry used_iter default_table
              (replicate 16 []) eq_refl eq_refl default_table_int eq_refl eq_refl)
    as (iter' & Hinit & _ & Hnext).
  exists iter'. done.
Defined.

Lemma new_conf_returns_null_buckets_witness :
  ∃ t : HashTable string Z,
    hashtable_new [true; false] = Some (Some t, [])
    ∧ buckets t = None.
Proof.
  apply (new_conf_returns_null_buckets hashtable_conf_init 12). reflexivity.
Defined.

Lemma remove_walks_into_null_key_witness :
  hashtable_add default_table None (Some 7) []
  = Some (true, null_key_table (Some 7), [])
  ∧ absent (null_key_table (Some 7)) (Some "k05"%string)
  ∧ hashtable_remove (null_key_table (Some 7)) (Some "k05"%string) = None.
Proof.
  destruct (remove_walks_into_null_key (V:=Z) (Some 7) "k05"%string 193357824
              [] lp64_ok lp64_max no_allocs_succeed eq_refl eq_refl)
    as (_ & Hadd & Habs & Hbad).
  done.
Defined.


Lemma remove_all_then_contains_null_key_witness :
  ∃ t2 : HashTable string Z,
    hashtable_add default_table None (Some 7) []
    = Some (true, null_key_table (Some 7), [])
    ∧ hashtable_remove_all (null_key_table (Some 7)) = Some t2
    ∧ hashtable_size t2 = 0
    ∧ hashtable_contains_key t2 None = None.
Proof.
  destruct (remove_all_then_contains_null_key (V:=Z) (Some 7) []
              lp64_ok lp64_max no_allocs_succeed)
    as (t2 & _ & Hadd & Hr & Hsz & _ & _ & _ & Hc).
  by exists t2.
Defined.

Lemma remove_all_clears_witness :
  ∃ t1 t' : HashTable string Z,
    hashtable_add default_table (Some "a"%string) (Some 1) [] = Some (true, t1, [])
    ∧ hashtable_remove_all t1 = Some t'
    ∧ hashtable_size t' = 0
    ∧ hashtable_capacity t' = 16
    ∧ hashtable_contains_key t' (Some "a"%string) = Some false.
Proof.
  destruct add_one_key as (t1 & Hadd & Hsz & Hcap & Hlf & _).
  pose proof (add_one_key_wf t1 Hadd) as Hwf.
  destruct (remove_all_clears t1 lp64_ok (wf_capacity t1 Hwf) (wf_size_inv t1 Hwf))
    as (t' & Hr & Hsize & _ & _ & Hcap' & _ & Hcontains).
  { destruct (wf_buckets t1 Hwf) as (bs & -> & _). by eexists. }
  { rewrite Hcap. done. }
  exists t1, t'. split; [done|]. split; [done|]. split; [done|].
  split; [congruence|].
  destruct (hash_total _ _ _ _ (wf_strategies t1 Hwf) "a"%string) as [h Hh].
  by apply (Hcontains _ h).
Defined.

Lemma size_is_entry_count_witness :
  ∃ t1 : HashTable string Z,
    hashtable_add default_table (Some "a"%string) (Some 1) [] = Some (true, t1, [])
    ∧ hashtable_size t1 = count t1.
Proof.
  destruct add_one_key as (t1 & Hadd & _ & _ & _ & Hcount).
  exists t1. split; [done|].
  apply size_is_entry_count.
  - exists hashtable_conf_init, [], default_table, [].
    split; [apply default_table_new|].
    eapply rtc_l; [|apply rtc_refl]. by eapply step_add.
  - rewrite Hcount. done.
Defined.

(** *** Sample tables for the further properties *)

Lemma default_table_cap_inv {V : Type} : cap_inv (default_table (V:=V)).
Proof. exists 4. split; [lia|]. split; reflexivity || done. Qed.

Lemma default_table_absent {V : Type} key : absent (default_table (V:=V)) key.
Proof. by intros e ?%elem_of_nil. Qed.

(** The table that holds the key ["a"]. *)
Lemma one_key_table :
  ∃ (t1 : HashTable string Z) e,
    hashtable_add default_table (Some "a"%string) (Some 1) [] = Some (true, t1, [])
    ∧ wf t1 ∧ null_safe t1 ∧ same_params default_table t1
    ∧ entries t1 = [e] ∧ e_key e = Some "a"%string ∧ e_value e = Some 1.
Proof.
  assert (match hashtable_add (V:=Z) default_table (Some "a"%string) (Some 1) [] with
          | Some (ok, t1, o1) =>
              ok = true ∧ o1 = []
              ∧ entries t1 = [{| e_key := Some "a"%string; e_value := Some 1;
                                 e_hash := 177573 |}]
          | None => False
          end) as Hm by (vm_compute; auto 10).
  destruct (hashtable_add _ _ _ _) as [[[ok t1] o1]|] eqn:Hadd; [|done].
  destruct Hm as (-> & -> & Hent).
  destruct (hashtable_add_spec default_table (Some "a"%string) (Some 1) []
              true t1 [] lp64_ok
              (default_table_wf lp64_ok lp64_max) default_table_null_safe Hadd)
    as (_ & _ & _ & Hwf & Hpar & _).
  exists t1. eexists. split; [done|]. split; [done|].
  split; [|done].
  right. intros e. rewrite Hent. by intros ->%list_elem_of_singleton.
Qed.

(** The table that holds the keys ["a"] and ["b"], which have the same
    hash and share a chain. *)
Lemma two_key_table :
  ∃ (t1 t2 : HashTable string Z) ea eb,
    hashtable_add default_table (Some "a"%string) (Some 1) [] = Some (true, t1, [])
    ∧ hashtable_add t1 (Some "b"%string) (Some 2) [] = Some (true, t2, [])
    ∧ wf t1 ∧ null_safe t1 ∧ same_params default_table t1
    ∧ wf t2 ∧ null_safe t2 ∧ same_params default_table t2
    ∧ entries t2 = [eb] ++ [ea]
    ∧ e_key ea = Some "a"%string ∧ e_value ea = Some 1
    ∧ e_key eb = Some "b"%string ∧ e_value eb = Some 2
    ∧ hashtable_capacity t2 = 16.
Proof.
  assert (match hashtable_add (V:=Z) default_table (Some "a"%string) (Some 1) [] with
          | Some (ok, t1, o1) =>
              ok = true ∧ o1 = []
              ∧ match hashtable_add t1 (Some "b"%string) (Some 2) [] with
                | Some (ok2, t2, o2) =>
                    ok2 = true ∧ o2 = []
                    ∧ hashtable_capacity t2 = 16
                    ∧ entries t2
                      = [{| e_key := Some "b"%string; e_value := Some 2;
                            e_hash := 177573 |}]
                        ++ [{| e_key := Some "a"%string; e_value := Some 1;
                               e_hash := 177573 |}]
                | None => False
                end
          | None => False
          end) as Hm by (vm_compute; auto 10).
  destruct (hashtable_add _ _ _ _) as [[[ok t1] o1]|] eqn:Hadd; [|done].
  destruct Hm as (-> & -> & Hm).
  destruct (hashtable_add_spec default_table (Some "a"%string) (Some 1) []
              true t1 [] lp64_ok
              (default_table_wf lp64_ok lp64_max) default_table_null_safe Hadd)
    as (_ & _ & _ & Hwf & Hpar & _ & _ & Hsafe & _).
  specialize (Hsafe ltac:(done) default_table_null_safe).
  exists t1.
  destruct (hashtable_add t1 _ _ _) as [[[ok2 t2] o2]|] eqn:Hadd2; [|done].
  destruct Hm as (-> & -> & Hcap2 & Hent).
  destruct (hashtable_add_spec t1 (Some "b"%string) (Some 2) [] true t2 []
              lp64_ok Hwf Hsafe Hadd2)
    as (_ & _ & _ & Hwf2 & Hpar2 & _ & _ & Hsafe2 & _).
  specialize (Hsafe2 ltac:(done) Hsafe).
  exists t2. eexists _, _. split; [done|]. split; [done|].
  split; [done|]. split; [done|]. split; [done|]. split; [done|].
  split; [done|]. split; [|done].
  destruct Hpar as (? & ? & ? & ? & ?), Hpar2 as (? & ? & ? & ? & ?).
  repeat split; congruence.
Qed.

Lemma one_key_table_int (t1 : HashTable string Z) :
  hashtable_add default_table (Some "a"%string) (Some 1) [] = Some (true, t1, []) →
  hashtable_capacity t1 ≤ INT_MAX.
Proof.
  intros Hadd. destruct add_one_key as (t1' & Hadd' & _ & Hcap & _).
  rewrite Hadd in Hadd'. simplify_eq. by rewrite Hcap.
Qed.

Lemma a_is_not_b (t : HashTable string Z) :
  same_params default_table t →
  ¬ same_key t (Some "b"%string) (Some "a"%string).
Proof. intros (_ & Hc & _). unfold same_key. rewrite Hc. simpl. done. Qed.



(** *** The further properties at concrete inputs *)

Lemma add_then_get_witness :
  ∃ t1 : HashTable string Z,
    hashtable_add default_table (Some "a"%string) (Some 1) [] = Some (true, t1, [])
    ∧ hashtable_get t1 (Some "a"%string) = Some (Some 1)
    ∧ hashtable_contains_key t1 (Some "a"%string) = Some true.
Proof.
  destruct add_one_key as (t1 & Hadd & _).
  destruct (add_then_get default_table (Some "a"%string) (Some 1) [] t1 []
              lp64_ok (default_table_wf lp64_ok lp64_max)
              default_table_null_safe Hadd) as [Hget Hcontains].
  exists t1. split; [done|]. split; [done|]. by apply Hcontains.
Defined.

Lemma add_keeps_other_keys_witness :
  ∃ t1 t2 : HashTable string Z,
    hashtable_add default_table (Some "a"%string) (Some 1) [] = Some (true, t1, [])
    ∧ hashtable_add t1 (Some "b"%string) (Some 2) [] = Some (true, t2, [])
    ∧ hashtable_get t2 (Some "a"%string) = hashtable_get t1 (Some "a"%string).
Proof.
  destruct two_key_table
    as (t1 & t2 & ea & eb & Hadd & Hadd2 & Hwf & Hsafe & Hpar & _ & Hsafe2 & _).
  exists t1, t2. split; [done|]. split; [done|].
  apply (add_keeps_other_keys t1 (Some "b"%string) (Some 2) [] true t2 []
           (Some "a"%string) lp64_ok Hwf Hsafe Hadd2 (a_is_not_b t1 Hpar)
           Hsafe Hsafe2).
Defined.


Lemma add_counts_new_keys_witness :
  ∃ t1 : HashTable string Z,
    hashtable_add default_table (Some "a"%string) (Some 1) [] = Some (true, t1, [])
    ∧ count t1 = count (default_table (V:=Z)) + 1.
Proof.
  destruct add_one_key as (t1 & Hadd & _).
  destruct (add_counts_new_keys default_table (Some "a"%string) (Some 1) [] t1 []
              lp64_ok (default_table_wf lp64_ok lp64_max)
              default_table_null_safe Hadd) as [Hnew _].
  exists t1. split; [done|]. by apply Hnew, default_table_absent.
Defined.

Lemma remove_present_key_witness :
  ∃ t1 t' : HashTable string Z,
    hashtable_add default_table (Some "a"%string) (Some 1) [] = Some (true, t1, [])
    ∧ hashtable_remove t1 (Some "a"%string) = Some (Some 1, t')
    ∧ count t' = count t1 - 1
    ∧ hashtable_get t' (Some "a"%string) = Some None.
Proof.
  destruct one_key_table as (t1 & e & Hadd & Hwf & Hsafe & _ & Hent & Hk & Hv).
  destruct (remove_present_key t1 (Some "a"%string) e lp64_ok Hwf Hsafe)
    as (t' & Hr & _ & Hcount & _ & _ & _ & Hget).
  - rewrite Hent. apply list_elem_of_here.
  - rewrite Hk. by apply wf_same_refl.
  - exists t1, t'. rewrite Hv in Hr. done.
Defined.

Lemma remove_keeps_other_keys_witness :
  ∃ (t2 t' : HashTable string Z) val,
    hashtable_remove t2 (Some "b"%string) = Some (val, t')
    ∧ hashtable_get t' (Some "a"%string) = hashtable_get t2 (Some "a"%string).
Proof.
  destruct two_key_table
    as (t1 & t2 & ea & eb & _ & _ & _ & _ & _ & Hwf2 & Hsafe2 & Hpar2 & _).
  destruct (hashtable_remove_spec t2 (Some "b"%string) lp64_ok Hwf2 Hsafe2)
    as (val & t' & Hr & _).
  exists t2, t', val. split; [done|].
  apply (remove_keeps_other_keys t2 (Some "b"%string) val t' (Some "a"%string)
           lp64_ok Hwf2 Hsafe2 Hr (a_is_not_b t2 Hpar2) Hsafe2).
Defined.

Lemma contains_key_iff_present_witness :
  ∃ (t1 : HashTable string Z) (b : bool),
    hashtable_add default_table (Some "a"%string) (Some 1) [] = Some (true, t1, [])
    ∧ hashtable_contains_key t1 (Some "a"%string) = Some b
    ∧ (b = false ↔ absent t1 (Some "a"%string)).
Proof.
  destruct one_key_table as (t1 & e & Hadd & Hwf & Hsafe & _).
  destruct (contains_key_iff_present t1 (Some "a"%string) lp64_ok Hwf)
    as (b & Hc & _ & Hb & _); [done | done |].
  by exists t1, b.
Defined.

Lemma invariant_of_reachable_tables_witness :
  ∃ t1 : HashTable string Z,
    hashtable_add default_table (Some "a"%string) (Some 1) [] = Some (true, t1, [])
    ∧ wf t1.
Proof.
  destruct add_one_key as (t1 & Hadd & _).
  exists t1. split; [done|].
  apply (invariant_of_reachable_tables hashtable_conf_init [] default_table [] t1
           lp64_ok).
  - done.
  - left. done.
  - apply string_strategies_ok.
  - apply default_table_new.
  - by eexists.
  - eapply rtc_l; [|apply rtc_refl].
    eapply safe_add; [|exact Hadd]. apply default_table_null_safe.
Defined.

Lemma capacity_changes_by_doubling_witness :
  ∃ t1 : HashTable string Z,
    hashtable_add default_table (Some "a"%string) (Some 1) [] = Some (true, t1, [])
    ∧ hashtable_capacity t1 ≤ MAX_POW_TWO
    ∧ ((hashtable_capacity t1 = hashtable_capacity (default_table (V:=Z))
        ∧ threshold t1 = threshold (default_table (V:=Z)))
       ∨ (threshold (default_table (V:=Z)) ≤ hashtable_size (default_table (V:=Z))
          ∧ hashtable_capacity t1
            = 2 * hashtable_capacity (default_table (V:=Z)))).
Proof.
  destruct add_one_key as (t1 & Hadd & _).
  destruct (capacity_changes_by_doubling (default_table (V:=Z)) lp64_ok
              default_table_cap_inv) as (Hadds & _ & _).
  destruct (Hadds _ _ _ _ _ _ Hadd) as (Hcase & Hle & _).
  by exists t1.
Defined.

Lemma threshold_of_reachable_tables_witness :
  ∃ t1 : HashTable string Z,
    hashtable_add default_table (Some "a"%string) (Some 1) [] = Some (true, t1, [])
    ∧ threshold_inv t1.
Proof.
  destruct add_one_key as (t1 & Hadd & _).
  exists t1. split; [done|].
  apply threshold_of_reachable_tables.
  exists hashtable_conf_init, [], default_table, [].
  split; [apply default_table_new|].
  eapply rtc_l; [|apply rtc_refl]. by eapply step_add.
Defined.


Lemma new_table_is_empty_witness :
  hashtable_size (default_table (V:=Z)) = 0
  ∧ hashtable_get (default_table (V:=Z)) (Some "a"%string) = Some None.
Proof.
  destruct (new_table_is_empty (V:=Z) hashtable_conf_init [] default_table []
              lp64_ok) as (Hsize & Hkeys).
  - done.
  - left. done.
  - apply string_strategies_ok.
  - apply default_table_new.
  - by eexists.
  - split; [done|]. by destruct (Hkeys (Some "a"%string)) as (? & _).
Defined.

Lemma round_pow_two_idempotent_witness :
  round_pow_two (round_pow_two 5) = round_pow_two 5.
Proof.
  apply (round_pow_two_idempotent 5 lp64_ok); [lia | left; lia].
Defined.

Lemma iter_init_finds_first_entry_witness :
  ∃ (t1 : HashTable string Z) iter,
    hashtable_add default_table (Some "a"%string) (Some 1) [] = Some (true, t1, [])
    ∧ hashtable_iter_init used_iter t1 = Some iter
    ∧ prev_entry iter = []
    ∧ hashtable_iter_has_next iter = true
    ∧ hashtable_iter_remove iter = None.
Proof.
  destruct one_key_table as (t1 & e & Hadd & Hwf & _ & _ & Hent & _).
  destruct (iter_init_finds_first_entry t1 used_iter Hwf (one_key_table_int t1 Hadd))
    as (iter & bs & n & e0 & c & Hinit & _ & _ & _ & _ & _ & _ & _ & Hp & Hn & Hr).
  - by rewrite Hent.
  - by exists t1, iter.
Defined.

Lemma iter_pass_misses_last_entry_witness :
  ∃ (t2 : HashTable string Z) iter p iter' iter'',
    hashtable_iter_init used_iter t2 = Some iter
    ∧ hashtable_iter_next iter = Some (Some p, iter')
    ∧ (e_key <$> head p) = Some (Some "b"%string)
    ∧ hashtable_iter_has_next iter' = true
    ∧ hashtable_iter_next iter' = Some (None, iter'')
    ∧ hashtable_iter_has_next iter'' = false
    ∧ (e_key <$> head (prev_entry iter'')) = Some (Some "a"%string).
Proof.
  destruct two_key_table
    as (t1 & t2 & ea & eb & _ & _ & _ & _ & _ & Hwf2 & _ & _ & Hent & Ha & _ & Hb
        & _ & Hcap2).
  destruct (iter_pass_misses_last_entry t2 used_iter [eb] ea Hwf2)
    as (iter & iter' & iter'' & Hinit & Hy & Hn & Hnext & Hend & Hlast);
    [by rewrite Hcap2 | exact Hent |].
  destruct Hy as (p & iter1 & Hstep & Hp & ->).
  exists t2, iter, p, iter1, iter''.
  rewrite Hp, Hlast. simpl. rewrite Ha, Hb. done.
Defined.

Lemma iter_remove_removes_returned_entry_witness :
  ∃ (t1 : HashTable string Z) iter r iter1 iter2,
    hashtable_add default_table (Some "a"%string) (Some 1) [] = Some (true, t1, [])
    ∧ hashtable_iter_init used_iter t1 = Some iter
    ∧ hashtable_iter_next iter = Some (r, iter1)
    ∧ hashtable_iter_remove iter1 = Some iter2
    ∧ entries (table iter2) = [].
Proof.
  destruct one_key_table as (t1 & e & Hadd & Hwf & Hsafe & _ & Hent & Hk & _).
  destruct (wf_buckets t1 Hwf) as (bs & Hbs & Hlen & _).
  pose proof (one_key_table_int t1 Hadd) as Hlt.
  assert (entries t1 = concat bs) as Hcat by (unfold entries; by rewrite Hbs).
  destruct (iter_init_spec t1 bs used_iter Hbs Hlen Hlt)
    as (n & e0 & c & Hinit & Hl & Hc & _); [by rewrite <- Hcat, Hent|].
  rewrite <- Hcat, Hent in Hc. injection Hc as <- Hc.
  symmetry in Hc. apply app_eq_nil in Hc as [-> Hc].
  destruct (iter_pass t1 bs Hbs Hlen Hlt [] n [e] [] e)
    as (iter' & iter'' & -> & _ & Hnext & _);
    [by eapply lookup_lt_Some | by rewrite Hc | done |].
  destruct (iter_remove_removes_returned_entry _ e [] None iter'' lp64_ok
              (Hwf : wf (table {| table := t1; bucket_index := Z.of_nat n;
                                  next_entry := [e]; prev_entry := [] |}))
              eq_refl)
    as (iter2 & Hrem & Hperm & _).
  - simpl. rewrite Hent. apply list_elem_of_here.
  - simpl. by rewrite Hk.
  - exact Hnext.
  - eexists t1, _, None, iter'', iter2.
    split; [done|]. split; [exact Hinit|]. split; [exact Hnext|].
    split; [done|].
    simpl in Hperm. rewrite Hent in Hperm.
    apply Permutation_cons_inv, Permutation_nil in Hperm. done.
Defined.

Lemma foreach_visits_each_entry_witness :
  ∃ t1 : HashTable string Z,
    hashtable_add default_table (Some "a"%string) (Some 1) [] = Some (true, t1, [])
    ∧ hashtable_foreach_key t1 note [] = Some [Some "a"%string]
    ∧ hashtable_foreach_value t1 note [] = Some [Some 1].
Proof.
  destruct one_key_table as (t1 & e & Hadd & Hwf & _ & _ & Hent & Hk & Hv).
  destruct (foreach_visits_each_entry t1 lp64_ok Hwf (one_key_table_int t1 Hadd))
    as (Hkeys & Hvals & _).
  exists t1. split; [done|].
  rewrite Hkeys, Hvals, Hent. simpl. by rewrite Hk, Hv.
Defined.

Lemma add_then_remove_witness :
  ∃ t1 t2 : HashTable string Z,
    hashtable_add default_table (Some "a"%string) (Some 1) [] = Some (true, t1, [])
    ∧ hashtable_remove t1 (Some "a"%string) = Some (Some 1, t2)
    ∧ hashtable_size t2 = hashtable_size (default_table (V:=Z))
    ∧ entries t2 ≡ₚ entries (default_table (V:=Z)).
Proof.
  destruct add_one_key as (t1 & Hadd & _).
  destruct (add_then_remove default_table (Some "a"%string) (Some 1) [] t1 []
              lp64_ok (default_table_wf lp64_ok lp64_max)
              default_table_null_safe (default_table_absent _) Hadd)
    as (t2 & Hr & Hent & Hsize & _).
  by exists t1, t2.
Defined.

Lemma table_index_in_bounds_witness :
  ∃ i, get_table_index (default_table (V:=Z)) (Some "a"%string) = Some i
       ∧ 0 ≤ i < 16
       ∧ i = 177573 `mod` 16.
Proof.
  apply (table_index_in_bounds (default_table (V:=Z)) (Some "a"%string) 177573
           lp64_ok default_table_cap_inv).
  reflexivity.
Defined.

Lemma hash_ptr_reads_low_bits_witness :
  hashtable_hash_ptr (Some 4096) 8 0 = hashtable_hash_ptr (Some 8192) 8 0.
Proof.
  apply (hash_ptr_reads_low_bits (Some 4096) (Some 8192) 8 0); [lia|].
  reflexivity.
Defined.
